(** * speedometer_simple: the sampling and smoothing engine

    A shallow embedding of [src/speedometer_simple.py] (Python 2): the bounded
    sample log of class [Speedometer], the delta engine, the speed converter
    [delta_to_speed], the smoother [curve], the two renderers
    [readable_speed] and [graphic_speed], the polling loop [do_simple] and
    the argument parser [parse_args].

    Conventions of the embedding.
    - Python [long] values are [Z]; [long / long] is Python 2 floor division,
      which is [Z.div].
    - [time.time()] is an explicit argument of [update]; a timestamp is the
      rational its double denotes.
    - A function that can raise returns an [outcome]; [None] results are
      [option].
    - Python [float] arithmetic is modelled twice.  The first model computes
      with the rationals themselves, without rounding: it is used for the
      properties that no rounding can change (which readings a delta is
      taken between, signs, order, what is raised on which arguments).
      The second, modules [Binary64] and [Float], makes every operation
      round to the nearest double, overflow to an infinity and raise as
      Python does: it is used wherever a property is about the value
      computed with floats. *)

From Stdlib Require Import ZArith QArith Qround Qabs Qpower Qreduction Qcanon.
From Stdlib Require Import Lia Lqa.
From Stdlib Require Import Ascii String.
From stdpp Require Import base list sorting strings pretty.

Local Open Scope Z_scope.

(** ** Exceptions and the error monad *)

Inductive exn : Set :=
| AssertionError
| IndexError
| ZeroDivisionError
| OverflowError
| ValueError.

Inductive outcome (A : Type) : Type :=
| Return (a : A)
| Raise (e : exn).

Arguments Return {A} a.
Arguments Raise {A} e.

#[global] Instance outcome_ret : MRet outcome := fun A a => Return a.

#[global] Instance outcome_bind : MBind outcome := fun A B k m =>
  match m with
  | Return a => k a
  | Raise e => Raise e
  end.

(** [assert c] *)
Definition assert (c : bool) : outcome unit :=
  if c then Return tt else Raise AssertionError.

(** ** Python sequences *)

(** [l[k:]] for any integer [k]. *)
Definition py_slice_from {A : Type} (l : list A) (k : Z) : list A :=
  let n := Z.of_nat (length l) in
  let lo := if k <? 0 then Z.max (n + k) 0 else Z.min k n in
  drop (Z.to_nat lo) l.

(** [l[i]] for any integer [i]; out of range raises [IndexError]. *)
Definition py_index {A : Type} (l : list A) (i : Z) : outcome A :=
  let n := Z.of_nat (length l) in
  let j := if i <? 0 then i + n else i in
  if (j <? 0) || (n <=? j) then Raise IndexError
  else match l !! Z.to_nat j with
       | Some x => Return x
       | None => Raise IndexError
       end.

(** ** Numbers *)

(** [long(x)] on a float: truncation toward zero. *)
Definition long (x : Q) : Z :=
  if Qle_bool 0 x then Qfloor x else Qceiling x.

(** ** class Speedometer *)

(** A reading is the tuple [(t, bytes)]. *)
Definition reading : Type := Q * Z.

(** Tuple comparison [a == b]. *)
Definition reading_eqb (a b : reading) : bool :=
  Qeq_bool a.1 b.1 && (a.2 =? b.2).

Record Speedometer : Type := mkSpeedometer {
  log : list reading;
  start : option reading;
  maxlog : Z
}.

(** [Speedometer(maxlog)] *)
Definition init (maxlog : Z) : Speedometer :=
  {| log := []; start := None; maxlog := maxlog |}.

Definition get_log (self : Speedometer) : list reading := log self.

(** [update(bytes)], the clock value [t] being what [time.time()] returned.
    A reading is a non-empty tuple, hence true as a condition: [not self.start]
    holds only while [start] is [None]. *)
Definition update (self : Speedometer) (t : Q) (bytes : Z) : Speedometer :=
  let r : reading := (t, bytes) in
  let start' := match start self with
                | None => Some r
                | Some s0 => Some s0
                end in
  let log' := log self ++ [r] in
  {| log := py_slice_from log' (- (maxlog self + 1));
     start := start';
     maxlog := maxlog self |}.

(** [delta(readings, skip)] *)
Definition delta (self : Speedometer) (readings skip : Z)
  : outcome (option (Q * Z)) :=
  assert (0 <=? readings) ;;
  assert (readings <=? maxlog self) ;;
  assert (0 <=? skip) ;;
  (if 0 <? skip then assert (0 <? readings) else Return tt) ;;
  let n := Z.of_nat (length (log self)) in
  if n - 1 <? skip then Return None
  else
    current ← py_index (log self) (-1 - skip);
    target ← (if readings =? 0 then Return (start self)
               else if readings + skip <? n
                    then r ← py_index (log self) (- (readings + skip + 1));
                         Return (Some r)
                    else Return None);
    match target with
    | None => Return None
    | Some tg =>
        if reading_eqb tg current then Return None
        else
          let byte_increase := current.2 - tg.2 in
          let time_passed := (current.1 - tg.1)%Q in
          Return (Some (time_passed, byte_increase))
    end.

(** [delta_to_speed(delta)] *)
Definition delta_to_speed (d : Q * Q) : Z :=
  let '(time_passed, byte_increase) := d in
  if Qle_bool time_passed 0 then 0
  else if long (time_passed * 1000) =? 0 then 0
  else long (byte_increase * 1000) / long (time_passed * 1000).

(** [speed(readings, skip)] *)
Definition speed (self : Speedometer) (readings skip : Z)
  : outcome (option Z) :=
  d ← delta self readings skip;
  match d with
  | Some (t, b) => Return (Some (delta_to_speed (t, inject_Z b)))
  | None => Return None
  end.

(** The state after a session that recorded [samples], oldest first. *)
Definition record_all (self : Speedometer) (samples : list reading)
  : Speedometer :=
  foldl (fun s r => update s r.1 r.2) self samples.

Definition session (maxlog : Z) (samples : list reading) : Speedometer :=
  record_all (init maxlog) samples.

(** ** curve *)

(** The loop of [curve]: [val] is what is left of the weights, [i] the loop
    index, [wtot] and [ws] the accumulators.  [float(b)*v/t] raises on a zero
    [t]. *)
Fixpoint curve_loop (spd : Speedometer) (val : list Z) (i : Z)
    (wtot : Z) (ws : Q) : outcome (Z * Q) :=
  match val with
  | [] => Return (wtot, ws)
  | v :: val' =>
      d ← delta spd 1 i;
      match d with
      | None => Return (wtot, ws)
      | Some (t, b) =>
          if Qeq_bool t 0 then Raise ZeroDivisionError
          else curve_loop spd val' (i + 1) (wtot + v)
                 (ws + inject_Z b * inject_Z v / t)%Q
      end
  end.

Definition curve_val : list Z := [6; 5; 4; 3; 2; 1].

Definition curve (spd : Speedometer) : outcome Z :=
  '(wtot, ws) ← curve_loop spd curve_val 0 0 0%Q;
  Return (delta_to_speed (inject_Z wtot, ws)).

(** ** readable_speed *)

(** Left padding to a minimum width. *)
Fixpoint fill (c : Ascii.ascii) (n : nat) : string :=
  match n with
  | O => ""
  | S n' => String c (fill c n')
  end.

Definition pad_left (c : Ascii.ascii) (width : nat) (s : string) : string :=
  fill c (width - String.length s) +:+ s.

(** ["%<width>d" % n] *)
Definition fmt_d (width : nat) (n : Z) : string :=
  pad_left " "%char width (pretty n).

(** Rounding of a non-negative rational to the nearest integer, ties to the
    even one. *)
Definition round_half_even (x : Q) : Z :=
  let n := Qnum x in
  let d := Z.pos (Qden x) in
  let q := n / d in
  let r := n mod d in
  if 2 * r <? d then q
  else if d <? 2 * r then q + 1
  else if Z.even q then q else q + 1.

(** ["%<width>.<prec>f" % x] *)
Definition fmt_f (width prec : nat) (x : Q) : string :=
  let scale := 10 ^ Z.of_nat prec in
  let m := round_half_even (Qabs x * inject_Z scale) in
  let sign := if Qle_bool 0 x then "" else "-" in
  let frac := if Nat.eqb prec 0 then ""
              else "." +:+ pad_left "0"%char prec (pretty (m mod scale)) in
  pad_left " "%char width (sign +:+ pretty (m / scale) +:+ frac).

Definition units : list string := ["B/s"; "KiB/s"; "MiB/s"; "GiB/s"; "TiB/s"].

(** The loop of [readable_speed] over what is left of [units]; falling out of
    it reaches the final [return]. *)
Fixpoint readable_loop (us : list string) (speed step : Z) : string :=
  match us with
  | [] => fmt_d 4 (speed / (step / 1024)) +:+ " " +:+ List.last units ""
  | u :: us' =>
      let x := (inject_Z speed / inject_Z step)%Q in
      let s2 := fmt_f 4 2 x +:+ " " in
      let s1 := fmt_f 4 1 x +:+ " " in
      if (1 <? step) && (String.length s2 <=? 5)%nat then s2 +:+ u
      else if (1 <? step) && (String.length s1 <=? 5)%nat then s1 +:+ u
      else if speed / step <? 1024 then fmt_d 4 (speed / step) +:+ " " +:+ u
      else readable_loop us' speed (step * 1024)
  end.

Definition readable_speed (speed : option Z) : string :=
  let speed := match speed with
               | None => 0
               | Some v => if v <? 0 then 0 else v
               end in
  readable_loop units speed 1.

(** ** graphic_speed *)

(** [int(2 ** (x * 5.0 / 3))] is the integer cube root of [2 ^ (5 * x)];
    [icbrt_bits k n r] settles the [k] low bits of the root, high bit first. *)
Fixpoint icbrt_bits (k : nat) (n r : Z) : Z :=
  match k with
  | O => r
  | S k' =>
      let r' := r + 2 ^ Z.of_nat k' in
      icbrt_bits k' n (if r' ^ 3 <=? n then r' else r)
  end.

Definition icbrt (n : Z) : Z := icbrt_bits (Z.to_nat (Z.log2 n) + 1) n 0.

Definition speed_val : list Z :=
  0 :: map (fun x => icbrt (2 ^ (Z.of_nat x * 5))) (seq 0 20).

Definition speed_gfx : list string := [
  "\                    ";
  ".\                   ";
  "..\                  ";
  "...\                 ";
  "...:\                ";
  "...::\               ";
  "...:::\              ";
  "...:::+|             ";
  "...:::++|            ";
  "...:::+++|           ";
  "...:::+++#|          ";
  "...:::+++##|         ";
  "...:::+++###|        ";
  "...:::+++###%|       ";
  "...:::+++###%%/      ";
  "...:::+++###%%%/     ";
  "...:::+++###%%%//    ";
  "...:::+++###%%%///   ";
  "...:::+++###%%%////  ";
  "...:::+++###%%%///// ";
  "...:::+++###%%%//////"
].

(** The loop of [graphic_speed] over the indices [range] still to visit; it
    yields the index of the glyph returned from inside the loop, if any. *)
Fixpoint graphic_loop (val : list Z) (speed : Z) (range : list nat) : option nat :=
  match range with
  | [] => None
  | i :: range' =>
      let low := default 0 (val !! i) in
      let high := default 0 (val !! (i + 1)%nat) in
      if high <? speed then graphic_loop val speed range'
      else if speed - low <? high - speed then Some i
      else Some (i + 1)%nat
  end.

(** Index into [speed_gfx] of the glyph [graphic_speed] returns. *)
Definition graphic_index (speed : option Z) : nat :=
  let speed := default 0 speed in
  match graphic_loop speed_val speed (seq 0 (length speed_val - 1)) with
  | Some i => i
  | None => (length speed_gfx - 1)%nat
  end.

Definition graphic_speed (speed : option Z) : string :=
  default "" (speed_gfx !! graphic_index speed).

(** ** The polls of do_simple *)

(** What [do_simple] meets at one poll: the value [feed()] returns and the
    value [time.time()] returns in [update] when a reading is recorded. *)
Record poll : Type := mkPoll {
  fed : option Z;
  clock : Q
}.

(** How an observed run stands: [Stopped] when [feed()] returned [None] and
    [do_simple] returned, [Polling] when the polls observed are used up and
    the loop sleeps before the next one. *)
Inductive run : Set :=
| Stopped
| Polling.

(** ** NetworkTap and parse_args *)

(** A [NetworkTap]; its [feed] is [network_feed(interface, ftype)]. *)
Record NetworkTap : Type := mkNetworkTap {
  ftype : string;
  interface : string
}.

(** [NetworkTap.description()] *)
Definition description (self : NetworkTap) : string :=
  ftype self +:+ ": " +:+ interface self.

(** What [parse_args] raises: [ArgumentError], and [NameError] where it
    names [FileTap], which the module does not define. *)
Inductive args_exn : Set :=
| ArgumentError
| NameError.

Inductive parsed (A : Type) : Type :=
| Parsed (a : A)
| Failed (e : args_exn).

Arguments Parsed {A} a.
Arguments Failed {A} e.

(** [op in (...)] *)
Definition in_tuple (op : string) (t : list string) : bool :=
  existsb (String.eqb op) t.

(** [op[n:]] *)
Fixpoint str_from (n : nat) (op : string) : string :=
  match n with
  | O => op
  | S n' =>
      match op with
      | EmptyString => EmptyString
      | String _ op' => str_from n' op'
      end
  end.

(** [push_tap(tap, taps)] *)
Definition push_tap (tap : option NetworkTap) (taps : list NetworkTap)
  : list NetworkTap :=
  match tap with
  | None => taps
  | Some t => taps ++ [t]
  end.

Definition help_options : list string := ["-h"; "--help"].

Definition two_part_options : list string :=
  ["-i"; "-r"; "-rx"; "-t"; "-tx"; "-f"; "-k"; "-m"; "-n"].

(** The [while i < len(args)] loop of [parse_args].  [n] counts the
    iterations left: the index grows by one at each and the length of [args]
    never changes, so [len(args) - i] is their exact number.  [args[i+1] =
    op + args[i+1]] is the update in place; its [IndexError] is turned into
    [ArgumentError]. *)
Fixpoint parse_loop (n : nat) (args : list string) (i : nat)
    (tap : option NetworkTap) (taps : list NetworkTap)
  : parsed (list (list NetworkTap)) :=
  match n, args !! i with
  | S n', Some op =>
      if in_tuple op help_options then Failed ArgumentError
      else if in_tuple op two_part_options then
        if negb (String.eqb op "-f") then
          match args !! (i + 1)%nat with
          | None => Failed ArgumentError
          | Some next =>
              parse_loop n' (<[(i + 1)%nat := op +:+ next]> args) (i + 1)
                None (push_tap tap taps)
          end
        else parse_loop n' args (i + 1) None (push_tap tap taps)
      else if String.prefix "-rx" op then
        parse_loop n' args (i + 1)
          (Some (mkNetworkTap "RX" (str_from 3 op))) (push_tap tap taps)
      else if String.prefix "-r" op then
        parse_loop n' args (i + 1)
          (Some (mkNetworkTap "RX" (str_from 2 op))) (push_tap tap taps)
      else if String.prefix "-tx" op then
        parse_loop n' args (i + 1)
          (Some (mkNetworkTap "TX" (str_from 3 op))) (push_tap tap taps)
      else if String.prefix "-t" op then
        parse_loop n' args (i + 1)
          (Some (mkNetworkTap "TX" (str_from 2 op))) (push_tap tap taps)
      else match tap with
           | None => Failed NameError
           | Some _ => Failed ArgumentError
           end
  | _, _ => Parsed [push_tap tap taps]
  end.

(** [parse_args()], [args] being [sys.argv[1:]]. *)
Definition parse_args (args : list string)
  : parsed (list (list NetworkTap)) :=
  parse_loop (length args) args 0 None [].

(** The argument that names a tap unambiguously, for the round trip. *)
Definition tap_argument (tap : NetworkTap) : string :=
  (if String.eqb (ftype tap) "RX" then "-rx" else "-tx") +:+ interface tap.

(** ** Floats in double precision *)

Module Binary64.

(** A [float]: a finite double, given by the rational it denotes, an
    infinity or a NaN.  The sign of a zero is not kept: no operation used
    here tells [-0.0] from [0.0]. *)
Inductive float : Type :=
| Finite (x : Q)
| Infinite (negative : bool)
| NaN.

Definition pow2 (k : Z) : Q := (2 ^ k)%Q.

(** [floor(log2 x)] for [x > 0]. *)
Definition ilog2 (x : Q) : Z :=
  let k := Z.log2 (Qnum x) - Z.log2 (Z.pos (Qden x)) in
  if Qle_bool (pow2 k) x then k else k - 1.

(** The exponent of the last bit of the double nearest to [x]: 53 bits of
    precision, subnormal numbers from [2^-1074] on. *)
Definition ulp_exp (x : Q) : Z := Z.max (ilog2 (Qabs x) - 52) (-1074).

(** Rounding to the nearest double, ties to the even significand, before
    overflow is looked at. *)
Definition round64 (x : Q) : Q :=
  let e := ulp_exp x in
  Qred (inject_Z (round_half_even (x / pow2 e)) * pow2 e).

(** The float an operation returns when its exact result is [x]. *)
Definition fl (x : Q) : float :=
  let r := round64 x in
  if Qle_bool (pow2 1024) (Qabs r) then Infinite (negb (Qle_bool 0 r))
  else Finite r.

Definition is_neg (x : Q) : bool := negb (Qle_bool 0 x).

(** [a + b] *)
Definition fadd (a b : float) : float :=
  match a, b with
  | Finite x, Finite y => fl (x + y)
  | Finite _, Infinite s => Infinite s
  | Infinite s, Finite _ => Infinite s
  | Infinite s, Infinite s' => if Bool.eqb s s' then Infinite s else NaN
  | _, _ => NaN
  end.

(** [a - b] *)
Definition fsub (a b : float) : float :=
  match a, b with
  | Finite x, Finite y => fl (x - y)
  | Finite _, Infinite s => Infinite (negb s)
  | Infinite s, Finite _ => Infinite s
  | Infinite s, Infinite s' => if Bool.eqb s s' then NaN else Infinite s
  | _, _ => NaN
  end.

(** [a * b] *)
Definition fmul (a b : float) : float :=
  match a, b with
  | Finite x, Finite y => fl (x * y)
  | Finite x, Infinite s | Infinite s, Finite x =>
      if Qeq_bool x 0 then NaN else Infinite (xorb s (is_neg x))
  | Infinite s, Infinite s' => Infinite (xorb s s')
  | _, _ => NaN
  end.

(** [a / b]; a zero divisor raises. *)
Definition fdiv (a b : float) : outcome float :=
  match b with
  | Finite y =>
      if Qeq_bool y 0 then Raise ZeroDivisionError
      else match a with
           | Finite x => Return (fl (x / y))
           | Infinite s => Return (Infinite (xorb s (is_neg y)))
           | NaN => Return NaN
           end
  | Infinite _ =>
      match a with
      | Finite _ => Return (Finite 0)
      | _ => Return NaN
      end
  | NaN => Return NaN
  end.

(** [float(n)] for a [long]; too large a number raises. *)
Definition of_Z (n : Z) : outcome float :=
  match fl (inject_Z n) with
  | Finite x => Return (Finite x)
  | _ => Raise OverflowError
  end.

End Binary64.

(** ** The computations with floats *)

(** [delta], [delta_to_speed], [speed], [curve], [readable_speed], [show]
    and [do_simple] once more, the floats now being doubles: every operation
    rounds. *)
Module Float.

Import Binary64.

(** A number: an [int] or [long], or a [float]. *)
Inductive num : Type :=
| Int (n : Z)
| Flt (a : float).

(** [a <= 0] *)
Definition le0 (a : num) : bool :=
  match a with
  | Int n => n <=? 0
  | Flt (Finite x) => Qle_bool x 0
  | Flt (Infinite s) => s
  | Flt NaN => false
  end.

(** [a * 1000] *)
Definition times1000 (a : num) : num :=
  match a with
  | Int n => Int (n * 1000)
  | Flt x => Flt (fmul x (Finite 1000))
  end.

(** [long(a)]: a float is truncated toward zero. *)
Definition long (a : num) : outcome Z :=
  match a with
  | Int n => Return n
  | Flt (Finite x) => Return (long x)
  | Flt (Infinite _) => Raise OverflowError
  | Flt NaN => Raise ValueError
  end.

(** [delta(readings, skip)]: the timestamps are floats. *)
Definition delta (self : Speedometer) (readings skip : Z)
  : outcome (option (float * Z)) :=
  assert (0 <=? readings) ;;
  assert (readings <=? maxlog self) ;;
  assert (0 <=? skip) ;;
  (if 0 <? skip then assert (0 <? readings) else Return tt) ;;
  let n := Z.of_nat (length (log self)) in
  if n - 1 <? skip then Return None
  else
    current ← py_index (log self) (-1 - skip);
    target ← (if readings =? 0 then Return (start self)
               else if readings + skip <? n
                    then r ← py_index (log self) (- (readings + skip + 1));
                         Return (Some r)
                    else Return None);
    match target with
    | None => Return None
    | Some tg =>
        if reading_eqb tg current then Return None
        else
          let byte_increase := current.2 - tg.2 in
          let time_passed := fsub (Finite current.1) (Finite tg.1) in
          Return (Some (time_passed, byte_increase))
    end.

(** [delta_to_speed(delta)] *)
Definition delta_to_speed (d : num * num) : outcome Z :=
  let '(time_passed, byte_increase) := d in
  if le0 time_passed then Return 0
  else
    ms ← long (times1000 time_passed);
    if ms =? 0 then Return 0
    else
      b ← long (times1000 byte_increase);
      Return (b / ms).

(** [speed(readings, skip)] *)
Definition speed (self : Speedometer) (readings skip : Z)
  : outcome (option Z) :=
  d ← delta self readings skip;
  match d with
  | Some (t, b) => v ← delta_to_speed (Flt t, Int b); Return (Some v)
  | None => Return None
  end.

(** The loop of [curve]; [float(b)] comes first, then the product, then the
    division. *)
Fixpoint curve_loop (spd : Speedometer) (val : list Z) (i : Z)
    (wtot : Z) (ws : float) : outcome (Z * float) :=
  match val with
  | [] => Return (wtot, ws)
  | v :: val' =>
      d ← delta spd 1 i;
      match d with
      | None => Return (wtot, ws)
      | Some (t, b) =>
          fb ← of_Z b;
          q ← fdiv (fmul fb (Finite (inject_Z v))) t;
          curve_loop spd val' (i + 1) (wtot + v) (fadd ws q)
      end
  end.

Definition curve (spd : Speedometer) : outcome Z :=
  '(wtot, ws) ← curve_loop spd curve_val 0 0 (Finite 0);
  delta_to_speed (Int wtot, Flt ws).

(** ["%<width>.<prec>f" % a] *)
Definition fmt_float (width prec : nat) (a : float) : string :=
  match a with
  | Finite x => fmt_f width prec x
  | Infinite s => pad_left " "%char width (if s then "-inf" else "inf")
  | NaN => pad_left " "%char width "nan"
  end.

(** The loop of [readable_speed].  [float(speed)/step] is computed for the
    two decimal formats; it is the same float both times. *)
Fixpoint readable_loop (us : list string) (speed step : Z) : outcome string :=
  match us with
  | [] => Return (fmt_d 4 (speed / (step / 1024)) +:+ " " +:+ List.last units "")
  | u :: us' =>
      let rest :=
        if speed / step <? 1024
        then Return (fmt_d 4 (speed / step) +:+ " " +:+ u)
        else readable_loop us' speed (step * 1024) in
      if 1 <? step then
        fs ← of_Z speed;
        fstep ← of_Z step;
        x ← fdiv fs fstep;
        let s2 := fmt_float 4 2 x +:+ " " in
        let s1 := fmt_float 4 1 x +:+ " " in
        if (String.length s2 <=? 5)%nat then Return (s2 +:+ u)
        else if (String.length s1 <=? 5)%nat then Return (s1 +:+ u)
        else rest
      else rest
  end.

Definition readable_speed (speed : option Z) : outcome string :=
  let speed := match speed with
               | None => 0
               | Some v => if v <? 0 then 0 else v
               end in
  readable_loop units speed 1.

(** [show(s, c, a, out)]: the strings passed to [out], in order, when no
    [readable_speed] raises. *)
Definition show (s c a : option Z) : outcome (list string) :=
  rs ← readable_speed s;
  rc ← readable_speed c;
  ra ← readable_speed a;
  Return [ rs;
           "  c:" +:+ rc;
           "  A:" +:+ ra;
           "  (" +:+ graphic_speed s +:+ ")";
           String "010"%char "" ].

(** The [while True] loop of [do_simple] over the polls still to come, [out]
    being what was written so far. *)
Fixpoint do_simple_loop (spd : Speedometer) (polls : list poll)
    (out : list string) : outcome (run * list string) :=
  match polls with
  | [] => Return (Polling, out)
  | p :: polls' =>
      match fed p with
      | None => Return (Stopped, out)
      | Some f =>
          let spd := update spd (clock p) f in
          s ← speed spd 1 0;
          c ← curve spd;
          a ← speed spd 0 0;
          lines ← show s (Some c) a;
          do_simple_loop spd polls' (out ++ lines)
      end
  end.

(** [do_simple(feed)], without the sleeps and the keyboard interrupt. *)
Definition do_simple (polls : list poll) : outcome (run * list string) :=
  let spd := init 6 in
  match polls with
  | [] => Return (Polling, [])
  | p :: polls' =>
      match fed p with
      | None => Return (Stopped, [])
      | Some f => do_simple_loop (update spd (clock p) f) polls' []
      end
  end.

End Float.

Import Binary64.

(** ** Vocabulary of the properties *)

(** The tap an argument names by its prefix, in the order [parse_args] tries
    the prefixes. *)
Definition network_option (op : string) : option NetworkTap :=
  if String.prefix "-rx" op then Some (mkNetworkTap "RX" (str_from 3 op))
  else if String.prefix "-r" op then Some (mkNetworkTap "RX" (str_from 2 op))
  else if String.prefix "-tx" op then Some (mkNetworkTap "TX" (str_from 3 op))
  else if String.prefix "-t" op then Some (mkNetworkTap "TX" (str_from 2 op))
  else None.

(** [parse_args] continued on the arguments [l] still to read, from the
    pending [tap] and the [taps] gathered. *)
Definition parse_from (l : list string) (tap : option NetworkTap)
    (taps : list NetworkTap) : parsed (list (list NetworkTap)) :=
  parse_loop (length l) l 0 tap taps.

(** A tap as [parse_args] builds them, on a named interface. *)
Definition tap_ok (tap : NetworkTap) : Prop :=
  (ftype tap = "RX" \/ ftype tap = "TX") /\ interface tap <> "".

(** The poll at which [feed()] returns the counter of a reading and the
    clock reads its timestamp. *)
Definition reading_poll (r : reading) : poll :=
  {| fed := Some r.2; clock := r.1 |}.

(** What [delta] computes once its assertions hold and the log has a current
    reading. *)
Definition pick_target (self : Speedometer) (readings skip : Z)
  : option reading :=
  if readings =? 0 then start self
  else if readings + skip <? Z.of_nat (length (log self))
       then log self !! (length (log self) - Z.to_nat (readings + skip + 1))%nat
       else None.

Definition delta_of (tg : option reading) (current : reading)
  : option (Q * Z) :=
  match tg with
  | None => None
  | Some tg =>
      if reading_eqb tg current then None
      else Some ((current.1 - tg.1)%Q, current.2 - tg.2)
  end.

(** Readings with non-decreasing counters. *)
Definition counter_le (a b : reading) : Prop := a.2 <= b.2.

(** Readings with strictly increasing timestamps. *)
Definition time_lt (a b : reading) : Prop := (a.1 < b.1)%Q.

(** The single-step deltas from [skip = i] on: [avail] of them are
    [(t, b)], and the loop of [curve] over [n] weights stops there. *)
Definition uniform_steps (spd : Speedometer) (t : Q) (b : Z)
    (i : Z) (avail n : nat) : Prop :=
  (forall k, i <= k < i + Z.of_nat avail ->
     exists tk, Float.delta spd 1 k = Return (Some (Finite tk, b)) /\
                (tk == t)%Q) /\
  ((avail < n)%nat -> Float.delta spd 1 (i + Z.of_nat avail) = Return None) /\
  (avail <= n)%nat.

(** The largest relative error of one rounding. *)
Definition ulp : Q := pow2 (-53).

(** [a ^ n], the factor by which [n] roundings may have moved a result. *)
Fixpoint drift (a : Q) (n : nat) : Q :=
  match n with
  | O => 1
  | S n' => drift a n' * a
  end.

(** Readings whose timestamps are at least [2^-20] seconds apart. *)
Definition tick_lt (a b : reading) : Prop := (a.1 + pow2 (-20) <= b.1)%Q.

(** A reading of a clock between 0 and [2^40] seconds and of a counter below
    [2^64]. *)
Definition in_range (r : reading) : Prop :=
  (0 <= r.1)%Q /\ (r.1 <= pow2 40)%Q /\ 0 <= r.2 < 2 ^ 64.

(** The readings of a run: the clock advances, the counter does not go
    down, and both stay in range. *)
Definition ticking (samples : list reading) : Prop :=
  Sorted tick_lt samples /\ Sorted counter_le samples /\
  Forall in_range samples.

(** Sum of the weights. *)
Definition total (val : list Z) : Z := foldr Z.add 0 val.

(** [k] indexes a threshold of [val] closest to [speed], the highest such
    index when two thresholds are equally close. *)
Definition closest (val : list Z) (speed : Z) (k : nat) : Prop :=
  exists vk, val !! k = Some vk /\
    forall j vj, val !! j = Some vj ->
      Z.abs (speed - vk) <= Z.abs (speed - vj) /\
      (Z.abs (speed - vk) = Z.abs (speed - vj) -> (j <= k)%nat).

(** Sessions used as concrete inputs below. *)

(** The end-to-end scenario: readings at [t = 0, 1, 2]. *)
Definition scenario : Speedometer :=
  session 5 [(0%Q, 0); (1%Q, 1000); (2%Q, 3000)].

(** Seven readings [step_t] seconds and [step_b] bytes apart, in the log of
    [do_simple] ([maxlog = 6]). *)
Definition steady (step_t : Q) (step_b : Z) : Speedometer :=
  session 6
    (map (fun k => ((inject_Z (Z.of_nat k) * step_t)%Q, Z.of_nat k * step_b))
         (seq 0 7)).

(** Spec-side reading of the rate of a delta: the quotient of the two
    quantities, truncated toward zero. *)
Definition truncated_rate (d : Q * Q) : Z :=
  long ((d.2 * 1000) / (d.1 * 1000))%Q.

(** * Properties *)

(** ** The error monad *)

Lemma bind_Return {A B : Type} (a : A) (k : A -> outcome B) :
  Return a ≫= k = k a.
Proof. reflexivity. Qed.


(** ** [long] *)

Lemma long_nonneg (x : Q) : (0 <= x)%Q -> long x = Qfloor x.
Proof.
  intros Hx. unfold long.
  destruct (Qle_bool 0 x) eqn:E; [reflexivity|].
  apply Qle_bool_iff in Hx. congruence.
Qed.

Lemma long_inject_Z (z : Z) : long (inject_Z z) = z.
Proof.
  unfold long. destruct (Qle_bool 0 (inject_Z z)).
  - apply Qfloor_Z.
  - apply Qceiling_Z.
Qed.

Lemma long_ge_0 (x : Q) : (0 <= x)%Q -> 0 <= long x.
Proof.
  intros Hx. rewrite long_nonneg by exact Hx.
  change 0 with (Qfloor 0). apply Qfloor_resp_le, Hx.
Qed.

Lemma Qfloor_div_Z (a m : Z) :
  0 < m -> Qfloor (inject_Z a / inject_Z m) = a / m.
Proof.
  intros Hm. destruct m as [|p|p]; try lia.
  unfold Qfloor, Qdiv, Qinv, Qmult, inject_Z; simpl.
  rewrite Z.mul_1_r. reflexivity.
Qed.

(** ** [delta_to_speed] *)

Lemma long_ms_pos (t : Q) : (0 < t)%Q -> 0 <= long (t * 1000).
Proof.
  intros Ht. apply long_ge_0.
  apply Qmult_le_0_compat; [apply Qlt_le_weak, Ht | discriminate].
Qed.

Lemma delta_to_speed_nonneg (t b : Q) :
  (0 <= b)%Q -> 0 <= delta_to_speed (t, b).
Proof.
  intros Hb. unfold delta_to_speed.
  destruct (Qle_bool t 0) eqn:E; [lia|].
  destruct (long (t * 1000) =? 0) eqn:E0; [lia|].
  apply Z.eqb_neq in E0.
  assert (0 < t)%Q as Ht.
  { apply Qnot_le_lt. intros H. apply Qle_bool_iff in H. congruence. }
  pose proof (long_ms_pos t Ht).
  apply Z.div_pos; [|lia].
  apply long_ge_0, Qmult_le_0_compat; [exact Hb | discriminate].
Qed.

(** ** The log of a session *)

Lemma py_slice_from_suffix {A : Type} (l : list A) (k : Z) :
  py_slice_from l k `suffix_of` l.
Proof. unfold py_slice_from. apply suffix_drop. Qed.

(** [l[-M:]] keeps the last [M] elements. *)
Lemma py_slice_from_last {A : Type} (l : list A) (M : Z) :
  0 < M -> py_slice_from l (- M) = drop (length l - Z.to_nat M) l.
Proof.
  intros HM. unfold py_slice_from.
  destruct (- M <? 0) eqn:E; [|apply Z.ltb_ge in E; lia].
  f_equal. lia.
Qed.

Lemma record_all_snoc (s : Speedometer) (l : list reading) (r : reading) :
  record_all s (l ++ [r]) = update (record_all s l) r.1 r.2.
Proof. unfold record_all. rewrite foldl_snoc. reflexivity. Qed.

Lemma maxlog_record_all (s : Speedometer) (l : list reading) :
  maxlog (record_all s l) = maxlog s.
Proof.
  induction l as [|r l IH] using rev_ind; [reflexivity|].
  rewrite record_all_snoc. exact IH.
Qed.

Lemma start_update (s : Speedometer) (t : Q) (bytes : Z) :
  start (update s t bytes) =
  match start s with Some r0 => Some r0 | None => Some (t, bytes) end.
Proof. unfold update; simpl. destruct (start s); reflexivity. Qed.

Lemma start_record_all (s : Speedometer) (l : list reading) :
  start (record_all s l) =
  match start s with Some r0 => Some r0 | None => head l end.
Proof.
  revert s. induction l as [|[t b] l IH]; intros s.
  - simpl. destruct (start s); reflexivity.
  - change (record_all s ((t, b) :: l)) with (record_all (update s t b) l).
    rewrite IH, start_update. destruct (start s); reflexivity.
Qed.

Lemma start_session (m : Z) (l : list reading) :
  start (session m l) = head l.
Proof. unfold session. rewrite start_record_all. reflexivity. Qed.

Lemma log_record_all_suffix (s : Speedometer) (hist l : list reading) :
  log s `suffix_of` hist -> log (record_all s l) `suffix_of` hist ++ l.
Proof.
  revert hist. induction l as [|[t b] l IH] using rev_ind; intros hist Hs.
  - rewrite app_nil_r. exact Hs.
  - rewrite record_all_snoc, app_assoc. unfold update; simpl.
    etrans; [apply py_slice_from_suffix|].
    apply suffix_app, IH, Hs.
Qed.

Lemma log_session_suffix (m : Z) (l : list reading) :
  log (session m l) `suffix_of` l.
Proof. apply (log_record_all_suffix (init m) [] l). reflexivity. Qed.

(** The log is the last [maxlog + 1] readings of the session. *)
Lemma log_session (m : Z) (l : list reading) :
  0 <= m -> log (session m l) = drop (length l - Z.to_nat (m + 1)) l.
Proof.
  intros Hm. induction l as [|[t b] l IH] using rev_ind; [reflexivity|].
  unfold session in *. rewrite record_all_snoc. unfold update; simpl.
  rewrite maxlog_record_all; simpl.
  rewrite py_slice_from_last by lia. rewrite IH.
  set (M := Z.to_nat (m + 1)). assert (1 <= M)%nat by lia.
  rewrite !length_app, length_drop; simpl.
  destruct (decide (length l < M)%nat) as [Hlt|Hge].
  - replace (length l - M)%nat with 0%nat by lia.
    replace (length l - 0 + 1 - M)%nat with 0%nat by lia.
    replace (length l + 1 - M)%nat with 0%nat by lia. reflexivity.
  - replace (length l - (length l - M) + 1 - M)%nat with 1%nat by lia.
    rewrite drop_app_le by (rewrite length_drop; lia).
    rewrite drop_drop.
    rewrite drop_app_le by lia.
    do 2 f_equal. lia.
Qed.

Lemma length_log_session (m : Z) (l : list reading) :
  0 <= m -> length (log (session m l)) = (length l `min` Z.to_nat (m + 1))%nat.
Proof. intros Hm. rewrite log_session, length_drop by exact Hm. lia. Qed.

Lemma last_log_session (m : Z) (l : list reading) :
  0 <= m -> last (log (session m l)) = last l.
Proof.
  intros Hm. rewrite log_session by exact Hm.
  rewrite !last_lookup, lookup_drop, length_drop.
  destruct (decide (length l = 0)%nat) as [H0|H0].
  - apply length_zero_iff_nil in H0. subst l. reflexivity.
  - f_equal. lia.
Qed.

(** ** [delta] *)

Lemma py_index_from_end {A : Type} (l : list A) (k : Z) :
  0 < k <= Z.of_nat (length l) ->
  exists x, py_index l (- k) = Return x /\
            l !! (length l - Z.to_nat k)%nat = Some x.
Proof.
  intros Hk. unfold py_index.
  destruct (- k <? 0) eqn:E; [|apply Z.ltb_ge in E; lia].
  destruct (- k + Z.of_nat (length l) <? 0) eqn:E1; [apply Z.ltb_lt in E1; lia|].
  destruct (Z.of_nat (length l) <=? - k + Z.of_nat (length l)) eqn:E2;
    [apply Z.leb_le in E2; lia|].
  simpl. replace (Z.to_nat (- k + Z.of_nat (length l)))
    with (length l - Z.to_nat k)%nat by lia.
  destruct (lookup_lt_is_Some_2 l (length l - Z.to_nat k)%nat) as [x Hx];
    [lia|].
  exists x. rewrite Hx. split; reflexivity.
Qed.

Lemma delta_eval (self : Speedometer) (readings skip : Z) (current : reading) :
  0 <= readings <= maxlog self -> 0 <= skip -> (0 < skip -> 0 < readings) ->
  skip < Z.of_nat (length (log self)) ->
  log self !! (length (log self) - Z.to_nat (skip + 1))%nat = Some current ->
  delta self readings skip =
  Return (delta_of (pick_target self readings skip) current).
Proof.
  intros Hr Hk Hkr Hn Hcur. unfold delta, assert.
  destruct (Z.leb_spec 0 readings); [|lia].
  destruct (Z.leb_spec readings (maxlog self)); [|lia].
  destruct (Z.leb_spec 0 skip); [|lia].
  rewrite !bind_Return.
  assert ((if 0 <? skip
           then if 0 <? readings then Return () else Raise AssertionError
           else Return ()) = Return ()) as ->.
  { destruct (Z.ltb_spec 0 skip); [|reflexivity].
    destruct (Z.ltb_spec 0 readings); [reflexivity|lia]. }
  rewrite bind_Return.
  destruct (Z.ltb_spec (Z.of_nat (length (log self)) - 1) skip); [lia|].
  replace (-1 - skip) with (- (skip + 1)) by lia.
  destruct (py_index_from_end (log self) (skip + 1)) as (x & -> & Hx); [lia|].
  rewrite bind_Return.
  assert (x = current) as -> by congruence.
  assert (forall tg : option reading,
            match tg with
            | Some tg =>
                if reading_eqb tg current then Return None
                else Return (Some ((current.1 - tg.1)%Q, current.2 - tg.2))
            | None => Return None
            end = Return (delta_of tg current)) as Hfin.
  { intros [tg|]; simpl; [destruct (reading_eqb tg current)|]; reflexivity. }
  unfold pick_target.
  destruct (readings =? 0); [rewrite bind_Return; apply Hfin|].
  destruct (Z.ltb_spec (readings + skip) (Z.of_nat (length (log self))));
    [|reflexivity].
  destruct (py_index_from_end (log self) (readings + skip + 1))
    as (y & -> & ->); [lia|].
  rewrite !bind_Return. apply (Hfin (Some y)).
Qed.

Lemma delta_short (self : Speedometer) (readings skip : Z) :
  0 <= readings <= maxlog self -> 0 <= skip -> (0 < skip -> 0 < readings) ->
  Z.of_nat (length (log self)) <= skip ->
  delta self readings skip = Return None.
Proof.
  intros Hr Hk Hkr Hn. unfold delta, assert.
  destruct (Z.leb_spec 0 readings); [|lia].
  destruct (Z.leb_spec readings (maxlog self)); [|lia].
  destruct (Z.leb_spec 0 skip); [|lia].
  rewrite !bind_Return.
  destruct (Z.ltb_spec 0 skip).
  - destruct (Z.ltb_spec 0 readings); [|lia]. rewrite bind_Return.
    destruct (Z.ltb_spec (Z.of_nat (length (log self)) - 1) skip);
      [reflexivity|lia].
  - rewrite bind_Return.
    destruct (Z.ltb_spec (Z.of_nat (length (log self)) - 1) skip);
      [reflexivity|lia].
Qed.

(** Invalid arguments make the first failing [assert] raise. *)
Lemma delta_rejects (self : Speedometer) (readings skip : Z) :
  readings < 0 \/ maxlog self < readings \/ skip < 0 \/
  (0 < skip /\ readings = 0) ->
  delta self readings skip = Raise AssertionError.
Proof.
  intros H. unfold delta, assert.
  destruct (Z.leb_spec 0 readings); [|reflexivity].
  destruct (Z.leb_spec readings (maxlog self)); [|reflexivity].
  destruct (Z.leb_spec 0 skip); [|reflexivity].
  rewrite !bind_Return.
  destruct (Z.ltb_spec 0 skip); [|lia].
  destruct (Z.ltb_spec 0 readings); [lia|reflexivity].
Qed.

(** [delta] never raises anything but [AssertionError], and does so only on
    invalid arguments. *)
Lemma delta_cases (self : Speedometer) (readings skip : Z) :
  (delta self readings skip = Raise AssertionError /\
   (readings < 0 \/ maxlog self < readings \/ skip < 0 \/
    (0 < skip /\ readings = 0))) \/
  (delta self readings skip = Return None /\
   0 <= readings <= maxlog self /\
   Z.of_nat (length (log self)) <= skip) \/
  (exists current,
     log self !! (length (log self) - Z.to_nat (skip + 1))%nat = Some current /\
     0 <= readings <= maxlog self /\
     0 <= skip < Z.of_nat (length (log self)) /\
     (readings = 0 -> skip = 0) /\
     delta self readings skip =
     Return (delta_of (pick_target self readings skip) current)).
Proof.
  destruct (decide (readings < 0 \/ maxlog self < readings \/ skip < 0 \/
                    (0 < skip /\ readings = 0))) as [Hbad|Hok].
  { left. split; [apply delta_rejects|]; exact Hbad. }
  right.
  destruct (decide (Z.of_nat (length (log self)) <= skip)) as [Hshort|Hlong].
  { left. split; [apply delta_short|]; lia. }
  right.
  destruct (lookup_lt_is_Some_2 (log self)
              (length (log self) - Z.to_nat (skip + 1))%nat) as [cur Hcur];
    [lia|].
  exists cur. repeat split; try lia; [exact Hcur|].
  apply delta_eval; try lia. exact Hcur.
Qed.

Lemma reading_eqb_refl (r : reading) : reading_eqb r r = true.
Proof.
  unfold reading_eqb. rewrite Z.eqb_refl, andb_true_r.
  apply Qeq_bool_iff. reflexivity.
Qed.

Lemma reading_eqb_spec (a b : reading) :
  reading_eqb a b = true <-> (a.1 == b.1)%Q /\ a.2 = b.2.
Proof.
  unfold reading_eqb. rewrite andb_true_iff, Qeq_bool_iff, Z.eqb_eq.
  reflexivity.
Qed.

Lemma delta_of_Some (tg : option reading) (cur : reading) (t : Q) (b : Z) :
  delta_of tg cur = Some (t, b) ->
  exists tg0, tg = Some tg0 /\ reading_eqb tg0 cur = false /\
              t = (cur.1 - tg0.1)%Q /\ b = cur.2 - tg0.2.
Proof.
  unfold delta_of. destruct tg as [tg0|]; [|discriminate].
  destruct (reading_eqb tg0 cur) eqn:E; [discriminate|].
  intros [= <- <-]. exists tg0. repeat split. exact E.
Qed.

(** A delta of a session is taken between two readings of the session, the
    target recorded strictly before the current one. *)
Lemma delta_session_inv (m : Z) (samples : list reading)
    (readings skip : Z) (t : Q) (b : Z) :
  delta (session m samples) readings skip = Return (Some (t, b)) ->
  exists (i j : nat) (tg cur : reading),
    (i < j)%nat /\ samples !! i = Some tg /\ samples !! j = Some cur /\
    reading_eqb tg cur = false /\
    t = (cur.1 - tg.1)%Q /\ b = cur.2 - tg.2.
Proof.
  intros Hd. set (s := session m samples) in *.
  pose proof (log_session_suffix m samples) as Hsuf. fold s in Hsuf.
  pose proof (suffix_length _ _ Hsuf) as Hlen.
  destruct (delta_cases s readings skip)
    as [[H _]|[[H _]|(cur & Hcur & Hr & Hk & Hr0 & H)]];
    rewrite H in Hd; try discriminate.
  injection Hd as Hd.
  apply delta_of_Some in Hd as (tg & Htg & Hne & -> & ->).
  apply suffix_lookup_Some with (l2 := samples) in Hcur; [|exact Hsuf].
  unfold pick_target in Htg.
  destruct (Z.eqb_spec readings 0) as [Hz|Hnz].
  - unfold s in Htg. rewrite start_session, head_lookup in Htg.
    eexists 0%nat, _, tg, cur. repeat split; try eassumption.
    specialize (Hr0 Hz). subst skip.
    match goal with |- (0 < ?j)%nat => destruct (decide (j = 0)%nat) as [E|E] end;
      [|lia].
    rewrite E in Hcur. rewrite Htg in Hcur. injection Hcur as ->.
    rewrite reading_eqb_refl in Hne. discriminate.
  - destruct (Z.ltb_spec (readings + skip) (Z.of_nat (length (log s))));
      [|discriminate].
    apply suffix_lookup_Some with (l2 := samples) in Htg; [|exact Hsuf].
    eexists _, _, tg, cur. repeat split; try eassumption. lia.
Qed.

(** ** Ordered sessions *)

Section sorted_lookup.
Context {A : Type} (R : relation A) `{!Transitive R}.

Lemma StronglySorted_lookup_lt (l : list A) (i j : nat) (x y : A) :
  StronglySorted R l -> (i < j)%nat ->
  l !! i = Some x -> l !! j = Some y -> R x y.
Proof.
  intros Hs. revert i j. induction Hs as [|a l Hs IH Hall]; intros i j Hij Hi Hj.
  - discriminate.
  - destruct j as [|j]; [lia|]. simpl in Hj. destruct i as [|i].
    + injection Hi as <-. rewrite Forall_forall in Hall.
      apply Hall. eapply list_elem_of_lookup_2, Hj.
    + simpl in Hi. apply (IH i j); [lia|assumption..].
Qed.

Lemma Sorted_lookup_lt (l : list A) (i j : nat) (x y : A) :
  Sorted R l -> (i < j)%nat -> l !! i = Some x -> l !! j = Some y -> R x y.
Proof.
  intros Hs. apply StronglySorted_lookup_lt.
  by apply Sorted_StronglySorted.
Qed.
End sorted_lookup.

#[local] Instance counter_le_trans : Transitive counter_le.
Proof. unfold counter_le. intros a b c. lia. Qed.

#[local] Instance time_lt_trans : Transitive time_lt.
Proof. unfold time_lt. intros a b c. apply Qlt_trans. Qed.

(** ** [curve] *)


Lemma delta_single_step_returns (self : Speedometer) (skip : Z) :
  1 <= maxlog self -> 0 <= skip ->
  exists d, delta self 1 skip = Return d.
Proof.
  intros Hm Hk.
  destruct (delta_cases self 1 skip)
    as [[_ H]|[[H _]|(cur & _ & _ & _ & _ & H)]]; [lia|eauto..].
Qed.



(** ** Deltas of a session *)

Lemma delta_from_start (m : Z) (samples : list reading)
    (first newest : reading) :
  0 <= m -> head samples = Some first -> last samples = Some newest ->
  delta (session m samples) 0 0 = Return (delta_of (Some first) newest).
Proof.
  intros Hm Hfirst Hnewest.
  assert (samples <> []) as Hne by (intros ->; discriminate).
  assert (0 < length samples)%nat as Hlen
    by (destruct samples; [congruence | simpl; lia]).
  pose proof (length_log_session m samples Hm) as Hlog.
  rewrite (delta_eval _ 0 0 newest).
  - unfold pick_target. simpl. rewrite start_session, Hfirst. reflexivity.
  - unfold session. rewrite maxlog_record_all. simpl. lia.
  - lia.
  - lia.
  - lia.
  - rewrite <- Hnewest, <- (last_log_session m samples Hm), last_lookup.
    f_equal. lia.
Qed.


(** A capacity is a number of readings: below 0 the slice [log[-(maxlog+1):]]
    is no longer the tail of the log.  With [maxlog = -1] it is [log[0:]], the
    whole log, and [delta] rejects every argument. *)
Remark log_without_capacity :
  let s := session (-1) [(0%Q, 0); (1%Q, 1000); (2%Q, 3000)] in
  length (log s) = 3%nat /\ delta s 0 0 = Raise AssertionError.
Proof. split; reflexivity. Qed.

(** ** Formatting *)

Lemma length_append (s1 s2 : string) :
  String.length (s1 +:+ s2) = (String.length s1 + String.length s2)%nat.
Proof. induction s1 as [|c s1 IH]; simpl; [reflexivity|]. rewrite IH. reflexivity. Qed.

Lemma length_fill (c : ascii) (n : nat) : String.length (fill c n) = n.
Proof. induction n as [|n IH]; simpl; [reflexivity|]. rewrite IH. reflexivity. Qed.

Lemma length_pad_left (c : ascii) (width : nat) (s : string) :
  String.length (pad_left c width s) = (width `max` String.length s)%nat.
Proof. unfold pad_left. rewrite length_append, length_fill. lia. Qed.

Lemma length_pretty_N_go (x : N) (s : string) :
  (String.length s <= String.length (pretty_N_go x s))%nat.
Proof.
  revert s. induction (N.lt_wf_0 x) as [x _ IH]; intros s.
  destruct (decide (x = 0)%N) as [->|Hx]; [rewrite pretty_N_go_0; lia|].
  rewrite pretty_N_go_step by lia.
  etrans; [|apply IH, N.div_lt; lia]. simpl. lia.
Qed.

(** A number of at least 100 prints with three digits or more. *)
Lemma length_pretty_100 (n : Z) :
  100 <= n -> (3 <= String.length (pretty n))%nat.
Proof.
  intros Hn. destruct n as [|p|p]; try lia.
  change (pretty (Z.pos p)) with (pretty (N.pos p)).
  unfold pretty, pretty_N. destruct (decide (N.pos p = 0)%N); [lia|].
  set (x := N.pos p). assert (100 <= x)%N as Hx by lia.
  assert (10 <= x `div` 10)%N by (apply N.div_le_lower_bound; lia).
  assert (1 <= (x `div` 10) `div` 10)%N by (apply N.div_le_lower_bound; lia).
  rewrite 3!pretty_N_go_step by lia.
  etrans; [|apply length_pretty_N_go]. simpl. lia.
Qed.

Lemma round_half_even_ge_floor (x : Q) :
  Qnum x / Z.pos (Qden x) <= round_half_even x.
Proof.
  unfold round_half_even.
  repeat match goal with |- context [if ?c then _ else _] => destruct c end;
    lia.
Qed.

(** A value of at least 100 does not fit the five characters that
    [readable_speed] allows a decimal format. *)
Lemma length_fmt_f_100 (prec : nat) (x : Q) :
  (100 <= x)%Q -> (1 <= prec)%nat ->
  (5 <= String.length (fmt_f 4 prec x))%nat.
Proof.
  intros Hx Hp. unfold fmt_f.
  set (scale := 10 ^ Z.of_nat prec).
  assert (0 < scale) as Hscale by (apply Z.pow_pos_nonneg; lia).
  set (m := round_half_even (Qabs x * inject_Z scale)).
  assert (100 <= m / scale) as Hm.
  { apply Z.div_le_lower_bound; [lia|].
    etrans; [|apply round_half_even_ge_floor].
    destruct x as [a d]. unfold Qle in Hx. cbn [Qnum Qden] in Hx.
    unfold Qabs, Qmult, inject_Z. cbn [Qnum Qden].
    rewrite Pos.mul_1_r. rewrite Z.mul_1_r in Hx.
    apply Z.div_le_lower_bound; [lia|].
    rewrite Z.abs_eq by lia.
    clear m. clearbody scale.
    apply (Z.mul_le_mono_nonneg_r _ _ scale) in Hx; [|lia].
    rewrite (Z.mul_comm scale 100), Z.mul_assoc, (Z.mul_comm (Z.pos d) 100).
    exact Hx. }
  rewrite length_pad_left, !length_append.
  pose proof (length_pretty_100 _ Hm).
  destruct (Nat.eqb_spec prec 0); [lia|].
  rewrite length_append, length_pad_left.
  simpl (String.length "."). lia.
Qed.

Lemma readable_loop_next (u : string) (us : list string) (v step : Z) :
  0 < step -> 1024 * step <= v ->
  readable_loop (u :: us) v step = readable_loop us v (step * 1024).
Proof.
  intros Hstep Hv. cbn [readable_loop].
  assert (100 <= inject_Z v / inject_Z step)%Q as Hx.
  { apply Qle_shift_div_l.
    - change 0%Q with (inject_Z 0). rewrite <- Zlt_Qlt. exact Hstep.
    - change 100%Q with (inject_Z 100).
      rewrite <- inject_Z_mult, <- Zle_Qle. lia. }
  pose proof (length_fmt_f_100 2 _ Hx) as H2.
  pose proof (length_fmt_f_100 1 _ Hx) as H1.
  rewrite !length_append. simpl (String.length " ").
  destruct (Nat.leb_spec
              (String.length (fmt_f 4 2 (inject_Z v / inject_Z step)) + 1) 5);
    [lia|].
  destruct (Nat.leb_spec
              (String.length (fmt_f 4 1 (inject_Z v / inject_Z step)) + 1) 5);
    [lia|].
  rewrite !andb_false_r.
  destruct (Z.ltb_spec (v / step) 1024) as [Hlt|]; [|reflexivity].
  assert (1024 <= v / step) by (apply Z.div_le_lower_bound; lia). lia.
Qed.

(** ** Thresholds *)

Lemma speed_val_table :
  speed_val =
  [0; 1; 3; 10; 32; 101; 322; 1024; 3250; 10321; 32768; 104031; 330280;
   1048576; 3329021; 10568983; 33554432; 106528681; 338207481; 1073741824;
   3408917801].
Proof. reflexivity. Qed.

(** Each threshold after the first is the floor of [2 ^ (5 * x / 3)]. *)
Lemma speed_val_floor_power (x : nat) (v : Z) :
  (x < 20)%nat -> speed_val !! S x = Some v ->
  0 <= v /\ v ^ 3 <= 2 ^ (5 * Z.of_nat x) < (v + 1) ^ 3.
Proof.
  intros Hx. rewrite speed_val_table.
  do 20 (destruct x as [|x];
         [intros [= <-]; split; [lia|]; split; [apply Z.leb_le | apply Z.ltb_lt];
          reflexivity|]).
  lia.
Qed.

Section closest_threshold.
Variable val : list Z.
Hypothesis val_sorted : Sorted Z.lt val.
Variable speed : Z.

Lemma val_lookup_lt (i j : nat) (vi vj : Z) :
  (i < j)%nat -> val !! i = Some vi -> val !! j = Some vj -> vi < vj.
Proof. apply (Sorted_lookup_lt Z.lt val i j vi vj val_sorted). Qed.

Lemma val_lookup_le (i j : nat) (vi vj : Z) :
  (i <= j)%nat -> val !! i = Some vi -> val !! j = Some vj -> vi <= vj.
Proof.
  intros Hij Hi Hj. destruct (decide (i = j)) as [->|Hne].
  - assert (vi = vj) by congruence. lia.
  - pose proof (val_lookup_lt i j vi vj ltac:(lia) Hi Hj). lia.
Qed.

(** The loop entered at index [i] with [cnt] indices to go, every threshold
    up to [val[i]] being below [speed] unless [i = 0]. *)
Lemma graphic_loop_closest (cnt i : nat) :
  (i + cnt + 1 = length val)%nat ->
  (i = 0%nat \/ exists v, val !! i = Some v /\ v < speed) ->
  closest val speed
    (match graphic_loop val speed (seq i cnt) with
     | Some k => k
     | None => (length val - 1)%nat
     end).
Proof.
  revert i. induction cnt as [|cnt IH]; intros i Hlen Hinv.
  - simpl. replace (length val - 1)%nat with i by lia.
    destruct (lookup_lt_is_Some_2 val i) as [vi Hvi]; [lia|].
    exists vi. split; [exact Hvi|]. intros j vj Hj.
    assert (j <= i)%nat as Hji by (apply lookup_lt_Some in Hj; lia).
    pose proof (val_lookup_le j i vj vi Hji Hj Hvi) as Hle.
    destruct Hinv as [->|(v & Hv & Hlt)].
    + assert (j = 0)%nat as -> by lia. assert (vj = vi) by congruence. lia.
    + assert (v = vi) by congruence. subst v. split; [lia|].
      intros _. exact Hji.
  - destruct (lookup_lt_is_Some_2 val i) as [low Hlow]; [lia|].
    destruct (lookup_lt_is_Some_2 val (i + 1)) as [high Hhigh]; [lia|].
    pose proof (val_lookup_lt i (i + 1) low high ltac:(lia) Hlow Hhigh) as Hlh.
    cbn [seq graphic_loop]. rewrite Hlow, Hhigh. cbn [from_option id].
    destruct (Z.ltb_spec high speed) as [Hhs|Hsh].
    { replace (S i) with (i + 1)%nat by lia.
      apply IH; [lia|]. right. exists high. split; assumption. }
    destruct (Z.ltb_spec (speed - low) (high - speed)) as [Hnear|Hfar].
    + exists low. split; [exact Hlow|]. intros j vj Hj.
      destruct (decide (j <= i)%nat) as [Hji|Hji].
      * pose proof (val_lookup_le j i vj low Hji Hj Hlow).
        destruct Hinv as [->|(v & Hv & Hlt)].
        -- assert (j = 0)%nat as -> by lia. assert (vj = low) by congruence.
           lia.
        -- assert (v = low) by congruence. subst v. split; [lia|].
           intros _. exact Hji.
      * pose proof (val_lookup_le (i + 1) j high vj ltac:(lia) Hhigh Hj).
        split; lia.
    + exists high. split; [exact Hhigh|]. intros j vj Hj.
      destruct (decide (j <= i)%nat) as [Hji|Hji].
      * pose proof (val_lookup_le j i vj low Hji Hj Hlow). split; lia.
      * pose proof (val_lookup_le (i + 1) j high vj ltac:(lia) Hhigh Hj).
        split; [lia|]. intros Heq.
        destruct (decide (j = i + 1)%nat) as [->|Hne]; [lia|].
        pose proof (val_lookup_lt (i + 1) j high vj ltac:(lia) Hhigh Hj). lia.
Qed.

End closest_threshold.

Lemma speed_val_sorted : Sorted Z.lt speed_val.
Proof. rewrite speed_val_table. repeat constructor; lia. Qed.

Lemma graphic_index_closest (speed : option Z) :
  closest speed_val (default 0 speed) (graphic_index speed).
Proof.
  unfold graphic_index.
  change (length speed_gfx - 1)%nat with (length speed_val - 1)%nat.
  apply graphic_loop_closest.
  - apply speed_val_sorted.
  - reflexivity.
  - left. reflexivity.
Qed.

(** * Properties of the float model *)

(** ** rounding to an integer *)

Lemma round_half_even_bounds (x : Q) :
  (inject_Z (round_half_even x) - (1 # 2) <= x)%Q /\
  (x <= inject_Z (round_half_even x) + (1 # 2))%Q.
Proof.
  destruct x as [n d]. unfold round_half_even. cbn [Qnum Qden].
  pose proof (Z.div_mod n (Z.pos d) ltac:(lia)) as Hn.
  pose proof (Z.mod_pos_bound n (Z.pos d) ltac:(lia)) as Hr.
  set (q := n / Z.pos d) in *. set (r := n mod Z.pos d) in *.
  unfold Qle, Qminus, Qplus, Qopp, inject_Z. cbn [Qnum Qden].
  rewrite !Pos2Z.inj_mul.
  destruct (Z.ltb_spec (2 * r) (Z.pos d)); [split; nia|].
  destruct (Z.ltb_spec (Z.pos d) (2 * r)); [split; nia|].
  destruct (Z.even q); split; nia.
Qed.

Lemma round_half_even_Z (x : Q) (z : Z) :
  (x == inject_Z z)%Q -> round_half_even x = z.
Proof.
  destruct x as [n d]. unfold Qeq, inject_Z. cbn [Qnum Qden]. intros H.
  rewrite Z.mul_1_r in H. subst n. unfold round_half_even. cbn [Qnum Qden].
  rewrite Z.div_mul, Z.mod_mul by lia.
  destruct (Z.ltb_spec (2 * 0) (Z.pos d)); [reflexivity | lia].
Qed.

Lemma round_half_even_comp (x y : Q) :
  (x == y)%Q -> round_half_even x = round_half_even y.
Proof.
  intros Hxy. pose proof (Qfloor_comp x y Hxy) as Hf.
  destruct x as [n1 d1], y as [n2 d2]. unfold Qeq in Hxy. unfold Qfloor in Hf.
  cbn [Qnum Qden] in Hxy. unfold round_half_even. cbn [Qnum Qden].
  rewrite !Z.mod_eq by lia. rewrite <- Hf.
  set (q := n1 / Z.pos d1) in *.
  assert ((2 * (n1 - Z.pos d1 * q) <? Z.pos d1) = (2 * (n2 - Z.pos d2 * q) <? Z.pos d2)) as ->.
  { apply eq_true_iff_eq. rewrite !Z.ltb_lt. split; intros; nia. }
  assert ((Z.pos d1 <? 2 * (n1 - Z.pos d1 * q)) = (Z.pos d2 <? 2 * (n2 - Z.pos d2 * q))) as ->.
  { apply eq_true_iff_eq. rewrite !Z.ltb_lt. split; intros; nia. }
  reflexivity.
Qed.

#[global] Instance round_half_even_proper : Proper (Qeq ==> eq) round_half_even.
Proof. intros x y. apply round_half_even_comp. Qed.

Lemma round_half_even_le_Z (x : Q) (z : Z) :
  (x <= inject_Z z)%Q -> round_half_even x <= z.
Proof.
  intros Hx. destruct (round_half_even_bounds x) as [Hlo _].
  assert (inject_Z (round_half_even x) < inject_Z (z + 1))%Q as H.
  { rewrite inject_Z_plus. change (inject_Z 1) with 1%Q. lra. }
  rewrite <- Zlt_Qlt in H. lia.
Qed.

Lemma round_half_even_ge_Z (x : Q) (z : Z) :
  (inject_Z z <= x)%Q -> z <= round_half_even x.
Proof.
  intros Hx. destruct (round_half_even_bounds x) as [_ Hhi].
  assert (inject_Z (z - 1) < inject_Z (round_half_even x))%Q as H.
  { assert (inject_Z (z - 1) == inject_Z z - 1)%Q as ->
      by (unfold Z.sub; rewrite inject_Z_plus; reflexivity).
    lra. }
  rewrite <- Zlt_Qlt in H. lia.
Qed.

(** ** powers of two *)

Lemma pow2_pos (k : Z) : (0 < pow2 k)%Q.
Proof. apply Qpower_0_lt. reflexivity. Qed.

Lemma pow2_add (a b : Z) : (pow2 (a + b) == pow2 a * pow2 b)%Q.
Proof. apply Qpower_plus. discriminate. Qed.

Lemma pow2_le (a b : Z) : a <= b -> (pow2 a <= pow2 b)%Q.
Proof. intros H. apply Qpower_le_compat_l; [exact H | discriminate]. Qed.

Lemma pow2_lt (a b : Z) : a < b -> (pow2 a < pow2 b)%Q.
Proof. intros H. apply Qpower_lt_compat_l; [exact H | reflexivity]. Qed.

Lemma pow2_Z (k : Z) : 0 <= k -> (pow2 k == inject_Z (2 ^ k))%Q.
Proof. intros H. symmetry. apply (Zpower_Qpower 2 k H). Qed.

Lemma pow2_sub (a b : Z) : (pow2 (a - b) == pow2 a / pow2 b)%Q.
Proof.
  pose proof (pow2_pos b).
  assert (pow2 a == pow2 (a - b) * pow2 b)%Q as ->.
  { rewrite <- pow2_add. replace (a - b + b) with a by lia. reflexivity. }
  field. lra.
Qed.

(** ** the binary logarithm *)

Lemma ilog2_spec (x : Q) :
  (0 < x)%Q -> (pow2 (ilog2 x) <= x)%Q /\ (x < pow2 (ilog2 x + 1))%Q.
Proof.
  intros Hx. unfold ilog2.
  set (k := Z.log2 (Qnum x) - Z.log2 (Z.pos (Qden x))).
  assert (pow2 (k - 1) <= x /\ x < pow2 (k + 1))%Q as [Hlo Hhi].
  { destruct x as [n d]. cbn [Qnum Qden] in k.
    assert (0 < n) as Hn by (unfold Qlt in Hx; simpl in Hx; lia).
    pose proof (Z.log2_spec n Hn) as [Hn1 Hn2].
    pose proof (Z.log2_spec (Z.pos d) ltac:(lia)) as [Hd1 Hd2].
    pose proof (Z.log2_nonneg n). pose proof (Z.log2_nonneg (Z.pos d)).
    set (a := Z.log2 n) in *. set (c := Z.log2 (Z.pos d)) in *.
    rewrite (Qmake_Qdiv n d).
    assert (0 < inject_Z (Z.pos d))%Q as Hdq
      by (change 0%Q with (inject_Z 0); rewrite <- Zlt_Qlt; lia).
    replace (Z.succ a) with (a + 1) in Hn2 by lia.
    replace (Z.succ c) with (c + 1) in Hd2 by lia.
    rewrite Zle_Qle in Hn1, Hd1. rewrite Zlt_Qlt in Hn2, Hd2.
    rewrite <- !pow2_Z in Hn1, Hd1, Hn2, Hd2 by lia.
    rename Hn2 into Hn2', Hd2 into Hd2'.
    pose proof (pow2_pos c). pose proof (pow2_pos (c + 1)).
    split.
    - apply Qle_shift_div_l; [exact Hdq|].
      replace (k - 1) with (a - (c + 1)) by lia. rewrite pow2_sub.
      apply Qle_trans with (pow2 a / pow2 (c + 1) * pow2 (c + 1))%Q.
      + apply Qmult_le_l; [apply Qlt_shift_div_l; [assumption|]; rewrite Qmult_0_l; apply pow2_pos|].
        apply Qlt_le_weak. exact Hd2'.
      + assert (pow2 a / pow2 (c + 1) * pow2 (c + 1) == pow2 a)%Q as -> by (field; lra).
        exact Hn1.
    - apply Qlt_shift_div_r; [exact Hdq|].
      replace (k + 1) with (a + 1 - c) by lia. rewrite pow2_sub.
      apply Qlt_le_trans with (pow2 (a + 1) / pow2 c * pow2 c)%Q.
      + assert (pow2 (a + 1) / pow2 c * pow2 c == pow2 (a + 1))%Q as -> by (field; lra).
        exact Hn2'.
      + apply Qmult_le_l; [apply Qlt_shift_div_l; [assumption|]; rewrite Qmult_0_l; apply pow2_pos|].
        exact Hd1. }
  destruct (Qle_bool (pow2 k) x) eqn:E.
  - apply Qle_bool_iff in E. split; assumption.
  - assert (x < pow2 k)%Q.
    { apply Qnot_le_lt. intros H. apply Qle_bool_iff in H. congruence. }
    replace (k - 1 + 1) with k by lia. split; assumption.
Qed.

Lemma ilog2_unique (x : Q) (k : Z) :
  (pow2 k <= x)%Q -> (x < pow2 (k + 1))%Q -> ilog2 x = k.
Proof.
  intros Hlo Hhi.
  assert (0 < x)%Q as Hx by (pose proof (pow2_pos k); lra).
  destruct (ilog2_spec x Hx) as [Hlo' Hhi'].
  destruct (Z.lt_trichotomy (ilog2 x) k) as [H|[H|H]]; [|exact H|].
  - pose proof (pow2_le (ilog2 x + 1) k ltac:(lia)). lra.
  - pose proof (pow2_le (k + 1) (ilog2 x) ltac:(lia)). lra.
Qed.

Lemma ilog2_lt (x : Q) (k : Z) : (0 < x)%Q -> (x < pow2 k)%Q -> ilog2 x < k.
Proof.
  intros Hx Hk. destruct (ilog2_spec x Hx) as [Hlo _].
  destruct (Z.lt_ge_cases (ilog2 x) k) as [H|H]; [exact H|].
  pose proof (pow2_le k (ilog2 x) H). lra.
Qed.

Lemma ilog2_ge (x : Q) (k : Z) : (pow2 k <= x)%Q -> k <= ilog2 x.
Proof.
  intros Hk. assert (0 < x)%Q as Hx by (pose proof (pow2_pos k); lra).
  destruct (ilog2_spec x Hx) as [_ Hhi].
  destruct (Z.le_gt_cases k (ilog2 x)) as [H|H]; [exact H|].
  pose proof (pow2_le (ilog2 x + 1) k ltac:(lia)). lra.
Qed.

Lemma ilog2_comp (x y : Q) : (0 < x)%Q -> (x == y)%Q -> ilog2 x = ilog2 y.
Proof.
  intros Hx Hxy. symmetry. destruct (ilog2_spec x Hx) as [Hlo Hhi].
  apply ilog2_unique; rewrite <- Hxy; assumption.
Qed.

(** ** rounding to a double *)

Lemma round64_unfold (x : Q) :
  (round64 x ==
   inject_Z (round_half_even (x / pow2 (ulp_exp x))) * pow2 (ulp_exp x))%Q.
Proof. unfold round64. apply Qred_correct. Qed.

Lemma round64_zero (x : Q) : (x == 0)%Q -> round64 x = 0%Q.
Proof.
  intros Hx. unfold round64. change 0%Q with (Qred 0). apply Qred_complete.
  generalize (pow2 (ulp_exp x)). intros p.
  rewrite (round_half_even_Z _ 0).
  - apply Qmult_0_l.
  - rewrite Hx. unfold Qdiv. apply Qmult_0_l.
Qed.

Lemma Qabs_pos_lt (x : Q) : ~ (x == 0)%Q -> (0 < Qabs x)%Q.
Proof.
  intros Hx. destruct (Qlt_le_dec 0 (Qabs x)) as [H|H]; [exact H|].
  pose proof (Qabs_nonneg x) as Hn. exfalso. apply Hx.
  pose proof (Qle_Qabs x) as H1. pose proof (Qle_Qabs (- x)) as H2.
  rewrite Qabs_opp in H2. lra.
Qed.

Lemma ulp_exp_comp (x y : Q) :
  ~ (x == 0)%Q -> (x == y)%Q -> ulp_exp x = ulp_exp y.
Proof.
  intros Hx Hxy. unfold ulp_exp.
  rewrite (ilog2_comp (Qabs x) (Qabs y)); [reflexivity | |].
  - apply Qabs_pos_lt, Hx.
  - rewrite Hxy. reflexivity.
Qed.

Lemma round64_comp (x y : Q) : (x == y)%Q -> round64 x = round64 y.
Proof.
  intros Hxy. destruct (Qeq_dec x 0) as [Hx|Hx].
  - rewrite (round64_zero x Hx), (round64_zero y); [reflexivity|].
    rewrite <- Hxy. exact Hx.
  - unfold round64. apply Qred_complete.
    rewrite <- (ulp_exp_comp x y Hx Hxy). generalize (ulp_exp x). intros e.
    rewrite Hxy. reflexivity.
Qed.

(** A value with a significand of at most 53 bits and an exponent in range
    is a double. *)
Lemma round64_exact (x : Q) (m e : Z) :
  (x == inject_Z m * pow2 e)%Q -> Z.abs m < 2 ^ 53 -> -1074 <= e ->
  round64 x = Qred x.
Proof.
  intros Hx Hm He. destruct (Qeq_dec x 0) as [H0|H0].
  - rewrite (round64_zero x H0). change 0%Q with (Qred 0).
    apply Qred_complete. symmetry. exact H0.
  - unfold round64. apply Qred_complete.
    set (E := ulp_exp x).
    assert (E <= e) as HE.
    { unfold E, ulp_exp.
      assert (ilog2 (Qabs x) < 53 + e); [|lia].
      apply ilog2_lt; [apply Qabs_pos_lt, H0|].
      rewrite Hx, Qabs_Qmult, pow2_add.
      rewrite (Qabs_pos (pow2 e)) by (apply Qlt_le_weak, pow2_pos).
      apply Qmult_lt_compat_r; [apply pow2_pos|].
      rewrite (pow2_Z 53) by lia.
      assert (Qabs (inject_Z m) == inject_Z (Z.abs m))%Q as -> by reflexivity.
      rewrite <- Zlt_Qlt. exact Hm. }
    pose proof (pow2_pos E) as HpE.
    assert (x / pow2 E == inject_Z (m * 2 ^ (e - E)))%Q as Hy.
    { rewrite Hx, inject_Z_mult, <- pow2_Z by lia.
      rewrite pow2_sub. field. lra. }
    rewrite (round_half_even_Z _ _ Hy), Hx.
    rewrite inject_Z_mult, <- pow2_Z by lia. rewrite pow2_sub. field. lra.
Qed.

Lemma Qred_inject_Z (z : Z) : Qred (inject_Z z) = inject_Z z.
Proof. apply Qred_identity. simpl. apply Z.gcd_1_r. Qed.

Lemma round64_nonneg (x : Q) : (0 <= x)%Q -> (0 <= round64 x)%Q.
Proof.
  intros Hx. rewrite round64_unfold.
  pose proof (pow2_pos (ulp_exp x)) as Hp.
  apply Qmult_le_0_compat; [|lra].
  change 0%Q with (inject_Z 0). rewrite <- Zle_Qle.
  apply round_half_even_ge_Z. change (inject_Z 0) with 0%Q.
  apply Qle_shift_div_l; [exact Hp | lra].
Qed.

Lemma ulp_exp_pos (x : Q) : (0 < x)%Q -> ulp_exp x = Z.max (ilog2 x - 52) (-1074).
Proof.
  intros Hx. unfold ulp_exp. rewrite (ilog2_comp (Qabs x) x); [reflexivity | |].
  - rewrite Qabs_pos; lra.
  - apply Qabs_pos. lra.
Qed.

Lemma round64_le_pow2 (x : Q) (k : Z) :
  (0 <= x)%Q -> (x <= pow2 k)%Q -> -1074 <= k -> (round64 x <= pow2 k)%Q.
Proof.
  intros H0 Hx Hk. pose proof (pow2_pos k) as Hpk.
  destruct (Qeq_dec x 0) as [Hz|Hz]; [rewrite (round64_zero x Hz); lra|].
  assert (0 < x)%Q as Hpos by (destruct (Qlt_le_dec 0 x); [assumption|]; exfalso; apply Hz; lra).
  rewrite round64_unfold. set (E := ulp_exp x).
  assert (E <= k) as HE.
  { unfold E. rewrite ulp_exp_pos by exact Hpos.
    assert (ilog2 x < k + 1); [|lia].
    apply ilog2_lt; [exact Hpos|]. pose proof (pow2_lt k (k + 1) ltac:(lia)). lra. }
  pose proof (pow2_pos E) as HpE.
  assert (round_half_even (x / pow2 E) <= 2 ^ (k - E)) as Hr.
  { apply round_half_even_le_Z. rewrite <- pow2_Z, pow2_sub by lia.
    apply Qmult_le_compat_r; [exact Hx|]. apply Qlt_le_weak, Qinv_lt_0_compat, HpE. }
  rewrite Zle_Qle, <- pow2_Z, pow2_sub in Hr by lia.
  apply Qle_trans with (pow2 k / pow2 E * pow2 E)%Q.
  - apply Qmult_le_compat_r; [exact Hr | lra].
  - assert (pow2 k / pow2 E * pow2 E == pow2 k)%Q as -> by (field; lra). lra.
Qed.

Lemma round64_ge_pow2_aux (x : Q) (k : Z) :
  (pow2 k <= x)%Q -> ulp_exp x <= k -> (pow2 k <= round64 x)%Q.
Proof.
  intros Hx HE. rewrite round64_unfold. set (E := ulp_exp x) in *.
  pose proof (pow2_pos E) as HpE.
  assert (2 ^ (k - E) <= round_half_even (x / pow2 E)) as Hr.
  { apply round_half_even_ge_Z. rewrite <- pow2_Z, pow2_sub by lia.
    apply Qmult_le_compat_r; [exact Hx|]. apply Qlt_le_weak, Qinv_lt_0_compat, HpE. }
  rewrite Zle_Qle, <- pow2_Z, pow2_sub in Hr by lia.
  apply Qle_trans with (pow2 k / pow2 E * pow2 E)%Q.
  - assert (pow2 k / pow2 E * pow2 E == pow2 k)%Q as -> by (field; lra). lra.
  - apply Qmult_le_compat_r; [exact Hr | lra].
Qed.

Lemma round64_ge_pow2 (x : Q) (k : Z) :
  (pow2 k <= x)%Q -> -1074 <= k -> (pow2 k <= round64 x)%Q.
Proof.
  intros Hx Hk. pose proof (pow2_pos k) as Hpk.
  assert (0 < x)%Q as Hpos by lra.
  destruct (Z.le_gt_cases (ulp_exp x) k) as [HE|HE].
  - apply round64_ge_pow2_aux; assumption.
  - destruct (ilog2_spec x Hpos) as [Hlo _].
    apply Qle_trans with (pow2 (ilog2 x)).
    + apply pow2_le. rewrite ulp_exp_pos in HE by exact Hpos. lia.
    + apply round64_ge_pow2_aux; [exact Hlo|].
      rewrite ulp_exp_pos in * by exact Hpos. lia.
Qed.

(** The relative error of rounding in the normal range is at most
    [2^-53]. *)
Lemma round64_error (x : Q) :
  (pow2 (-1022) <= x)%Q ->
  (x * (1 - pow2 (-53)) <= round64 x)%Q /\
  (round64 x <= x * (1 + pow2 (-53)))%Q.
Proof.
  intros Hx. pose proof (pow2_pos (-1022)) as Hmin.
  assert (0 < x)%Q as Hpos by lra.
  destruct (ilog2_spec x Hpos) as [Hlo _].
  pose proof (ilog2_ge x _ Hx) as Hj.
  assert (ulp_exp x = ilog2 x - 52) as HE
    by (rewrite ulp_exp_pos by exact Hpos; lia).
  rewrite round64_unfold, HE.
  set (j := ilog2 x) in *.
  pose proof (pow2_pos (j - 52)) as HpE.
  destruct (round_half_even_bounds (x / pow2 (j - 52))) as [B1 B2].
  set (r := inject_Z (round_half_even (x / pow2 (j - 52)))) in *.
  assert (x == x / pow2 (j - 52) * pow2 (j - 52))%Q as Hxy by (field; lra).
  set (y := (x / pow2 (j - 52))%Q) in *.
  assert (pow2 (j - 52) * (1 # 2) == pow2 j * pow2 (-53))%Q as Hhalf.
  { replace (j - 52) with (j + -53 + 1) by lia.
    rewrite !pow2_add. change (pow2 1) with 2%Q. ring. }
  pose proof (pow2_pos (-53)) as Hu.
  assert (pow2 j * pow2 (-53) <= x * pow2 (-53))%Q as Hle
    by (apply Qmult_le_compat_r; lra).
  assert (r * pow2 (j - 52) - y * pow2 (j - 52) <= pow2 (j - 52) * (1 # 2))%Q as D1.
  { assert (r * pow2 (j - 52) - y * pow2 (j - 52) == (r - y) * pow2 (j - 52))%Q as -> by ring.
    rewrite (Qmult_comm (pow2 (j - 52))). apply Qmult_le_compat_r; lra. }
  assert (y * pow2 (j - 52) - r * pow2 (j - 52) <= pow2 (j - 52) * (1 # 2))%Q as D2.
  { assert (y * pow2 (j - 52) - r * pow2 (j - 52) == (y - r) * pow2 (j - 52))%Q as -> by ring.
    rewrite (Qmult_comm (pow2 (j - 52))). apply Qmult_le_compat_r; lra. }
  rewrite <- Hxy in D1, D2.
  split; lra.
Qed.

(** ** results of operations *)

Lemma fl_comp (x y : Q) : (x == y)%Q -> fl x = fl y.
Proof. intros H. unfold fl. rewrite (round64_comp x y H). reflexivity. Qed.

Lemma fl_finite (x : Q) (k : Z) :
  (0 <= x)%Q -> (x <= pow2 k)%Q -> -1074 <= k <= 1023 ->
  fl x = Finite (round64 x).
Proof.
  intros H0 Hx Hk. unfold fl.
  pose proof (round64_le_pow2 x k H0 Hx ltac:(lia)) as Hr.
  pose proof (round64_nonneg x H0) as Hr0.
  pose proof (pow2_lt k 1024 ltac:(lia)) as Hlt.
  destruct (Qle_bool (pow2 1024) (Qabs (round64 x))) eqn:E; [|reflexivity].
  apply Qle_bool_iff in E. rewrite Qabs_pos in E by exact Hr0. lra.
Qed.

Lemma fl_exact (x : Q) (m e : Z) :
  (x == inject_Z m * pow2 e)%Q -> Z.abs m < 2 ^ 53 -> -1074 <= e <= 970 ->
  fl x = Finite (Qred x).
Proof.
  intros Hx Hm He. unfold fl.
  rewrite (round64_exact x m e Hx Hm ltac:(lia)).
  destruct (Qle_bool (pow2 1024) (Qabs (Qred x))) eqn:E; [|reflexivity].
  apply Qle_bool_iff in E. rewrite Qred_correct, Hx, Qabs_Qmult in E.
  rewrite (Qabs_pos (pow2 e)) in E by (apply Qlt_le_weak, pow2_pos).
  assert (Qabs (inject_Z m) == inject_Z (Z.abs m))%Q as HA by reflexivity.
  rewrite HA in E.
  assert (inject_Z (Z.abs m) < pow2 53)%Q as Hm'
    by (rewrite (pow2_Z 53) by lia; rewrite <- Zlt_Qlt; exact Hm).
  pose proof (pow2_pos e). pose proof (pow2_le (53 + e) 1024 ltac:(lia)) as Hle.
  rewrite pow2_add in Hle.
  assert (inject_Z (Z.abs m) * pow2 e < pow2 53 * pow2 e)%Q
    by (apply Qmult_lt_compat_r; assumption).
  lra.
Qed.

Lemma fl_Z (z : Z) : Z.abs z < 2 ^ 53 -> fl (inject_Z z) = Finite (inject_Z z).
Proof.
  intros Hz. rewrite (fl_exact _ z 0); [rewrite Qred_inject_Z; reflexivity | | exact Hz | lia].
  unfold pow2. simpl. ring.
Qed.

(** Rounding does not cross a double whose last bit is not finer than that
    of the rounded number. *)
Lemma round64_le_grid (x : Q) (m e : Z) :
  (x <= inject_Z m * pow2 e)%Q -> ulp_exp x <= e ->
  (round64 x <= inject_Z m * pow2 e)%Q.
Proof.
  intros Hx HE. rewrite round64_unfold. set (E := ulp_exp x) in *.
  pose proof (pow2_pos E) as HpE.
  assert (inject_Z m * pow2 e == inject_Z (m * 2 ^ (e - E)) * pow2 E)%Q as Hg.
  { rewrite inject_Z_mult, <- pow2_Z, pow2_sub by lia. field. lra. }
  rewrite Hg in *.
  apply Qmult_le_compat_r; [|lra].
  rewrite <- Zle_Qle. apply round_half_even_le_Z.
  apply Qle_shift_div_r; [exact HpE | exact Hx].
Qed.

(** ** The float model and the exact one *)

(** [delta] with floats is [delta] on the rationals with the elapsed time
    rounded. *)
Lemma delta_rounds (self : Speedometer) (readings skip : Z) :
  Float.delta self readings skip =
  match delta self readings skip with
  | Return (Some (t, b)) => Return (Some (fl t, b))
  | Return None => Return None
  | Raise e => Raise e
  end.
Proof.
  unfold Float.delta, delta.
  destruct (assert (0 <=? readings)) as [[]|e]; [|reflexivity].
  destruct (assert (readings <=? maxlog self)) as [[]|e]; [|reflexivity].
  destruct (assert (0 <=? skip)) as [[]|e]; [|reflexivity].
  destruct (if 0 <? skip then assert (0 <? readings) else Return ())
    as [[]|e]; [|reflexivity].
  cbn [mbind outcome_bind].
  destruct (Z.of_nat (length (log self)) - 1 <? skip); [reflexivity|].
  destruct (py_index (log self) (-1 - skip)) as [cur|e]; [|reflexivity].
  cbn [mbind outcome_bind].
  destruct (if readings =? 0 then Return (start self)
            else if readings + skip <? Z.of_nat (length (log self))
                 then py_index (log self) (- (readings + skip + 1)) ≫=
                      (fun r => Return (Some r))
                 else Return None) as [[tg|]|e]; try reflexivity.
  cbn [mbind outcome_bind].
  destruct (reading_eqb tg cur); reflexivity.
Qed.

Lemma delta_float (self : Speedometer) (readings skip : Z) (t : Q) (b : Z) :
  delta self readings skip = Return (Some (t, b)) ->
  Float.delta self readings skip = Return (Some (fl t, b)).
Proof. intros H. rewrite delta_rounds, H. reflexivity. Qed.

Lemma delta_float_None (self : Speedometer) (readings skip : Z) :
  delta self readings skip = Return None ->
  Float.delta self readings skip = Return None.
Proof. intros H. rewrite delta_rounds, H. reflexivity. Qed.

Lemma delta_float_inv (self : Speedometer) (readings skip : Z)
    (a : float) (b : Z) :
  Float.delta self readings skip = Return (Some (a, b)) ->
  exists t, delta self readings skip = Return (Some (t, b)) /\ a = fl t.
Proof.
  rewrite delta_rounds.
  destruct (delta self readings skip) as [[[t b']|]|e]; try discriminate.
  intros [= <- <-]. eauto.
Qed.

(** ** [delta_to_speed] with floats *)

(** The milliseconds of a positive time are not negative. *)
Lemma long_times1000_nonneg (t : Float.num) (ms : Z) :
  Float.le0 t = false -> Float.long (Float.times1000 t) = Return ms -> 0 <= ms.
Proof.
  destruct t as [n|[x|s|]]; cbn [Float.le0 Float.times1000 Float.long].
  - intros Hn [= <-]. apply Z.leb_gt in Hn. lia.
  - intros Hx. cbn [fmul]. unfold fl.
    assert (0 <= x)%Q as H0.
    { apply Qlt_le_weak, Qnot_le_lt. intros H. apply Qle_bool_iff in H. congruence. }
    assert (0 <= round64 (x * 1000))%Q as Hr
      by (apply round64_nonneg, Qmult_le_0_compat; [exact H0 | discriminate]).
    destruct (Qle_bool (pow2 1024) (Qabs (round64 (x * 1000)))); [discriminate|].
    intros [= <-]. apply long_ge_0, Hr.
  - intros _. cbn [fmul]. change (Qeq_bool 1000 0) with false. cbn. discriminate.
  - discriminate.
Qed.

Lemma long_times1000_float (x : Q) :
  (0 <= x)%Q -> (x <= pow2 1000)%Q ->
  Float.long (Float.times1000 (Float.Flt (Finite x))) =
  Return (long (round64 (x * 1000))).
Proof.
  intros H0 Hx. cbn [Float.times1000 fmul Float.long].
  rewrite (fl_finite (x * 1000) 1010); [reflexivity | | | lia].
  - apply Qmult_le_0_compat; [exact H0 | discriminate].
  - replace 1010 with (1000 + 10) by lia. rewrite pow2_add.
    apply Qmult_le_compat_nonneg; split; try assumption; try discriminate.
Qed.

(** A time of a millisecond or more has at least one millisecond. *)
Lemma round64_ms_ge_1 (x : Q) :
  (1 # 1000 <= x)%Q -> 1 <= long (round64 (x * 1000)).
Proof.
  intros Hx.
  assert (pow2 0 <= x * 1000)%Q as H1 by (change (pow2 0) with 1%Q; lra).
  pose proof (round64_ge_pow2 _ 0 H1 ltac:(lia)) as Hr.
  change (pow2 0) with 1%Q in Hr.
  rewrite long_nonneg by lra.
  change 1 with (Qfloor 1). apply Qfloor_resp_le, Hr.
Qed.

(** A time whose product by 1000 stays below the last double before 1 has
    no millisecond. *)
Lemma round64_ms_0 (x : Q) :
  (0 <= x)%Q -> (x * 1000 <= 1 - pow2 (-53))%Q ->
  long (round64 (x * 1000)) = 0.
Proof.
  intros H0 Hx.
  assert (0 <= x * 1000)%Q as Hy by (apply Qmult_le_0_compat; [exact H0 | discriminate]).
  set (y := (x * 1000)%Q) in *.
  pose proof (round64_nonneg y Hy) as Hr0.
  assert (round64 y <= inject_Z (2 ^ 53 - 1) * pow2 (-53))%Q as Hr.
  { destruct (Qeq_dec y 0) as [Hz|Hz].
    - rewrite (round64_zero y Hz).
      apply Qmult_le_0_compat; [discriminate | apply Qlt_le_weak, pow2_pos].
    - assert (0 < y)%Q as Hpos
        by (destruct (Qlt_le_dec 0 y); [assumption|]; exfalso; apply Hz; lra).
      apply round64_le_grid.
      + assert (inject_Z (2 ^ 53 - 1) * pow2 (-53) == 1 - pow2 (-53))%Q as ->
          by reflexivity.
        exact Hx.
      + rewrite ulp_exp_pos by exact Hpos.
        assert (ilog2 y < 0); [|lia].
        apply ilog2_lt; [exact Hpos|]. change (pow2 0) with 1%Q.
        pose proof (pow2_pos (-53)). lra. }
  assert (inject_Z (2 ^ 53 - 1) * pow2 (-53) == 1 - pow2 (-53))%Q as E by reflexivity.
  rewrite E in Hr. pose proof (pow2_pos (-53)) as Hu.
  rewrite long_nonneg by exact Hr0.
  assert (0 <= Qfloor (round64 y)) by (change 0 with (Qfloor 0); apply Qfloor_resp_le, Hr0).
  assert (Qfloor (round64 y) < 1); [|lia].
  rewrite Zlt_Qlt. eapply Qle_lt_trans; [apply Qfloor_le|]. change (inject_Z 1) with 1%Q. lra.
Qed.

(** ** [curve] with floats on uniform steps *)

(** Bounds by powers of two, for [lia]. *)
Ltac pow_arith :=
  repeat match goal with
         | H : context [2 ^ Z.pos ?p] |- _ =>
             let v := eval vm_compute in (2 ^ Z.pos p) in
             change (2 ^ Z.pos p) with v in H
         | |- context [2 ^ Z.pos ?p] =>
             let v := eval vm_compute in (2 ^ Z.pos p) in
             change (2 ^ Z.pos p) with v
         end;
  nia.

Lemma uniform_steps_next spd t b i avail n :
  uniform_steps spd t b i (S avail) (S n) ->
  uniform_steps spd t b (i + 1) avail n.
Proof.
  intros (Hs & Hn & Hle). split; [|split].
  - intros k Hk. apply Hs. lia.
  - intros Hlt. replace (i + 1 + Z.of_nat avail) with (i + Z.of_nat (S avail)) by lia.
    apply Hn. lia.
  - lia.
Qed.

Lemma ulp_small : (0 < ulp)%Q /\ (ulp < 1 # 1000)%Q.
Proof. split; reflexivity. Qed.

Lemma drift_down (j : nat) :
  (1 <= j <= 8)%nat ->
  (drift (1 - ulp) 8 <= drift (1 - ulp) j)%Q /\
  (drift (1 - ulp) j <= 1 - ulp)%Q.
Proof.
  intros Hj.
  do 9 (destruct j as [|j]; [try lia; split; vm_compute; discriminate|]). lia.
Qed.

Lemma drift_up (j : nat) :
  (1 <= j <= 8)%nat ->
  (1 + ulp <= drift (1 + ulp) j)%Q /\
  (drift (1 + ulp) j <= drift (1 + ulp) 8)%Q.
Proof.
  intros Hj.
  do 9 (destruct j as [|j]; [try lia; split; vm_compute; discriminate|]). lia.
Qed.

Lemma drift_8 :
  (1 - 8 * ulp <= drift (1 - ulp) 8)%Q /\ (drift (1 + ulp) 8 <= 1 + 9 * ulp)%Q.
Proof. split; vm_compute; discriminate. Qed.

(** Rounding a sum or a quotient of this size. *)
Lemma fl_rounded (x : Q) :
  (pow2 (-70) <= x)%Q -> (x <= pow2 70)%Q ->
  exists r, fl x = Finite r /\
    (x * (1 - ulp) <= r)%Q /\ (r <= x * (1 + ulp))%Q.
Proof.
  intros Hlo Hhi. exists (round64 x). split.
  - apply (fl_finite x 70); [|exact Hhi | lia].
    pose proof (pow2_pos (-70)). lra.
  - apply round64_error. pose proof (pow2_le (-1022) (-70) ltac:(lia)). lra.
Qed.

Section uniform.
Variable spd : Speedometer.
Variables (t : Q) (b : Z).
Hypothesis t_pos : (0 < t)%Q.
Hypothesis b_small : Z.abs b < 2 ^ 50.

(** One turn of the loop on a delta [(t, b)]. *)
Lemma curve_loop_step (v : Z) (val : list Z) (i wtot : Z) (ws : float) (tk : Q) :
  0 < v <= 6 ->
  Float.delta spd 1 i = Return (Some (Finite tk, b)) -> (tk == t)%Q ->
  Float.curve_loop spd (v :: val) i wtot ws =
  Float.curve_loop spd val (i + 1) (wtot + v)
    (fadd ws (fl (inject_Z (b * v) / t))).
Proof.
  intros Hv Hd Htk. cbn [Float.curve_loop]. rewrite Hd, bind_Return.
  pose proof b_small as Hb.
  unfold of_Z. rewrite fl_Z by pow_arith. rewrite bind_Return. cbn [fmul].
  rewrite (fl_comp _ (inject_Z (b * v))) by (rewrite inject_Z_mult; reflexivity).
  rewrite fl_Z by (rewrite Z.abs_mul, (Z.abs_eq v) by lia; pow_arith).
  cbn [fdiv].
  assert (Qeq_bool tk 0 = false) as ->.
  { destruct (Qeq_bool tk 0) eqn:E; [|reflexivity].
    apply Qeq_bool_iff in E. rewrite Htk in E. rewrite E in t_pos. discriminate. }
  rewrite bind_Return.
  rewrite (fl_comp (inject_Z (b * v) / tk) (inject_Z (b * v) / t))
    by (rewrite Htk; reflexivity).
  reflexivity.
Qed.

Lemma curve_loop_stop (v : Z) (val : list Z) (i wtot : Z) (ws : float) :
  Float.delta spd 1 i = Return None ->
  Float.curve_loop spd (v :: val) i wtot ws = Return (wtot, ws).
Proof. intros Hd. cbn [Float.curve_loop]. rewrite Hd. reflexivity. Qed.

(** *** A whole rate: every operation is exact *)

Section exact.
Variable q : Z.
Hypothesis rate : (inject_Z b / t == inject_Z q)%Q.
Hypothesis q_small : 0 <= q /\ 21000 * q < 2 ^ 53.

Lemma curve_loop_exact (val : list Z) :
  forall (i wtot : Z) (avail : nat),
    Forall (fun v => 0 < v <= 6) val -> 0 <= wtot -> wtot + total val <= 21 ->
    uniform_steps spd t b i avail (length val) ->
    Float.curve_loop spd val i wtot (Finite (inject_Z (wtot * q))) =
    Return (wtot + total (take avail val),
            Finite (inject_Z ((wtot + total (take avail val)) * q))).
Proof.
  induction val as [|v val IH]; intros i wtot avail Hval Hw Htot Hu.
  - rewrite take_nil. cbn. rewrite Z.add_0_r. reflexivity.
  - apply Forall_cons in Hval as [Hv Hval].
    assert (0 <= total val) as Htv.
    { clear -Hval. induction Hval; unfold total in *; simpl; lia. }
    change (total (v :: val)) with (v + total val) in Htot.
    destruct avail as [|avail].
    + destruct Hu as (_ & Hn & _).
      rewrite (curve_loop_stop v val i wtot); [|rewrite <- (Z.add_0_r i); apply Hn; simpl; lia].
      cbn. rewrite Z.add_0_r. reflexivity.
    + destruct (proj1 Hu i ltac:(lia)) as (tk & Hd & Htk).
      rewrite (curve_loop_step v val i wtot _ tk Hv Hd Htk).
      cbn [fadd].
      assert (inject_Z (b * v) / t == inject_Z (q * v))%Q as Hq.
      { rewrite !inject_Z_mult, <- rate. field.
        intros E. rewrite E in t_pos. discriminate. }
      pose proof q_small as Hqs.
      rewrite (fl_comp _ _ Hq), fl_Z by (clear -Hqs Hv; pow_arith).
      rewrite (fl_comp _ (inject_Z ((wtot + v) * q)))
        by (rewrite <- inject_Z_plus; f_equiv; ring).
      rewrite fl_Z by (clear -Hqs Hv Hw Htot Htv; change (2 ^ 53) with 9007199254740992 in *; nia).
      rewrite (IH (i + 1) (wtot + v) avail Hval ltac:(lia) ltac:(lia)
                 (uniform_steps_next _ _ _ _ _ _ Hu)).
      cbn [take]. change (total (v :: take avail val)) with (v + total (take avail val)).
      rewrite !Z.add_assoc. reflexivity.
Qed.

End exact.

(** *** Any rate: every operation is off by at most one part in [2^53] *)

Section rounded.
Let X : Q := (inject_Z b / t)%Q.
Hypothesis X_range : (pow2 (-60) <= X)%Q /\ (X <= pow2 50)%Q.

Lemma curve_loop_rounded (val : list Z) :
  forall (i wtot : Z) (ws : Q) (j avail : nat),
    Forall (fun v => 0 < v <= 6) val -> 0 <= wtot -> wtot + total val <= 21 ->
    (1 <= j)%nat -> (j + length val <= 7)%nat ->
    (wtot = 0 -> ws = 0%Q) ->
    (inject_Z wtot * X * drift (1 - ulp) j <= ws)%Q ->
    (ws <= inject_Z wtot * X * drift (1 + ulp) j)%Q ->
    uniform_steps spd t b i avail (length val) ->
    exists ws',
      Float.curve_loop spd val i wtot (Finite ws) =
      Return (wtot + total (take avail val), Finite ws') /\
      (inject_Z (wtot + total (take avail val)) * X *
         drift (1 - ulp) (j + avail) <= ws')%Q /\
      (ws' <= inject_Z (wtot + total (take avail val)) * X *
         drift (1 + ulp) (j + avail))%Q.
Proof.
  pose proof ulp_small as [Hu0 Hu1].
  destruct X_range as [Xlo Xhi].
  assert (0 < X)%Q as HX by (pose proof (pow2_pos (-60)); lra).
  induction val as [|v val IH]; intros i wtot ws j avail Hval Hw Htot Hj Hjn Hz Hl Hh Hu.
  - rewrite take_nil. exists ws. cbn [Float.curve_loop total foldr].
    rewrite Z.add_0_r.
    assert (avail = 0%nat) as -> by (destruct Hu as (_ & _ & ?); simpl in *; lia).
    rewrite Nat.add_0_r. auto.
  - apply Forall_cons in Hval as [Hv Hval].
    assert (0 <= total val) as Htv.
    { clear -Hval. induction Hval; unfold total in *; simpl; lia. }
    change (total (v :: val)) with (v + total val) in Htot.
    cbn [length] in Hjn.
    destruct avail as [|avail].
    + destruct Hu as (_ & Hn & _). exists ws.
      rewrite (curve_loop_stop v val i wtot); [|rewrite <- (Z.add_0_r i); apply Hn; simpl; lia].
      cbn [take total foldr]. rewrite Z.add_0_r, Nat.add_0_r. auto.
    + destruct (proj1 Hu i ltac:(lia)) as (tk & Hd & Htk).
      rewrite (curve_loop_step v val i wtot _ tk Hv Hd Htk).
      cbn [fadd].
      assert (inject_Z (b * v) / t == inject_Z v * X)%Q as Hq.
      { unfold X. rewrite inject_Z_mult. field.
        intros E. rewrite E in t_pos. discriminate. }
      rewrite (fl_comp _ _ Hq).
      assert (1 <= inject_Z v)%Q as Hv1
        by (change 1%Q with (inject_Z 1); rewrite <- Zle_Qle; lia).
      assert (inject_Z v <= 6)%Q as Hv6
        by (change 6%Q with (inject_Z 6); rewrite <- Zle_Qle; lia).
      assert (0 <= inject_Z wtot)%Q as Hw0
        by (change 0%Q with (inject_Z 0); rewrite <- Zle_Qle; lia).
      assert (inject_Z wtot <= 21)%Q as Hw21
        by (change 21%Q with (inject_Z 21); rewrite <- Zle_Qle; lia).
      set (B := (inject_Z v * X)%Q) in *.
      set (A := (inject_Z wtot * X)%Q) in *.
      assert (X <= B)%Q as HB1 by (unfold B; nra).
      assert (B <= 6 * X)%Q as HB6 by (unfold B; nra).
      assert (0 <= A)%Q as HA0 by (unfold A; nra).
      assert (A <= 21 * X)%Q as HA21 by (unfold A; nra).
      pose proof (pow2_le (-70) (-60) ltac:(lia)) as P1.
      assert (8 * pow2 50 <= pow2 70)%Q as P2 by (vm_compute; discriminate).
      assert (64 * pow2 50 <= pow2 70)%Q as P3 by (vm_compute; discriminate).
      destruct (fl_rounded B) as (qv & -> & Hq1 & Hq2); [lra | lra |].
      destruct (drift_down j ltac:(lia)) as [_ Dl].
      destruct (drift_up j ltac:(lia)) as [Dg Dg8].
      destruct drift_8 as [_ D8].
      set (l := drift (1 - ulp) j) in *. set (g := drift (1 + ulp) j) in *.
      assert (g <= 2)%Q as Hg2 by lra.
      assert (0 <= l)%Q as Hl0.
      { destruct (drift_down j ltac:(lia)) as [Dl8 _]. fold l in Dl8.
        destruct drift_8 as [D8' _]. lra. }
      assert (ws <= 42 * X)%Q as Hws by nra.
      assert (0 <= ws)%Q as Hws0 by nra.
      assert (2 * pow2 (-70) <= pow2 (-60))%Q as P4 by (vm_compute; discriminate).
      assert (B * (1 # 2) <= qv)%Q as Hq3 by nra.
      assert (qv <= B * 2)%Q as Hq4 by nra.
      destruct (fl_rounded (ws + qv)) as (s & -> & Hs1 & Hs2); [lra | lra |].
      destruct (IH (i + 1) (wtot + v) s (S j) avail Hval ltac:(lia) ltac:(lia)
                  ltac:(lia) ltac:(lia)) as (ws' & -> & Hl' & Hh').
      * lia.
      * rewrite inject_Z_plus. cbn [drift]. fold l.
        assert ((inject_Z wtot + inject_Z v) * X * (l * (1 - ulp)) ==
                (A * l + B * l) * (1 - ulp))%Q as -> by (unfold A, B; ring).
        assert (B * l <= B * (1 - ulp))%Q as E1
          by (clear -HB1 HX Dl; nra).
        assert ((A * l + B * l) * (1 - ulp) <= (ws + qv) * (1 - ulp))%Q as E2
          by (apply Qmult_le_compat_r; lra).
        lra.
      * rewrite inject_Z_plus. cbn [drift]. fold g.
        assert ((inject_Z wtot + inject_Z v) * X * (g * (1 + ulp)) ==
                (A * g + B * g) * (1 + ulp))%Q as -> by (unfold A, B; ring).
        assert (B * (1 + ulp) <= B * g)%Q as E1
          by (clear -HB1 HX Dg; nra).
        assert ((ws + qv) * (1 + ulp) <= (A * g + B * g) * (1 + ulp))%Q as E2
          by (apply Qmult_le_compat_r; lra).
        lra.
      * apply (uniform_steps_next _ _ _ _ _ _ Hu).
      * exists ws'. cbn [take].
        change (total (v :: take avail val)) with (v + total (take avail val)).
        rewrite !Z.add_assoc.
        replace (j + S avail)%nat with (S j + avail)%nat by lia.
        auto.
Qed.

End rounded.
End uniform.

Lemma total_take_curve_val (avail : nat) :
  (1 <= avail)%nat ->
  6 <= total (take avail curve_val) <= 21.
Proof.
  intros H. do 7 (destruct avail as [|avail]; [try lia; vm_compute; split; discriminate|]).
  vm_compute; split; discriminate.
Qed.

(** The speed of the pseudo-delta of a weight [W] and a weighted sum that is
    a float. *)
Lemma delta_to_speed_weighted_float (W : Z) (ws r : Q) :
  0 < W -> fl (ws * 1000) = Finite r ->
  Float.delta_to_speed (Float.Int W, Float.Flt (Finite ws)) =
  Return (long r / (W * 1000)).
Proof.
  intros HW Hr. unfold Float.delta_to_speed.
  cbn [Float.le0 Float.times1000 Float.long fmul].
  destruct (Z.leb_spec W 0); [lia|]. rewrite bind_Return.
  destruct (Z.eqb_spec (W * 1000) 0); [lia|].
  rewrite Hr. reflexivity.
Qed.

Section uniform_rate.
Variable spd : Speedometer.
Variables (t : Q) (b m : Z).
Hypothesis t_ms : (t * 1000 == inject_Z m)%Q.
Hypothesis m_range : 0 < m < 2 ^ 53.
Hypothesis b_range : 0 <= b < 2 ^ 39.
Hypothesis rate_range : b * 1000 < 2 ^ 38 * m.

Lemma uniform_t_pos : (0 < t)%Q.
Proof.
  assert (0 < inject_Z m)%Q as Hm
    by (change 0%Q with (inject_Z 0); rewrite <- Zlt_Qlt; lia).
  rewrite <- t_ms in Hm. lra.
Qed.

Lemma uniform_rate_eq :
  (inject_Z b / t == inject_Z (b * 1000) / inject_Z m)%Q.
Proof.
  pose proof uniform_t_pos as Ht.
  rewrite <- t_ms, inject_Z_mult. change (inject_Z 1000) with 1000%Q.
  field. lra.
Qed.

Lemma curve_uniform_rate (avail : nat) :
  (1 <= avail)%nat ->
  uniform_steps spd t b 0 avail (length curve_val) ->
  Float.curve spd = Return (b * 1000 / m).
Proof.
  intros Hav Hu.
  pose proof uniform_t_pos as Ht.
  pose proof (total_take_curve_val avail Hav) as HW.
  set (W := total (take avail curve_val)) in *.
  set (q := b * 1000 / m).
  pose proof (Z.div_mod (b * 1000) m ltac:(lia)) as Hdiv. fold q in Hdiv.
  pose proof (Z.mod_pos_bound (b * 1000) m ltac:(lia)) as Hr.
  set (r := (b * 1000) mod m) in *.
  assert (0 <= q) as Hq0 by (apply Z.div_pos; lia).
  assert (q < 2 ^ 38) as Hq38.
  { apply Z.div_lt_upper_bound; [lia|]. lia. }
  assert (0 < inject_Z m)%Q as HM
    by (change 0%Q with (inject_Z 0); rewrite <- Zlt_Qlt; lia).
  assert (Forall (fun v => 0 < v <= 6) curve_val) as Hval
    by (unfold curve_val; repeat constructor; lia).
  unfold Float.curve.
  destruct (Z.eq_dec r 0) as [Hr0|Hr0].
  - (* a whole rate *)
    assert (inject_Z b / t == inject_Z q)%Q as Hrate.
    { rewrite uniform_rate_eq.
      assert (b * 1000 = q * m) as -> by lia.
      rewrite inject_Z_mult. field. lra. }
    assert (0 <= q /\ 21000 * q < 2 ^ 53) as Hq by (split; [lia | pow_arith]).
    pose proof (curve_loop_exact spd t b Ht ltac:(pow_arith) q Hrate Hq
                  curve_val 0 0 avail Hval ltac:(lia) ltac:(vm_compute; discriminate) Hu)
      as Hloop.
    change (inject_Z (0 * q)) with 0%Q in Hloop.
    rewrite Hloop, bind_Return. rewrite Z.add_0_l. fold W.
    assert (fl (inject_Z (W * q) * 1000) = Finite (inject_Z (W * q * 1000))) as Hp.
    { rewrite (fl_comp _ (inject_Z (W * q * 1000)))
        by (rewrite (inject_Z_mult _ 1000); reflexivity).
      apply fl_Z. pow_arith. }
    rewrite (delta_to_speed_weighted_float W _ _ ltac:(lia) Hp).
    rewrite long_inject_Z. f_equal.
    replace (W * q * 1000) with (q * (W * 1000)) by ring.
    apply Z.div_mul. lia.
  - (* a rate with a fraction *)
    assert (1 <= b) as Hb1 by (destruct (Z.eq_dec b 0); [subst b; simpl in *; unfold r in *; simpl in *; lia | lia]).
    set (X := (inject_Z b / t)%Q).
    assert (X * inject_Z m == inject_Z q * inject_Z m + inject_Z r)%Q as HXM.
    { unfold X. rewrite uniform_rate_eq, Hdiv.
      rewrite inject_Z_plus, inject_Z_mult. field. lra. }
    assert (inject_Z (b * 1000) == inject_Z q * inject_Z m + inject_Z r)%Q as HbM.
    { rewrite Hdiv at 1. rewrite inject_Z_plus, inject_Z_mult. ring. }
    assert (1 <= inject_Z r)%Q as Hr1
      by (change 1%Q with (inject_Z 1); rewrite <- Zle_Qle; lia).
    assert (inject_Z r <= inject_Z m - 1)%Q as Hr2.
    { assert (inject_Z m - 1 == inject_Z (m - 1))%Q as ->
        by (unfold Z.sub; rewrite inject_Z_plus; reflexivity).
      rewrite <- Zle_Qle. lia. }
    assert (1000 <= inject_Z (b * 1000))%Q as Hb1000
      by (change 1000%Q with (inject_Z 1000); rewrite <- Zle_Qle; lia).
    assert (inject_Z (b * 1000) <= 1000 * inject_Z (2 ^ 39))%Q as Hb39.
    { change 1000%Q with (inject_Z 1000). rewrite <- inject_Z_mult, <- Zle_Qle.
      lia. }
    assert (inject_Z m <= inject_Z (2 ^ 53))%Q as Hm53
      by (rewrite <- Zle_Qle; lia).
    assert (0 <= inject_Z q)%Q as Hq0'
      by (change 0%Q with (inject_Z 0); rewrite <- Zle_Qle; lia).
    assert (inject_Z q <= X * (1 - 8 * ulp))%Q as Hlow.
    { apply (Qmult_le_r _ _ (inject_Z m)); [exact HM|].
      assert (X * (1 - 8 * ulp) * inject_Z m == X * inject_Z m * (1 - 8 * ulp))%Q
        as -> by ring.
      rewrite HXM, <- HbM.
      assert (8 * ulp * inject_Z (b * 1000) <= 1)%Q.
      { unfold ulp. change (pow2 (-53)) with (1 # 9007199254740992)%Q.
        change (inject_Z (2 ^ 39)) with 549755813888%Q in Hb39. lra. }
      lra. }
    assert (X * (1 + 9 * ulp) < inject_Z q + 1)%Q as Hhigh.
    { apply (Qmult_lt_r _ _ (inject_Z m)); [exact HM|].
      assert (X * (1 + 9 * ulp) * inject_Z m == X * inject_Z m * (1 + 9 * ulp))%Q
        as -> by ring.
      rewrite HXM, <- HbM.
      assert (9 * ulp * inject_Z (b * 1000) < 1)%Q.
      { unfold ulp. change (pow2 (-53)) with (1 # 9007199254740992)%Q.
        change (inject_Z (2 ^ 39)) with 549755813888%Q in Hb39. lra. }
      lra. }
    assert (pow2 (-60) <= X /\ X <= pow2 50)%Q as HXr.
    { split.
      - apply (Qmult_le_r _ _ (inject_Z m)); [exact HM|]. rewrite HXM, <- HbM.
        assert (pow2 (-60) * inject_Z m <= pow2 (-60) * inject_Z (2 ^ 53))%Q
          by (apply Qmult_le_l; [apply pow2_pos | exact Hm53]).
        assert (pow2 (-60) * inject_Z (2 ^ 53) <= 1000)%Q by (vm_compute; discriminate).
        lra.
      - assert (X < inject_Z q + 1)%Q.
        { apply (Qmult_lt_r _ _ (inject_Z m)); [exact HM|]. rewrite HXM. lra. }
        assert (inject_Z q + 1 <= pow2 50)%Q.
        { assert (inject_Z q <= inject_Z (2 ^ 38))%Q by (rewrite <- Zle_Qle; lia).
          assert (inject_Z (2 ^ 38) + 1 <= pow2 50)%Q by (vm_compute; discriminate).
          lra. }
        lra. }
    destruct HXr as [HXlo HXhi].
    assert (0 < X)%Q as HXpos by (pose proof (pow2_pos (-60)); lra).
    destruct (curve_loop_rounded spd t b Ht ltac:(pow_arith) (conj HXlo HXhi)
                curve_val 0 0 0%Q 1 avail Hval ltac:(lia)
                ltac:(vm_compute; discriminate) ltac:(lia)
                ltac:(simpl; lia) ltac:(reflexivity))
      as (ws & Hloop & Hl & Hh).
    { change (inject_Z 0) with 0%Q. lra. }
    { change (inject_Z 0) with 0%Q. lra. }
    { exact Hu. }
    rewrite Z.add_0_l in Hloop, Hl, Hh. fold W X in Hl, Hh.
    rewrite Hloop, bind_Return. fold W.
    assert (avail <= 6)%nat as Hav6 by (destruct Hu as (_ & _ & H); exact H).
    destruct (drift_down (1 + avail)%nat ltac:(lia)) as [Dl8 Dl1].
    destruct (drift_up (1 + avail)%nat ltac:(lia)) as [Dg1 Dg8].
    destruct drift_8 as [D8l D8g].
    pose proof ulp_small as [Hu0 Hu1].
    set (dl := drift (1 - ulp) (1 + avail)%nat) in *.
    set (dg := drift (1 + ulp) (1 + avail)%nat) in *.
    assert (6 <= inject_Z W)%Q as HW6
      by (change 6%Q with (inject_Z 6); rewrite <- Zle_Qle; lia).
    assert (inject_Z W <= 21)%Q as HW21
      by (change 21%Q with (inject_Z 21); rewrite <- Zle_Qle; lia).
    set (Y := (inject_Z W * X)%Q) in *.
    assert (6 * X <= Y)%Q as HY6 by (unfold Y; nra).
    assert (Y <= 21 * X)%Q as HY21 by (unfold Y; nra).
    assert (Y * (1 # 2) <= ws)%Q as Hws1 by (clear -Hl Dl8 D8l Hu0 Hu1 HY6 HXpos; nra).
    assert (ws <= Y * 2)%Q as Hws2 by (clear -Hh Dg8 D8g Hu0 Hu1 HY6 HXpos; nra).
    pose proof (pow2_le (-70) (-60) ltac:(lia)) as P1. pose proof (pow2_pos (-70)) as P0.
    assert (42000 * pow2 50 <= pow2 70)%Q as P2 by (vm_compute; discriminate).
    destruct (fl_rounded (ws * 1000)) as (p & Hp & Hp1 & Hp2); [lra | lra |].
    rewrite (delta_to_speed_weighted_float W ws p ltac:(lia) Hp).
    f_equal.
    (* the product lies between [q] and [q + 1] times the weight in
       milliseconds *)
    destruct (drift_down (S (1 + avail)%nat) ltac:(lia)) as [El _].
    destruct (drift_up (S (1 + avail)%nat) ltac:(lia)) as [_ Eg].
    change (drift (1 - ulp) (S (1 + avail))) with (dl * (1 - ulp))%Q in El.
    change (drift (1 + ulp) (S (1 + avail))) with (dg * (1 + ulp))%Q in Eg.
    assert (0 < Y)%Q as HY0 by lra.
    assert (Y * (1 - 8 * ulp) <= Y * (dl * (1 - ulp)))%Q as E1
      by (apply Qmult_le_l; [exact HY0 | lra]).
    assert (Y * dl * (1 - ulp) <= ws * (1 - ulp))%Q as E2
      by (apply Qmult_le_compat_r; lra).
    assert (Y * (dg * (1 + ulp)) <= Y * (1 + 9 * ulp))%Q as E3
      by (apply Qmult_le_l; [exact HY0 | lra]).
    assert (ws * (1 + ulp) <= Y * dg * (1 + ulp))%Q as E4
      by (apply Qmult_le_compat_r; lra).
    assert (inject_Z W * inject_Z q <= inject_Z W * (X * (1 - 8 * ulp)))%Q as E5
      by (apply Qmult_le_l; [lra | exact Hlow]).
    assert (inject_Z W * (X * (1 + 9 * ulp)) < inject_Z W * (inject_Z q + 1))%Q
      as E6 by (apply Qmult_lt_l; [lra | exact Hhigh]).
    assert (inject_Z (q * (W * 1000)) <= p)%Q as Hplo.
    { rewrite !inject_Z_mult. change (inject_Z 1000) with 1000%Q.
      unfold Y in *. lra. }
    assert (p < inject_Z ((q + 1) * (W * 1000)))%Q as Hphi.
    { rewrite !inject_Z_mult, inject_Z_plus.
      change (inject_Z 1000) with 1000%Q. change (inject_Z 1) with 1%Q.
      unfold Y in *. lra. }
    assert (0 <= p)%Q as Hp0.
    { eapply Qle_trans; [|exact Hplo].
      change 0%Q with (inject_Z 0). rewrite <- Zle_Qle. nia. }
    rewrite long_nonneg by exact Hp0.
    assert (q * (W * 1000) <= Qfloor p) as F1.
    { rewrite <- (Qfloor_Z (q * (W * 1000))). apply Qfloor_resp_le, Hplo. }
    assert (Qfloor p < (q + 1) * (W * 1000)) as F2.
    { rewrite Zlt_Qlt. eapply Qle_lt_trans; [apply Qfloor_le | exact Hphi]. }
    symmetry. apply (Z.div_unique _ _ _ (Qfloor p - q * (W * 1000))); lia.
Qed.

End uniform_rate.

(** The speed of a single step of a whole number [m] of milliseconds. *)
Lemma delta_to_speed_step (t : Q) (b m : Z) :
  (t * 1000 == inject_Z m)%Q -> 0 < m < 2 ^ 53 ->
  Float.delta_to_speed (Float.Flt (Finite t), Float.Int b) =
  Return (b * 1000 / m).
Proof.
  intros Ht Hm.
  assert (0 < t)%Q as Hpos by (apply (uniform_t_pos t m Ht); lia).
  unfold Float.delta_to_speed. cbn [Float.le0 Float.times1000 Float.long fmul].
  assert (Qle_bool t 0 = false) as ->.
  { destruct (Qle_bool t 0) eqn:E; [|reflexivity].
    apply Qle_bool_iff in E. lra. }
  rewrite (fl_comp _ _ Ht), fl_Z by (rewrite Z.abs_eq; lia).
  rewrite bind_Return, long_inject_Z.
  destruct (Z.eqb_spec m 0); [lia | reflexivity].
Qed.

(** ** [curve] with floats between the rates of the steps *)

(** Rounding a value that is zero or of this size. *)
Lemma fl_rounded_or_zero (x : Q) :
  ((x == 0)%Q \/ (pow2 (-70) <= x)%Q) -> (x <= pow2 70)%Q ->
  exists r, fl x = Finite r /\
    (x * (1 - ulp) <= r)%Q /\ (r <= x * (1 + ulp))%Q /\
    (forall k, -70 <= k -> (pow2 k <= x)%Q -> (pow2 k <= r)%Q).
Proof.
  intros [Hz|Hlo] Hhi.
  - exists 0%Q. split; [|split; [|split]].
    + rewrite (fl_comp x 0 Hz). vm_compute. reflexivity.
    + rewrite Hz. lra.
    + rewrite Hz. lra.
    + intros k _ Hk. pose proof (pow2_pos k). lra.
  - destruct (fl_rounded x Hlo Hhi) as (r & Hr & H1 & H2).
    exists r. split; [exact Hr|]. split; [exact H1|]. split; [exact H2|].
    intros k Hk Hx. pose proof (pow2_pos (-70)) as Hp.
    rewrite (fl_finite x 70) in Hr by (try lra; lia).
    injection Hr as <-. apply round64_ge_pow2; [exact Hx | lia].
Qed.

Section between.
Variable spd : Speedometer.
Variables lo hi : Q.
Hypothesis lo_nonneg : (0 <= lo)%Q.
Hypothesis hi_small : (hi <= pow2 50)%Q.
Hypothesis capacity : 1 <= maxlog spd.

(** The deltas met are steps of [2^-60] to [2^60] seconds and of less than
    [2^50] bytes, at a rate between [lo] and [hi]. *)
Hypothesis steps :
  forall k a b, 0 <= k < 6 ->
    Float.delta spd 1 k = Return (Some (a, b)) ->
    exists t, a = Finite t /\ (pow2 (-60) <= t)%Q /\ (t <= pow2 60)%Q /\
              0 <= b < 2 ^ 50 /\
              (lo <= inject_Z b / t)%Q /\ (inject_Z b / t <= hi)%Q.

Lemma curve_loop_between (val : list Z) :
  forall (i wtot : Z) (ws : Q) (j : nat),
    Forall (fun v => 0 < v <= 6) val ->
    0 <= i -> i + Z.of_nat (length val) <= 6 ->
    0 <= wtot -> wtot + total val <= 21 ->
    (1 <= j)%nat -> (j + length val <= 7)%nat ->
    (inject_Z wtot * lo * drift (1 - ulp) j <= ws)%Q ->
    (ws <= inject_Z wtot * hi * drift (1 + ulp) j)%Q ->
    ((ws == 0)%Q \/ (pow2 (-62) <= ws)%Q) ->
    exists (wtot' : Z) (ws' : Q) (j' : nat),
      Float.curve_loop spd val i wtot (Finite ws) = Return (wtot', Finite ws') /\
      wtot <= wtot' <= 21 /\ (1 <= j' <= 7)%nat /\
      (inject_Z wtot' * lo * drift (1 - ulp) j' <= ws')%Q /\
      (ws' <= inject_Z wtot' * hi * drift (1 + ulp) j')%Q /\
      ((ws' == 0)%Q \/ (pow2 (-62) <= ws')%Q) /\
      (val <> [] -> (exists d, Float.delta spd 1 i = Return (Some d)) ->
       wtot < wtot').
Proof.
  pose proof ulp_small as [Hu0 Hu1].
  induction val as [|v val IH];
    intros i wtot ws j Hval Hi Hin Hw Htot Hj Hjn Hl Hh Hz.
  - exists wtot, ws, j. cbn [Float.curve_loop]. cbn in Htot.
    repeat split; try assumption; try lia. congruence.
  - apply Forall_cons in Hval as [Hv Hval].
    assert (0 <= total val) as Htv.
    { clear -Hval. induction Hval; unfold total in *; simpl; lia. }
    change (total (v :: val)) with (v + total val) in Htot.
    cbn [length] in Hjn, Hin.
    cbn [Float.curve_loop].
    destruct (Float.delta spd 1 i) as [[[a b]|]|e] eqn:Hd.
    + destruct (steps i a b ltac:(lia) Hd)
        as (t & -> & Ht1 & Ht2 & Hb & Hr1 & Hr2).
      rewrite bind_Return.
      unfold of_Z. rewrite fl_Z by (rewrite Z.abs_eq by lia; pow_arith).
      rewrite bind_Return. cbn [fmul].
      rewrite (fl_comp _ (inject_Z (b * v))) by (rewrite inject_Z_mult; reflexivity).
      rewrite fl_Z by (rewrite Z.abs_mul, (Z.abs_eq v), (Z.abs_eq b) by lia; pow_arith).
      cbn [fdiv]. pose proof (pow2_pos (-60)) as Hp60.
      assert (Qeq_bool t 0 = false) as ->.
      { destruct (Qeq_bool t 0) eqn:E; [|reflexivity].
        apply Qeq_bool_iff in E. lra. }
      rewrite bind_Return. cbn [fadd].
      set (rho := (inject_Z b / t)%Q) in *.
      assert (inject_Z (b * v) / t == inject_Z v * rho)%Q as Hq.
      { unfold rho. rewrite inject_Z_mult. field. lra. }
      rewrite (fl_comp _ _ Hq).
      assert (1 <= inject_Z v)%Q as Hv1
        by (change 1%Q with (inject_Z 1); rewrite <- Zle_Qle; lia).
      assert (inject_Z v <= 6)%Q as Hv6
        by (change 6%Q with (inject_Z 6); rewrite <- Zle_Qle; lia).
      assert (0 <= inject_Z wtot)%Q as Hw0
        by (change 0%Q with (inject_Z 0); rewrite <- Zle_Qle; lia).
      assert (inject_Z wtot <= 21)%Q as Hw21
        by (change 21%Q with (inject_Z 21); rewrite <- Zle_Qle; lia).
      assert (0 <= rho)%Q as Hrho0 by lra.
      assert ((inject_Z v * rho == 0)%Q \/ (pow2 (-60) <= inject_Z v * rho)%Q)
        as HBz.
      { destruct (Z.eq_dec b 0) as [->|Hb0].
        - left. unfold rho. change (inject_Z 0) with 0%Q. field. lra.
        - right. assert (pow2 (-60) <= rho)%Q; [|nra].
          unfold rho. apply Qle_shift_div_l; [lra|].
          assert (1 <= inject_Z b)%Q
            by (change 1%Q with (inject_Z 1); rewrite <- Zle_Qle; lia).
          assert (pow2 (-60) * pow2 60 == 1)%Q by reflexivity.
          nra. }
      set (B := (inject_Z v * rho)%Q) in *.
      assert (inject_Z v * lo <= B)%Q as HBlo by (unfold B; nra).
      assert (B <= inject_Z v * hi)%Q as HBhi by (unfold B; nra).
      assert (0 <= B)%Q as HB0 by (unfold B; nra).
      assert (B <= 6 * pow2 50)%Q as HB6 by (unfold B; nra).
      pose proof (pow2_le (-70) (-60) ltac:(lia)) as P1.
      pose proof (pow2_le (-70) (-62) ltac:(lia)) as P1'.
      pose proof (pow2_le (-62) (-60) ltac:(lia)) as P1''.
      assert (8 * pow2 50 <= pow2 70)%Q as P2 by (vm_compute; discriminate).
      assert (64 * pow2 50 <= pow2 70)%Q as P3 by (vm_compute; discriminate).
      destruct (fl_rounded_or_zero B) as (qv & -> & Hq1 & Hq2 & Hq3);
        [destruct HBz; [left; assumption | right; lra] | lra |].
      destruct (drift_down j ltac:(lia)) as [Dl8 Dl].
      destruct (drift_up j ltac:(lia)) as [Dg Dg8].
      destruct drift_8 as [D8l D8].
      set (l := drift (1 - ulp) j) in *. set (g := drift (1 + ulp) j) in *.
      assert (g <= 2)%Q as Hg2 by lra.
      assert (0 <= l)%Q as Hl0 by lra.
      set (Al := (inject_Z wtot * lo)%Q) in *.
      set (Ah := (inject_Z wtot * hi)%Q) in *.
      assert (0 <= Al)%Q as HAl0 by (unfold Al; nra).
      assert (Al <= Ah)%Q as HAlh by (unfold Al, Ah; nra).
      assert (Ah <= 21 * pow2 50)%Q as HAh21 by (unfold Ah; nra).
      assert (0 <= ws)%Q as Hws0 by (clear -Hl HAl0 Hl0; nra).
      assert (ws <= 42 * pow2 50)%Q as Hws by (clear -Hh HAh21 Hg2 HAl0 HAlh; nra).
      assert (0 <= qv)%Q as Hqv0 by (clear -Hq1 HB0 Hu0 Hu1; nra).
      assert (qv <= B * 2)%Q as Hq4 by (clear -Hq2 HB0 Hu0 Hu1; nra).
      assert ((ws + qv == 0)%Q \/ (pow2 (-62) <= ws + qv)%Q) as Hsz.
      { destruct Hz as [Hz|Hz]; [|right; lra].
        destruct HBz as [HBz|HBz].
        - left. assert (qv == 0)%Q by (rewrite HBz in Hq1, Hq2; lra). lra.
        - right. pose proof (Hq3 (-60) ltac:(lia) HBz). lra. }
      destruct (fl_rounded_or_zero (ws + qv)) as (s & -> & Hs1 & Hs2 & Hs3);
        [destruct Hsz; [left; assumption | right; lra] | lra |].
      destruct (IH (i + 1) (wtot + v) s (S j) Hval ltac:(lia) ltac:(lia)
                  ltac:(lia) ltac:(lia) ltac:(lia) ltac:(lia))
        as (wtot' & ws' & j' & -> & HW' & Hj' & Hl' & Hh' & Hz' & _).
      * rewrite inject_Z_plus. cbn [drift]. fold l.
        assert ((inject_Z wtot + inject_Z v) * lo * (l * (1 - ulp)) ==
                (Al * l + inject_Z v * lo * l) * (1 - ulp))%Q as ->
          by (unfold Al; ring).
        assert (inject_Z v * lo * l <= B * (1 - ulp))%Q as E1.
        { assert (inject_Z v * lo * l <= B * l)%Q
            by (apply Qmult_le_compat_r; assumption).
          assert (B * l <= B * (1 - ulp))%Q by (clear -HB0 Dl; nra).
          lra. }
        assert ((Al * l + inject_Z v * lo * l) * (1 - ulp)
                <= (ws + qv) * (1 - ulp))%Q as E2
          by (apply Qmult_le_compat_r; lra).
        lra.
      * rewrite inject_Z_plus. cbn [drift]. fold g.
        assert ((inject_Z wtot + inject_Z v) * hi * (g * (1 + ulp)) ==
                (Ah * g + inject_Z v * hi * g) * (1 + ulp))%Q as ->
          by (unfold Ah; ring).
        assert (B * (1 + ulp) <= inject_Z v * hi * g)%Q as E1.
        { assert (B * g <= inject_Z v * hi * g)%Q
            by (apply Qmult_le_compat_r; lra).
          assert (B * (1 + ulp) <= B * g)%Q by (clear -HB0 Dg; nra).
          lra. }
        assert ((ws + qv) * (1 + ulp)
                <= (Ah * g + inject_Z v * hi * g) * (1 + ulp))%Q as E2
          by (apply Qmult_le_compat_r; lra).
        lra.
      * destruct Hsz as [Hsz|Hsz].
        -- left. rewrite Hsz in Hs1, Hs2. lra.
        -- right. apply Hs3; [lia | exact Hsz].
      * exists wtot', ws', j'. split; [reflexivity|].
        repeat split; try assumption; try lia.
    + rewrite bind_Return. exists wtot, ws, j.
      repeat split; try assumption; try lia.
      intros _ [d Hd']. congruence.
    + exfalso. rewrite delta_rounds in Hd.
      destruct (delta_single_step_returns spd i capacity Hi) as [d Hd'].
      rewrite Hd' in Hd. destruct d as [[t b]|]; discriminate.
Qed.

Lemma curve_between_rates :
  (exists d, Float.delta spd 1 0 = Return (Some d)) ->
  exists v, Float.curve spd = Return v /\
            Qfloor (lo * (1 - 8 * ulp)) <= v <= Qfloor (hi * (1 + 9 * ulp)).
Proof.
  intros Hnew. pose proof ulp_small as [Hu0 Hu1].
  assert (Forall (fun v => 0 < v <= 6) curve_val) as Hval
    by (unfold curve_val; repeat constructor; lia).
  assert (inject_Z 0 * lo * drift (1 - ulp) 1 <= 0)%Q as Hl0
    by (change (inject_Z 0) with 0%Q; lra).
  assert (0 <= inject_Z 0 * hi * drift (1 + ulp) 1)%Q as Hh0
    by (change (inject_Z 0) with 0%Q; lra).
  destruct (curve_loop_between curve_val 0 0 0%Q 1 Hval ltac:(lia)
              ltac:(simpl; lia) ltac:(lia) ltac:(vm_compute; discriminate)
              ltac:(lia) ltac:(simpl; lia) Hl0 Hh0 ltac:(left; reflexivity))
    as (W & ws & j & Hloop & HW & Hj & Hl & Hh & Hz & Hpos).
  assert (0 < W) as HWpos by (apply Hpos; [discriminate | exact Hnew]).
  unfold Float.curve. rewrite Hloop, bind_Return.
  assert (1 <= inject_Z W)%Q as HW1
    by (change 1%Q with (inject_Z 1); rewrite <- Zle_Qle; lia).
  assert (inject_Z W <= 21)%Q as HW21
    by (change 21%Q with (inject_Z 21); rewrite <- Zle_Qle; lia).
  destruct (drift_down j ltac:(lia)) as [Dl8 Dl].
  destruct (drift_up j ltac:(lia)) as [Dg Dg8].
  destruct (drift_down (S j) ltac:(lia)) as [El _].
  destruct (drift_up (S j) ltac:(lia)) as [_ Eg].
  change (drift (1 - ulp) (S j)) with (drift (1 - ulp) j * (1 - ulp))%Q in El.
  change (drift (1 + ulp) (S j)) with (drift (1 + ulp) j * (1 + ulp))%Q in Eg.
  destruct drift_8 as [D8l D8g].
  set (dl := drift (1 - ulp) j) in *. set (dg := drift (1 + ulp) j) in *.
  set (Yl := (inject_Z W * lo)%Q) in *. set (Yh := (inject_Z W * hi)%Q) in *.
  assert (0 <= Yl)%Q as HYl by (unfold Yl; nra).
  assert (lo <= hi)%Q as Hlh.
  { destruct Hnew as [[a b] Hd].
    destruct (steps 0 a b ltac:(lia) Hd) as (t & _ & _ & _ & _ & H1 & H2). lra. }
  assert (Yl <= Yh)%Q as HYlh by (apply Qmult_le_l; lra).
  assert (Yh <= 21 * pow2 50)%Q as HYh.
  { pose proof (pow2_pos 50) as P50. unfold Yh.
    clear -HW1 HW21 Hlh lo_nonneg hi_small P50. nra. }
  assert (0 <= ws)%Q as Hws0 by (clear -Hl HYl Dl8 D8l Hu0 Hu1; nra).
  assert (ws <= 42 * pow2 50)%Q as Hws2
    by (clear -Hh HYh HYl HYlh Dg8 D8g Hu0 Hu1; nra).
  pose proof (pow2_le (-70) (-62) ltac:(lia)) as P1. pose proof (pow2_pos (-70)) as P0.
  assert (42000 * pow2 50 <= pow2 70)%Q as P2 by (vm_compute; discriminate).
  destruct (fl_rounded_or_zero (ws * 1000)) as (p & Hp & Hp1 & Hp2 & _);
    [destruct Hz as [Hz|Hz]; [left; rewrite Hz; reflexivity | right; lra] | lra |].
  rewrite (delta_to_speed_weighted_float W ws p HWpos Hp).
  exists (long p / (W * 1000)). split; [reflexivity|].
  assert (Yl * (1 - 8 * ulp) <= Yl * (dl * (1 - ulp)))%Q as E1
    by (clear -HYl El D8l; nra).
  assert (Yl * dl * (1 - ulp) <= ws * (1 - ulp))%Q as E2
    by (apply Qmult_le_compat_r; lra).
  assert (0 <= Yh)%Q as HYh0 by lra.
  assert (Yh * (dg * (1 + ulp)) <= Yh * (1 + 9 * ulp))%Q as E3
    by (clear -HYh0 Eg D8g; nra).
  assert (ws * (1 + ulp) <= Yh * dg * (1 + ulp))%Q as E4
    by (apply Qmult_le_compat_r; lra).
  assert (1000 * inject_Z W * (lo * (1 - 8 * ulp)) <= p)%Q as Hplo
    by (unfold Yl in *; lra).
  assert (p <= 1000 * inject_Z W * (hi * (1 + 9 * ulp)))%Q as Hphi
    by (unfold Yh in *; lra).
  assert (0 <= lo * (1 - 8 * ulp))%Q as Hlo' by nra.
  assert (0 <= p)%Q as Hp0 by nra.
  rewrite long_nonneg by exact Hp0.
  assert (0 < inject_Z (W * 1000))%Q as HWq
    by (change 0%Q with (inject_Z 0); rewrite <- Zlt_Qlt; lia).
  assert (inject_Z (W * 1000) == 1000 * inject_Z W)%Q as HWe
    by (rewrite inject_Z_mult; change (inject_Z 1000) with 1000%Q; ring).
  split.
  - apply Z.div_le_lower_bound; [lia|].
    rewrite <- (Qfloor_Z (W * 1000 * Qfloor (lo * (1 - 8 * ulp)))).
    apply Qfloor_resp_le. rewrite inject_Z_mult, HWe.
    pose proof (Qfloor_le (lo * (1 - 8 * ulp))) as Hf.
    eapply Qle_trans; [|exact Hplo].
    apply Qmult_le_l; [lra | exact Hf].
  - rewrite (Zdiv_Qdiv (Qfloor p) (W * 1000)). apply Qfloor_resp_le.
    apply Qle_shift_div_r; [exact HWq|]. rewrite HWe.
    pose proof (Qfloor_le p) as Hf.
    eapply Qle_trans; [exact Hf|]. lra.
Qed.

End between.

(** ** [readable_speed] with floats *)

(** [float(speed)] for a rate in the range of the doubles. *)
Lemma of_Z_finite (v : Z) :
  0 <= v < 2 ^ 1023 ->
  of_Z v = Return (Finite (round64 (inject_Z v))) /\
  (0 <= round64 (inject_Z v))%Q /\ (round64 (inject_Z v) <= pow2 1023)%Q.
Proof.
  intros Hv.
  assert (0 <= inject_Z v)%Q as H0
    by (change 0%Q with (inject_Z 0); rewrite <- Zle_Qle; lia).
  assert (inject_Z v <= pow2 1023)%Q as H1
    by (rewrite pow2_Z by lia; rewrite <- Zle_Qle; lia).
  split; [|split].
  - unfold of_Z. rewrite (fl_finite _ 1023 H0 H1) by lia. reflexivity.
  - apply round64_nonneg, H0.
  - apply round64_le_pow2; [exact H0 | exact H1 | lia].
Qed.

(** [float(speed)/step] for a step [2^j] of the ladder. *)
Lemma float_div_step (v j : Z) :
  0 <= v < 2 ^ 1023 -> 0 <= j <= 40 ->
  exists r x,
    of_Z v = Return (Finite r) /\
    of_Z (2 ^ j) = Return (Finite (inject_Z (2 ^ j))) /\
    fdiv (Finite r) (Finite (inject_Z (2 ^ j))) = Return (Finite x) /\
    (0 <= x)%Q /\
    (forall k, -1000 <= k -> 2 ^ (j + k) <= v -> 0 <= j + k -> (pow2 k <= x)%Q).
Proof.
  intros Hv Hj.
  destruct (of_Z_finite v Hv) as (Hof & Hr0 & Hr1).
  assert (0 < 2 ^ j < 2 ^ 53) as Hs.
  { split; [apply Z.pow_pos_nonneg; lia|]. apply Z.pow_lt_mono_r; lia. }
  assert (0 < inject_Z (2 ^ j))%Q as Hsq
    by (change 0%Q with (inject_Z 0); rewrite <- Zlt_Qlt; lia).
  assert (1 <= inject_Z (2 ^ j))%Q as Hs1
    by (change 1%Q with (inject_Z 1); rewrite <- Zle_Qle; lia).
  set (r := round64 (inject_Z v)) in *.
  assert (0 <= r / inject_Z (2 ^ j))%Q as Hx0
    by (apply Qle_shift_div_l; [exact Hsq | lra]).
  assert (r / inject_Z (2 ^ j) <= pow2 1023)%Q as Hx1.
  { apply Qle_shift_div_r; [exact Hsq|]. pose proof (pow2_pos 1023). nra. }
  exists r, (round64 (r / inject_Z (2 ^ j))).
  split; [exact Hof|]. split; [|split; [|split]].
  - unfold of_Z. rewrite fl_Z by (rewrite Z.abs_eq; lia). reflexivity.
  - cbn [fdiv].
    assert (Qeq_bool (inject_Z (2 ^ j)) 0 = false) as ->.
    { destruct (Qeq_bool (inject_Z (2 ^ j)) 0) eqn:E; [|reflexivity].
      apply Qeq_bool_iff in E. lra. }
    rewrite (fl_finite _ 1023 Hx0 Hx1) by lia. reflexivity.
  - apply round64_nonneg, Hx0.
  - intros k Hk Hvk Hjk. apply round64_ge_pow2; [|lia].
    apply Qle_shift_div_l; [exact Hsq|].
    rewrite <- pow2_Z, <- pow2_add by lia.
    unfold r. apply round64_ge_pow2; [|lia].
    rewrite pow2_Z by lia. rewrite <- Zle_Qle. rewrite Z.add_comm. exact Hvk.
Qed.

Lemma readable_loop_next_float (u : string) (us : list string) (v step j : Z) :
  step = 2 ^ j -> 0 <= j <= 40 -> 1024 * step <= v < 2 ^ 1023 ->
  Float.readable_loop (u :: us) v step =
  Float.readable_loop us v (step * 1024).
Proof.
  intros -> Hj Hv.
  assert (0 < 2 ^ j) as Hs by (apply Z.pow_pos_nonneg; lia).
  cbn [Float.readable_loop].
  assert ((v / 2 ^ j <? 1024) = false) as Hq.
  { apply Z.ltb_ge. apply Z.div_le_lower_bound; lia. }
  rewrite Hq.
  destruct (1 <? 2 ^ j); [|reflexivity].
  destruct (float_div_step v j ltac:(lia) Hj) as (r & x & Hr & Hst & Hdv & _ & Hxk).
  rewrite Hr, bind_Return, Hst, bind_Return, Hdv, bind_Return.
  cbn [Float.fmt_float].
  assert (100 <= x)%Q as Hx.
  { assert (pow2 10 <= x)%Q as H10.
    { apply Hxk; [lia | | lia]. rewrite Z.pow_add_r by lia.
      change (2 ^ 10) with 1024. lia. }
    change (pow2 10) with 1024%Q in H10. lra. }
  pose proof (length_fmt_f_100 2 _ Hx) as H2.
  pose proof (length_fmt_f_100 1 _ Hx) as H1.
  rewrite !length_append. simpl (String.length " ").
  destruct (Nat.leb_spec (String.length (fmt_f 4 2 x) + 1) 5); [lia|].
  destruct (Nat.leb_spec (String.length (fmt_f 4 1 x) + 1) 5); [lia|].
  reflexivity.
Qed.

(** * The claims *)

(** ** C1: uniform steps *)

(** Six uniform steps of [2049 / 2048] seconds and 2049 bytes, all of them
    doubles on which every operation of [curve] is exact: [curve] divides by
    the time itself and gives 2048, [delta_to_speed] divides by its 1000
    whole milliseconds and gives 2049. *)
Lemma curve_sub_ms_steps :
  let spd := steady (2049 # 2048)%Q 2049 in
  Forall (fun i => Float.delta spd 1 i =
                   Return (Some (Finite (2049 # 2048), 2049)))
         [0; 1; 2; 3; 4; 5] /\
  Float.curve spd = Return 2048 /\
  Float.delta_to_speed (Float.Flt (Finite (2049 # 2048)), Float.Int 2049)
  = Return 2049.
Proof.
  intros spd. split; [|split; vm_compute; reflexivity].
  repeat constructor; vm_compute; reflexivity.
Qed.

(** Steps of a decreasing counter: the weighted sum is truncated toward zero,
    the speed of the step is a floor. *)
Example curve_decreasing_steps :
  Float.curve (steady 32768%Q (-1)) = Return 0 /\
  Float.delta_to_speed (Float.Flt (Finite 32768), Float.Int (-1)) = Return (-1).
Proof. split; vm_compute; reflexivity. Qed.

(** With larger steps the sum is rounded: steps of one second and
    [2^53 + 1] bytes give [2^53], the double next to the byte increase, where
    [delta_to_speed] gives [2^53 + 1]. *)
Example curve_large_steps :
  Float.curve (steady 1 (2 ^ 53 + 1)) = Return (2 ^ 53) /\
  Float.delta_to_speed (Float.Flt (Finite 1), Float.Int (2 ^ 53 + 1))
  = Return (2 ^ 53 + 1).
Proof. split; vm_compute; reflexivity. Qed.

(** C1 (amended).  For every log whose six most recent single-step deltas all
    have the same elapsed time [t], between [2^-60] and [2^40] seconds, and
    the same byte increase [b], with [0 <= b < 2^39] and a rate [b / t]
    below [2^38] bytes per second: [curve] returns the rate [b / t] up to the
    rounding of its float operations, a value between the whole parts of
    [b / t * (1 - 8 * 2^-53)] and [b / t * (1 + 9 * 2^-53)]; and when [t] is
    a whole number [m] of milliseconds (for a double: a multiple of 125 ms),
    [curve] returns what [delta_to_speed((t, b))] returns, and both are the
    whole part [b * 1000 / m] of the rate [b / t]. *)
Theorem curve_uniform_steps (spd : Speedometer) (t : Q) (b : Z) :
  (pow2 (-60) <= t)%Q -> (t <= pow2 40)%Q ->
  0 <= b < 2 ^ 39 -> (inject_Z b / t < pow2 38)%Q ->
  (forall i, 0 <= i < 6 ->
     exists ti, Float.delta spd 1 i = Return (Some (Finite ti, b)) /\
                (ti == t)%Q) ->
  (exists v, Float.curve spd = Return v /\
     Qfloor (inject_Z b / t * (1 - 8 * ulp)) <= v
     <= Qfloor (inject_Z b / t * (1 + 9 * ulp))) /\
  (forall m, (t * 1000 == inject_Z m)%Q ->
     Float.curve spd = Return (b * 1000 / m) /\
     (forall ti, (ti == t)%Q ->
        Float.delta_to_speed (Float.Flt (Finite ti), Float.Int b) =
        Return (b * 1000 / m)) /\
     Qfloor (inject_Z b / t) = b * 1000 / m).
Proof.
  intros Hlo Hhi Hb Hrate H.
  pose proof (pow2_pos (-60)) as Hp.
  assert (0 < t)%Q as Ht by lra.
  assert (0 <= inject_Z b)%Q as Hbq
    by (change 0%Q with (inject_Z 0); rewrite <- Zle_Qle; lia).
  assert (0 <= inject_Z b / t)%Q as Hrho by (apply Qle_shift_div_l; lra).
  split.
  - apply curve_between_rates.
    + exact Hrho.
    + pose proof (pow2_le 38 50 ltac:(lia)). lra.
    + destruct (H 0 ltac:(lia)) as (ti & Hd & _).
      unfold Float.delta, assert in Hd.
      destruct (Z.leb_spec 1 (maxlog spd)) as [Hc|Hc]; [exact Hc | discriminate].
    + intros k a b' Hk Hd. destruct (H k Hk) as (ti & Hd' & Hti).
      rewrite Hd' in Hd. injection Hd as <- <-. exists ti.
      split; [reflexivity|]. rewrite Hti.
      pose proof (pow2_le 40 60 ltac:(lia)).
      repeat split; try lra; lia.
    + destruct (H 0 ltac:(lia)) as (ti & Hd & _). eexists. exact Hd.
  - intros m Hm.
    assert (0 < m < 2 ^ 53) as Hm53.
    { split.
      - rewrite Zlt_Qlt, <- Hm. change (inject_Z 0) with 0%Q. lra.
      - apply Z.le_lt_trans with (1000 * 2 ^ 40); [|pow_arith].
        rewrite Zle_Qle, <- Hm.
        assert (inject_Z (1000 * 2 ^ 40) == pow2 40 * 1000)%Q as -> by reflexivity.
        lra. }
    assert (b * 1000 < 2 ^ 38 * m) as Hrate'.
    { rewrite Zlt_Qlt, !inject_Z_mult, <- Hm.
      change (inject_Z 1000) with 1000%Q.
      assert (inject_Z (2 ^ 38) == pow2 38)%Q as -> by reflexivity.
      assert (inject_Z b == inject_Z b / t * t)%Q as E1 by (field; lra).
      assert (inject_Z b / t * t < pow2 38 * t)%Q as E2
        by (apply Qmult_lt_compat_r; assumption).
      lra. }
    split; [|split].
    + apply (curve_uniform_rate spd t b m Hm Hm53 Hb Hrate' 6); [lia|].
      split; [|split].
      * intros k Hk. apply H. simpl in Hk. lia.
      * simpl. lia.
      * simpl. lia.
    + intros ti Hti. apply delta_to_speed_step; [|exact Hm53].
      rewrite Hti. exact Hm.
    + rewrite (uniform_rate_eq t b m Hm Hm53). apply Qfloor_div_Z. lia.
Qed.

Lemma curve_uniform_steps_witness :
  Float.curve (steady (3 # 8)%Q 100) = Return 266 /\
  Float.delta_to_speed (Float.Flt (Finite (3 # 8)), Float.Int 100) =
  Return 266.
Proof.
  destruct (curve_uniform_steps (steady (3 # 8)%Q 100) (3 # 8)%Q 100)
    as (_ & H).
  - vm_compute. discriminate.
  - vm_compute. discriminate.
  - pow_arith.
  - vm_compute. reflexivity.
  - intros i Hi. exists (3 # 8)%Q.
    assert (i = 0 \/ i = 1 \/ i = 2 \/ i = 3 \/ i = 4 \/ i = 5)
      as [->|[->|[->|[->|[->| ->]]]]] by lia;
      split; vm_compute; reflexivity.
  - destruct (H 375 ltac:(reflexivity)) as (Hc & Hs & _).
    split; [exact Hc | apply Hs; reflexivity].
Defined.

(** ** C2: the speed converter *)

(** On a negative byte increase the integer division floors where a
    truncation gives 0; a time with a fraction of a millisecond is cut to
    whole milliseconds before the division, so that the result is not the
    truncated quotient of the two quantities. *)
Lemma delta_to_speed_not_truncated :
  Float.delta_to_speed (Float.Flt (Finite 2), Float.Int (-1)) = Return (-1) /\
  Z.quot (-1 * 1000) (2 * 1000) = 0 /\
  truncated_rate (2%Q, (-1 # 1)%Q) = 0 /\
  Float.delta_to_speed (Float.Flt (Finite (2049 # 2048)), Float.Int 2049)
  = Return 2049 /\
  truncated_rate ((2049 # 2048)%Q, 2049%Q) = 2048.
Proof. repeat split; vm_compute; reflexivity. Qed.

(** The product [time_passed * 1000] is rounded before it is truncated: the
    double nearest to 0.009 is below 0.009, its product by 1000 is the double
    9.0, and one byte in that time makes 1000 / 9 = 111 where the 8 whole
    milliseconds of the exact product would make 125. *)
Example delta_to_speed_rounds_product :
  let t := (5188146770730811 # 576460752303423488)%Q in
  (t < 9 # 1000)%Q /\ long (t * 1000) = 8 /\
  fmul (Finite t) (Finite 1000) = Finite 9 /\
  Float.delta_to_speed (Float.Flt (Finite t), Float.Int 1) = Return 111.
Proof. repeat split; vm_compute; reflexivity. Qed.

(** C2 (amended).  For every delta [(t, b)] of numbers: if [t <= 0], or
    [long(t * 1000)] is 0, [delta_to_speed] returns 0, as it does on
    [(0, 1000)] and [(-1, 1000)]; otherwise [long(t * 1000)] is positive and
    the result is the floor of the quotient of [long(b * 1000)] by it, which
    is the truncated quotient whenever [long(b * 1000) >= 0].  For an integer
    [n], [long(n * 1000)] is [n * 1000]; for a float time [x] between 0 and
    [2^1000] it is the product [x * 1000] rounded to the nearest double and
    then truncated: 0 as long as [x * 1000 <= 1 - 2^-53], at least 1 from
    [x = 1 / 1000] on. *)
Theorem delta_to_speed_floor_quotient (t b : Float.num) :
  (Float.le0 t = true -> Float.delta_to_speed (t, b) = Return 0) /\
  (Float.le0 t = false -> Float.long (Float.times1000 t) = Return 0 ->
     Float.delta_to_speed (t, b) = Return 0) /\
  (forall ms bs,
     Float.le0 t = false ->
     Float.long (Float.times1000 t) = Return ms -> ms <> 0 ->
     Float.long (Float.times1000 b) = Return bs ->
     0 < ms /\
     Float.delta_to_speed (t, b) = Return (bs / ms) /\
     ms * (bs / ms) <= bs < ms * (bs / ms + 1) /\
     (0 <= bs -> bs / ms = Z.quot bs ms)) /\
  (forall n, Float.long (Float.times1000 (Float.Int n)) = Return (n * 1000)) /\
  (forall x, (0 <= x)%Q -> (x <= pow2 1000)%Q ->
     Float.long (Float.times1000 (Float.Flt (Finite x))) =
     Return (long (round64 (x * 1000))) /\
     ((x * 1000 <= 1 - pow2 (-53))%Q -> long (round64 (x * 1000)) = 0) /\
     ((1 # 1000 <= x)%Q -> 1 <= long (round64 (x * 1000)))) /\
  Float.delta_to_speed (Float.Int 0, Float.Int 1000) = Return 0 /\
  Float.delta_to_speed (Float.Int (-1), Float.Int 1000) = Return 0.
Proof.
  split; [|split; [|split; [|split; [|split; [|split; reflexivity]]]]].
  - intros Ht. unfold Float.delta_to_speed. rewrite Ht. reflexivity.
  - intros Ht Hms. unfold Float.delta_to_speed. rewrite Ht, Hms. reflexivity.
  - intros ms bs Ht Hms Hnz Hbs.
    pose proof (long_times1000_nonneg t ms Ht Hms) as H0.
    assert (0 < ms) as Hpos by lia.
    split; [exact Hpos|]. split; [|split].
    + unfold Float.delta_to_speed. rewrite Ht, Hms, bind_Return.
      apply Z.eqb_neq in Hnz. rewrite Hnz, Hbs. reflexivity.
    + pose proof (Z.mul_div_le bs ms Hpos).
      pose proof (Z.mul_succ_div_gt bs ms Hpos). lia.
    + intros Hb. symmetry. apply Z.quot_div_nonneg; lia.
  - intros n. reflexivity.
  - intros x H0 Hx. split; [apply long_times1000_float; assumption|]. split.
    + apply round64_ms_0, H0.
    + apply round64_ms_ge_1.
Qed.

Lemma delta_to_speed_floor_quotient_witness :
  Float.delta_to_speed (Float.Flt (Finite 2), Float.Int 3000) = Return 1500 /\
  Float.delta_to_speed (Float.Flt (Finite (1 # 2048)), Float.Int 7) = Return 0.
Proof.
  split.
  - destruct (delta_to_speed_floor_quotient (Float.Flt (Finite 2)) (Float.Int 3000))
      as (_ & _ & H & _).
    destruct (H 2000 3000000) as (_ & -> & _); try reflexivity. discriminate.
  - destruct (delta_to_speed_floor_quotient (Float.Flt (Finite (1 # 2048))) (Float.Int 7))
      as (_ & H & _).
    apply H; reflexivity.
Defined.

(** ** C3: rates of non-decreasing counters *)

(** C3.  For every session whose counters are non-decreasing, every delta
    between two of its readings has a byte increase [>= 0], the rate
    [delta_to_speed] makes of it is [>= 0], and so is every result of
    [speed]. *)
Theorem session_rates_nonneg (m : Z) (samples : list reading) (readings skip : Z) :
  Sorted counter_le samples ->
  (forall t b,
     delta (session m samples) readings skip = Return (Some (t, b)) ->
     0 <= b /\ 0 <= delta_to_speed (t, inject_Z b)) /\
  (forall v,
     speed (session m samples) readings skip = Return (Some v) -> 0 <= v).
Proof.
  intros Hs.
  assert (forall t b,
            delta (session m samples) readings skip = Return (Some (t, b)) ->
            0 <= b /\ 0 <= delta_to_speed (t, inject_Z b)) as Hdelta.
  { intros t b Hd.
    apply delta_session_inv in Hd
      as (i & j & tg & cur & Hij & Hi & Hj & _ & -> & ->).
    pose proof (Sorted_lookup_lt counter_le samples i j tg cur Hs Hij Hi Hj)
      as Hle.
    unfold counter_le in Hle. split; [lia|].
    apply delta_to_speed_nonneg.
    change 0%Q with (inject_Z 0). rewrite <- Zle_Qle. lia. }
  split; [exact Hdelta|].
  intros v. unfold speed.
  destruct (delta (session m samples) readings skip) as [[[t b]|]|e] eqn:Hd;
    [|discriminate..].
  rewrite bind_Return. intros [= <-]. apply (Hdelta t b). reflexivity.
Qed.

Lemma session_rates_nonneg_witness :
  Sorted counter_le [(0%Q, 0); (1%Q, 1000); (2%Q, 3000)] /\
  speed scenario 1 0 = Return (Some 2000) /\ 0 <= 2000.
Proof.
  assert (Sorted counter_le [(0%Q, 0); (1%Q, 1000); (2%Q, 3000)]) as Hs.
  { repeat constructor; unfold counter_le; simpl; lia. }
  split; [exact Hs|]. split; [reflexivity|].
  destruct (session_rates_nonneg 5 _ 1 0 Hs) as [_ H].
  apply H. reflexivity.
Defined.

(** ** C4: the bounded log and the start reading *)



(** ** C5: the delta since the start *)




(** ** C6: invalid arguments *)

(** C6.  In every state of the log, [delta] called with [readings < 0], with
    [readings > maxlog], with [skip < 0], or with [skip > 0] while
    [readings = 0], raises the assertion failure; so does [speed]. *)
Theorem delta_invalid_arguments (self : Speedometer) (readings skip : Z) :
  readings < 0 \/ maxlog self < readings \/ skip < 0 \/
  (0 < skip /\ readings = 0) ->
  delta self readings skip = Raise AssertionError /\
  speed self readings skip = Raise AssertionError.
Proof.
  intros H. unfold speed. rewrite (delta_rejects self readings skip H).
  split; reflexivity.
Qed.

Lemma delta_invalid_arguments_witness :
  delta scenario 6 0 = Raise AssertionError /\
  delta scenario 0 1 = Raise AssertionError.
Proof.
  split.
  - apply (delta_invalid_arguments scenario 6 0). right. left. simpl. lia.
  - apply (delta_invalid_arguments scenario 0 1). right. right. right. lia.
Defined.

(** ** C7: readable speeds *)

(** The rate beyond which [float(speed)] no longer exists. *)
Example readable_speed_overflow :
  Float.readable_speed (Some (2 ^ 1024)) = Raise OverflowError.
Proof. vm_compute. reflexivity. Qed.

(** C7.  [readable_speed] formats 0 as the plain integer ["   0 B/s"] and 1536
    as ["1.50 KiB/s"]; [None] and negative rates are formatted as 0; a rate
    of [1024^5] or more, beyond the last step of the ladder, is formatted as
    the integer number of TiB with the unit [TiB/s], wider than four digits
    when it has to be; this for every rate below [2^1023], which
    [float(speed)] can take. *)
Theorem readable_speed_formats :
  Float.readable_speed (Some 0) = Return "   0 B/s" /\
  Float.readable_speed (Some 1536) = Return "1.50 KiB/s" /\
  Float.readable_speed None = Return "   0 B/s" /\
  (forall v, v < 0 -> Float.readable_speed (Some v) = Return "   0 B/s") /\
  (forall v, 1024 ^ 5 <= v < 2 ^ 1023 ->
     Float.readable_speed (Some v) =
     Return (fmt_d 4 (v / 1024 ^ 4) +:+ " TiB/s")) /\
  Float.readable_speed (Some (10000 * 1024 ^ 4)) = Return "10000 TiB/s".
Proof.
  split; [vm_compute; reflexivity|]. split; [vm_compute; reflexivity|].
  split; [vm_compute; reflexivity|].
  split; [|split; [|vm_compute; reflexivity]].
  - intros v Hv. unfold Float.readable_speed.
    destruct (Z.ltb_spec v 0); [vm_compute; reflexivity | lia].
  - intros v Hv. unfold Float.readable_speed, units.
    change (1024 ^ 5) with 1125899906842624 in Hv.
    destruct (Z.ltb_spec v 0); [lia|].
    rewrite (readable_loop_next_float _ _ v 1 0) by (try reflexivity; lia).
    rewrite (readable_loop_next_float _ _ v _ 10) by (try reflexivity; lia).
    rewrite (readable_loop_next_float _ _ v _ 20) by (try reflexivity; lia).
    rewrite (readable_loop_next_float _ _ v _ 30) by (try reflexivity; lia).
    rewrite (readable_loop_next_float _ _ v _ 40) by (try reflexivity; lia).
    reflexivity.
Qed.

Lemma readable_speed_formats_witness :
  Float.readable_speed (Some (-7)) = Return "   0 B/s" /\
  Float.readable_speed (Some (1024 ^ 5)) = Return "1024 TiB/s".
Proof.
  destruct readable_speed_formats as (_ & _ & _ & Hneg & Hbig & _).
  split.
  - apply Hneg. lia.
  - rewrite Hbig; [reflexivity|]. split; [lia|]. apply Z.ltb_lt. reflexivity.
Defined.

(** ** C8: the glyph of a speed *)

(** C8.  [graphic_speed] maps rate 0 to the first, emptiest of the 21 glyphs
    and treats [None] as 0; the thresholds are 0 followed by the floors of
    [2 ^ (5 * i / 3)] for [i = 0 .. 19]; for every rate the glyph returned is
    the one whose threshold is closest to the rate, the higher-indexed glyph
    when two thresholds are equally close, so that a rate equal to a
    threshold gets the glyph of that threshold. *)
Theorem graphic_speed_closest :
  graphic_speed (Some 0) = "\                    " /\
  graphic_index (Some 0) = 0%nat /\
  graphic_speed None = graphic_speed (Some 0) /\
  length speed_gfx = 21%nat /\ length speed_val = 21%nat /\
  speed_val !! 0%nat = Some 0 /\
  (forall i v, (i < 20)%nat -> speed_val !! S i = Some v ->
     0 <= v /\ v ^ 3 <= 2 ^ (5 * Z.of_nat i) < (v + 1) ^ 3) /\
  (forall speed : Z,
     let k := graphic_index (Some speed) in
     speed_gfx !! k = Some (graphic_speed (Some speed)) /\
     exists vk, speed_val !! k = Some vk /\
       forall j vj, speed_val !! j = Some vj ->
         Z.abs (speed - vk) <= Z.abs (speed - vj) /\
         (Z.abs (speed - vk) = Z.abs (speed - vj) -> (j <= k)%nat)) /\
  (forall k v, speed_val !! k = Some v -> graphic_index (Some v) = k).
Proof.
  do 6 (split; [reflexivity|]). split; [|split].
  - apply speed_val_floor_power.
  - intros speed k. subst k.
    pose proof (graphic_index_closest (Some speed)) as Hc.
    split; [|exact Hc].
    destruct Hc as (vk & Hk & _). apply lookup_lt_Some in Hk.
    unfold graphic_speed.
    destruct (lookup_lt_is_Some_2 speed_gfx (graphic_index (Some speed)))
      as [g ->]; [exact Hk | reflexivity].
  - intros k v Hk.
    destruct (graphic_index_closest (Some v)) as (vk & Hvk & Hc).
    destruct (Hc k v Hk) as [Hle Hhi]. simpl in Hle, Hhi.
    assert (vk = v) as -> by lia.
    destruct (decide (graphic_index (Some v) = k)) as [E|E]; [exact E|].
    assert (k < graphic_index (Some v))%nat as Hlt by lia.
    pose proof (Sorted_lookup_lt Z.lt speed_val _ _ v v speed_val_sorted
                  Hlt Hk Hvk). lia.
Qed.

Lemma graphic_speed_closest_witness :
  graphic_index (Some 2) = 2%nat /\ graphic_index (Some 1024) = 7%nat /\
  (1 ^ 3 <= 2 ^ (5 * Z.of_nat 0) < (1 + 1) ^ 3).
Proof.
  destruct graphic_speed_closest as (_ & _ & _ & _ & _ & _ & Hfl & _ & Hat).
  split; [reflexivity|]. split.
  - apply (Hat 7%nat 1024). reflexivity.
  - apply (Hfl 0%nat 1); [lia | reflexivity].
Defined.

(** ** C9: no division by zero in [curve] *)



(** ** C10: comparison by value *)

(** C10.  Whenever the current and the target reading that [delta] selects
    are equal as (timestamp, counter) pairs, [delta] returns [None], also
    when they are two entries of the log recorded with the same timestamp and
    counter. *)
Theorem delta_equal_readings (self : Speedometer) (readings skip : Z)
    (current target : reading) :
  0 <= readings <= maxlog self -> 0 <= skip -> (0 < skip -> 0 < readings) ->
  skip < Z.of_nat (length (log self)) ->
  log self !! (length (log self) - Z.to_nat (skip + 1))%nat = Some current ->
  (readings = 0 /\ start self = Some target) \/
  (0 < readings /\ readings + skip < Z.of_nat (length (log self)) /\
   log self !! (length (log self) - Z.to_nat (readings + skip + 1))%nat
   = Some target) ->
  (target.1 == current.1)%Q -> target.2 = current.2 ->
  delta self readings skip = Return None.
Proof.
  intros Hr Hk Hkr Hn Hcur Htg Ht Hb.
  rewrite (delta_eval self readings skip current Hr Hk Hkr Hn Hcur).
  assert (pick_target self readings skip = Some target) as ->.
  { unfold pick_target. destruct Htg as [[-> Hst]|(Hpos & Hlt & Htg)].
    - exact Hst.
    - destruct (Z.eqb_spec readings 0); [lia|].
      destruct (Z.ltb_spec (readings + skip) (Z.of_nat (length (log self))));
        [exact Htg | lia]. }
  unfold delta_of.
  assert (reading_eqb target current = true) as ->; [|reflexivity].
  apply reading_eqb_spec. split; assumption.
Qed.

Lemma delta_equal_readings_witness :
  let s := session 5 [(0%Q, 0); (1%Q, 500); (1%Q, 500)] in
  log s !! 1%nat = Some (1%Q, 500) /\ log s !! 2%nat = Some (1%Q, 500) /\
  delta s 1 0 = Return None.
Proof.
  intros s. split; [reflexivity|]. split; [reflexivity|].
  apply (delta_equal_readings s 1 0 (1%Q, 500) (1%Q, 500)).
  - simpl. lia.
  - lia.
  - lia.
  - simpl. lia.
  - reflexivity.
  - right. split; [lia|]. split; [simpl; lia | reflexivity].
  - reflexivity.
  - reflexivity.
Defined.

(** * Further properties of the code *)

(** ** One update *)

Lemma log_update (self : Speedometer) (t : Q) (bytes : Z) :
  0 <= maxlog self ->
  log (update self t bytes) =
  drop (S (length (log self)) - Z.to_nat (maxlog self + 1))
       (log self ++ [(t, bytes)]).
Proof.
  intros Hm. unfold update. cbn [log].
  rewrite py_slice_from_last by lia.
  rewrite length_app. simpl length. f_equal. lia.
Qed.

(** X1.  In every state with [maxlog >= 0], [update] leaves the reading it
    was given as the newest entry of the log, keeps the older entries in
    their order behind it, dropping from the old end only, brings the length
    to [min (old length + 1) (maxlog + 1)] and does not touch [maxlog]. *)
Theorem update_appends_newest (self : Speedometer) (t : Q) (bytes : Z) :
  0 <= maxlog self ->
  let s' := update self t bytes in
  last (log s') = Some (t, bytes) /\
  log s' `suffix_of` log self ++ [(t, bytes)] /\
  length (log s') =
    (S (length (log self)) `min` Z.to_nat (maxlog self + 1))%nat /\
  maxlog s' = maxlog self.
Proof.
  intros Hm s'. subst s'. rewrite (log_update self t bytes Hm).
  set (M := Z.to_nat (maxlog self + 1)). assert (1 <= M)%nat by lia.
  repeat split.
  - rewrite last_lookup, lookup_drop, length_drop, length_app. simpl length.
    replace (S (length (log self)) - M
             + pred (length (log self) + 1 - (S (length (log self)) - M)))%nat
      with (length (log self) + 0)%nat by lia.
    rewrite lookup_app_r by lia.
    replace (length (log self) + 0 - length (log self))%nat with 0%nat by lia.
    reflexivity.
  - apply suffix_drop.
  - rewrite length_drop, length_app. simpl length. lia.
Qed.

Lemma update_appends_newest_witness :
  log (update scenario 3%Q 3500) =
  [(0%Q, 0); (1%Q, 1000); (2%Q, 3000); (3%Q, 3500)] /\
  last (log (update scenario 3%Q 3500)) = Some (3%Q, 3500).
Proof.
  split; [reflexivity|].
  destruct (update_appends_newest scenario 3%Q 3500) as (H & _).
  - simpl. lia.
  - exact H.
Defined.

(** ** What [delta] raises *)

(** X2.  In every state, consistent or not, [delta] raises nothing but the
    assertion failure, and raises it exactly on invalid arguments: its two
    index accesses are always in range. *)
Theorem delta_raises_iff (self : Speedometer) (readings skip : Z) (e : exn) :
  delta self readings skip = Raise e <->
  e = AssertionError /\
  (readings < 0 \/ maxlog self < readings \/ skip < 0 \/
   (0 < skip /\ readings = 0)).
Proof.
  split.
  - intros He.
    destruct (delta_cases self readings skip)
      as [[H Hbad]|[[H _]|(cur & _ & _ & _ & _ & H)]];
      rewrite H in He; try discriminate.
    injection He as <-. split; [reflexivity | exact Hbad].
  - intros [-> Hbad]. apply delta_rejects, Hbad.
Qed.

Lemma delta_raises_iff_witness :
  delta scenario 1 (-1) = Raise AssertionError /\
  delta scenario 5 2 <> Raise IndexError.
Proof.
  split.
  - apply (delta_raises_iff scenario 1 (-1) AssertionError).
    split; [reflexivity|]. right. right. left. lia.
  - intros H. apply (delta_raises_iff scenario 5 2 IndexError) in H.
    destruct H as [H _]. discriminate.
Defined.

(** ** Windows of a session *)

Lemma delta_session_window (m : Z) (samples : list reading)
    (readings skip : Z) :
  1 <= readings <= m -> 0 <= skip ->
  readings + skip < Z.of_nat (length samples `min` Z.to_nat (m + 1)) ->
  exists cur tg,
    samples !! (length samples - Z.to_nat (skip + 1))%nat = Some cur /\
    samples !! (length samples - Z.to_nat (readings + skip + 1))%nat
    = Some tg /\
    delta (session m samples) readings skip = Return (delta_of (Some tg) cur).
Proof.
  intros Hr Hk Hlt.
  assert (0 <= m) as Hm by lia.
  pose proof (length_log_session m samples Hm) as Hlen.
  pose proof (log_session m samples Hm) as Hlog.
  set (s := session m samples) in *.
  set (M := Z.to_nat (m + 1)) in *.
  destruct (lookup_lt_is_Some_2 samples
              (length samples - Z.to_nat (skip + 1))%nat) as [cur Hcur]; [lia|].
  destruct (lookup_lt_is_Some_2 samples
              (length samples - Z.to_nat (readings + skip + 1))%nat)
    as [tg Htg]; [lia|].
  exists cur, tg. split; [exact Hcur|]. split; [exact Htg|].
  assert (maxlog s = m) as Hmax
    by (unfold s, session; rewrite maxlog_record_all; reflexivity).
  rewrite (delta_eval s readings skip cur).
  - unfold pick_target.
    destruct (Z.eqb_spec readings 0); [lia|].
    destruct (Z.ltb_spec (readings + skip) (Z.of_nat (length (log s))));
      [|lia].
    rewrite Hlog, lookup_drop, length_drop.
    replace (length samples - M
             + (length samples - (length samples - M)
                - Z.to_nat (readings + skip + 1)))%nat
      with (length samples - Z.to_nat (readings + skip + 1))%nat by lia.
    rewrite Htg. reflexivity.
  - lia.
  - lia.
  - lia.
  - lia.
  - rewrite Hlog, lookup_drop, length_drop.
    replace (length samples - M
             + (length samples - (length samples - M)
                - Z.to_nat (skip + 1)))%nat
      with (length samples - Z.to_nat (skip + 1))%nat by lia.
    exact Hcur.
Qed.

Lemma delta_session_short (m : Z) (samples : list reading)
    (readings skip : Z) :
  1 <= readings <= m -> 0 <= skip ->
  Z.of_nat (length samples `min` Z.to_nat (m + 1)) <= readings + skip ->
  delta (session m samples) readings skip = Return None.
Proof.
  intros Hr Hk Hge.
  assert (0 <= m) as Hm by lia.
  pose proof (length_log_session m samples Hm) as Hlen.
  set (s := session m samples) in *.
  assert (maxlog s = m) as Hmax
    by (unfold s, session; rewrite maxlog_record_all; reflexivity).
  destruct (decide (Z.of_nat (length (log s)) <= skip)) as [Hs|Hs].
  - apply delta_short; lia.
  - destruct (lookup_lt_is_Some_2 (log s)
                (length (log s) - Z.to_nat (skip + 1))%nat) as [cur Hcur];
      [lia|].
    rewrite (delta_eval s readings skip cur); try lia; [|exact Hcur].
    unfold pick_target.
    destruct (Z.eqb_spec readings 0); [lia|].
    destruct (Z.ltb_spec (readings + skip) (Z.of_nat (length (log s))));
      [lia | reflexivity].
Qed.

Lemma time_lt_reading_eqb (tg cur : reading) :
  time_lt tg cur -> reading_eqb tg cur = false.
Proof.
  unfold time_lt. intros Hlt.
  destruct (reading_eqb tg cur) eqn:E; [|reflexivity].
  apply reading_eqb_spec in E as [E _]. rewrite E in Hlt.
  destruct (Qlt_irrefl _ Hlt).
Qed.



(** In the exact model the deltas of adjacent windows add up. *)
Lemma delta_session_additive (m : Z) (samples : list reading) (r1 r2 skip : Z)
    (t : Q) (b : Z) :
  Sorted time_lt samples ->
  1 <= r1 -> 1 <= r2 -> r1 + r2 <= m -> 0 <= skip ->
  delta (session m samples) (r1 + r2) skip = Return (Some (t, b)) ->
  exists t1 b1 t2 b2,
    delta (session m samples) r1 skip = Return (Some (t1, b1)) /\
    delta (session m samples) r2 (skip + r1) = Return (Some (t2, b2)) /\
    (t == t1 + t2)%Q /\ b = b1 + b2.
Proof.
  intros Hs H1 H2 Hm Hk Hd.
  set (retained := Z.of_nat (length samples `min` Z.to_nat (m + 1))).
  assert (r1 + r2 + skip < retained) as Hlt.
  { destruct (decide (r1 + r2 + skip < retained)) as [H|H]; [exact H|].
    rewrite (delta_session_short m samples (r1 + r2) skip) in Hd;
      [discriminate | lia | lia | unfold retained in H; lia]. }
  unfold retained in Hlt.
  destruct (delta_session_window m samples (r1 + r2) skip)
    as (cur & tg & Hcur & Htg & Hall); [lia..|].
  destruct (delta_session_window m samples r1 skip)
    as (cur1 & mid & Hcur1 & Hmid & Hnew); [lia..|].
  destruct (delta_session_window m samples r2 (skip + r1))
    as (mid2 & tg2 & Hmid2 & Htg2 & Hold); [lia..|].
  assert (cur1 = cur) as -> by congruence.
  replace (r1 + skip + 1) with (skip + r1 + 1) in Hmid by lia.
  assert (mid2 = mid) as -> by congruence.
  replace (r2 + (skip + r1) + 1) with (r1 + r2 + skip + 1) in Htg2 by lia.
  assert (tg2 = tg) as -> by congruence.
  assert (time_lt mid cur) as Hmc.
  { eapply (Sorted_lookup_lt time_lt samples); [exact Hs | | exact Hmid | exact Hcur].
    apply lookup_lt_Some in Hcur. lia. }
  assert (time_lt tg mid) as Htm.
  { eapply (Sorted_lookup_lt time_lt samples); [exact Hs | | exact Htg | exact Hmid].
    apply lookup_lt_Some in Hmid. lia. }
  assert (time_lt tg cur) as Htc by (etrans; eassumption).
  rewrite Hall in Hd. unfold delta_of in Hd, Hnew, Hold.
  rewrite (time_lt_reading_eqb _ _ Htc) in Hd.
  rewrite (time_lt_reading_eqb _ _ Hmc) in Hnew.
  rewrite (time_lt_reading_eqb _ _ Htm) in Hold.
  injection Hd as <- <-.
  eexists _, _, _, _. split; [exact Hnew|]. split; [exact Hold|].
  split; [ring | lia].
Qed.

(** The elapsed times of floats do not add up: with readings at the doubles
    0.1, 0.7 and 1.3 the two steps take 0.6000000000000001 and 0.6 seconds,
    the sum of which is not the 1.2 seconds of both steps together. *)
Example delta_times_not_additive :
  let s := session 5 [((3602879701896397 # 36028797018963968)%Q, 0);
                      ((3152519739159347 # 4503599627370496)%Q, 10);
                      ((5854679515581645 # 4503599627370496)%Q, 30)] in
  Float.delta s 2 0 =
    Return (Some (Finite (5404319552844595 # 4503599627370496), 30)) /\
  Float.delta s 1 0 =
    Return (Some (Finite (1351079888211149 # 2251799813685248), 20)) /\
  Float.delta s 1 1 =
    Return (Some (Finite (5404319552844595 # 9007199254740992), 10)) /\
  fadd (Finite (1351079888211149 # 2251799813685248))
       (Finite (5404319552844595 # 9007199254740992))
  <> Finite (5404319552844595 # 4503599627370496).
Proof. repeat split; vm_compute; try reflexivity. discriminate. Qed.

(** X4.  In a session with strictly increasing timestamps, take the delta
    over [r1 + r2] readings, the delta over the newest [r1] of them and the
    delta over the [r2] readings before those: the byte increases add up, and
    the three elapsed times are the doubles nearest to [t1 + t2], [t1] and
    [t2] for two exact times [t1] and [t2]. *)
Theorem delta_additive (m : Z) (samples : list reading) (r1 r2 skip : Z)
    (a : float) (b : Z) :
  Sorted time_lt samples ->
  1 <= r1 -> 1 <= r2 -> r1 + r2 <= m -> 0 <= skip ->
  Float.delta (session m samples) (r1 + r2) skip = Return (Some (a, b)) ->
  exists (t1 t2 : Q) (b1 b2 : Z),
    Float.delta (session m samples) r1 skip = Return (Some (fl t1, b1)) /\
    Float.delta (session m samples) r2 (skip + r1)
    = Return (Some (fl t2, b2)) /\
    a = fl (t1 + t2) /\ b = b1 + b2.
Proof.
  intros Hs H1 H2 Hm Hk Hd.
  apply delta_float_inv in Hd as (t & Hd & ->).
  destruct (delta_session_additive m samples r1 r2 skip t b Hs H1 H2 Hm Hk Hd)
    as (t1 & b1 & t2 & b2 & Hd1 & Hd2 & Et & Eb).
  exists t1, t2, b1, b2.
  split; [apply delta_float, Hd1|]. split; [apply delta_float, Hd2|].
  split; [apply fl_comp, Et | exact Eb].
Qed.

Lemma delta_additive_witness :
  exists (t1 t2 : Q) (b1 b2 : Z),
    Float.delta scenario 1 0 = Return (Some (fl t1, b1)) /\
    Float.delta scenario 1 1 = Return (Some (fl t2, b2)) /\
    Finite 2 = fl (t1 + t2) /\ 3000 = b1 + b2.
Proof.
  apply (delta_additive 5 [(0%Q, 0); (1%Q, 1000); (2%Q, 3000)] 1 1 0).
  - repeat constructor; unfold time_lt, Qlt; simpl; lia.
  - lia.
  - lia.
  - lia.
  - lia.
  - vm_compute. reflexivity.
Defined.

(** X5.  As long as no reading has been dropped ([2 <= n <= maxlog + 1]
    readings recorded), the delta since the start, [delta(0, 0)], is the
    delta over the whole log, [delta(n - 1, 0)]. *)
Theorem delta_start_is_widest_window (m : Z) (samples : list reading) :
  (2 <= length samples)%nat -> Z.of_nat (length samples) <= m + 1 ->
  delta (session m samples) 0 0 =
  delta (session m samples) (Z.of_nat (length samples) - 1) 0.
Proof.
  intros Hn Hm.
  destruct (delta_session_window m samples (Z.of_nat (length samples) - 1) 0)
    as (cur & tg & Hcur & Htg & ->); [lia..|].
  replace (length samples - Z.to_nat (Z.of_nat (length samples) - 1 + 0 + 1))%nat
    with 0%nat in Htg by lia.
  apply delta_from_start.
  - lia.
  - rewrite head_lookup. exact Htg.
  - rewrite last_lookup, <- Hcur. f_equal. lia.
Qed.

Lemma delta_start_is_widest_window_witness :
  delta scenario 0 0 = delta scenario 2 0.
Proof.
  apply (delta_start_is_widest_window 5 [(0%Q, 0); (1%Q, 1000); (2%Q, 3000)]).
  - simpl. lia.
  - simpl. lia.
Defined.

(** ** More on [delta_to_speed] *)




(** ** More on [curve] *)

(** The rounded number of milliseconds of at least one millisecond: within a
    rounding error below, and at least half of, the exact number. *)
Lemma round64_ms_near (x : Q) :
  (1 <= x)%Q ->
  (inject_Z (long (round64 x)) <= x * (1 + ulp))%Q /\
  (x <= 2 * inject_Z (long (round64 x)))%Q.
Proof.
  intros Hx. pose proof ulp_small as [Hu0 Hu1].
  destruct (round64_error x) as [He1 He2].
  { pose proof (pow2_le (-1022) 0 ltac:(lia)) as H. change (pow2 0) with 1%Q in H. lra. }
  fold ulp in He1, He2.
  pose proof (round64_ge_pow2 x 0 ltac:(change (pow2 0) with 1%Q; lra) ltac:(lia))
    as Hr1.
  change (pow2 0) with 1%Q in Hr1.
  rewrite long_nonneg by lra.
  pose proof (Qfloor_le (round64 x)) as Hf1.
  pose proof (Qlt_floor (round64 x)) as Hf2.
  rewrite inject_Z_plus in Hf2. change (inject_Z 1) with 1%Q in Hf2.
  split; [lra|].
  destruct (Qlt_le_dec x 2) as [H2|H2].
  - assert (1 <= Qfloor (round64 x)) as H
      by (change 1 with (Qfloor 1); apply Qfloor_resp_le, Hr1).
    rewrite Zle_Qle in H. change (inject_Z 1) with 1%Q in H. lra.
  - pose proof (round64_ge_pow2 x 1 ltac:(change (pow2 1) with 2%Q; lra) ltac:(lia))
      as Hr2.
    change (pow2 1) with 2%Q in Hr2.
    assert (2 <= Qfloor (round64 x)) as H
      by (change 2 with (Qfloor 2); apply Qfloor_resp_le, Hr2).
    rewrite Zle_Qle in H. change (inject_Z 2) with 2%Q in H.
    destruct (Qlt_le_dec x 4) as [H4|H4]; [lra|].
    assert (ulp <= 1 # 4)%Q as Hu4 by (vm_compute; discriminate).
    assert (x * (3 # 4) <= x * (1 - ulp))%Q by (apply Qmult_le_l; lra).
    lra.
Qed.

(** X7.  For a float elapsed time [t] of at least a millisecond and an
    integer byte increase [b >= 0], [delta_to_speed] returns a rate that is
    at least the whole part of the true rate [b / t] lowered by one rounding
    error (the factor [1 - 2^-53]), and at most the whole part of twice that
    rate: truncating the time to whole milliseconds can only raise the
    result, rounding the product [t * 1000] can lower it by one part in
    [2^53]. *)
Theorem delta_to_speed_overestimates (t : Q) (b : Z) :
  (1 # 1000 <= t)%Q -> (t <= pow2 1000)%Q -> 0 <= b ->
  exists v,
    Float.delta_to_speed (Float.Flt (Finite t), Float.Int b) = Return v /\
    Qfloor (inject_Z b / t * (1 - ulp)) <= v <= Qfloor (2 * (inject_Z b / t)).
Proof.
  intros Hms Hmax Hb. pose proof ulp_small as [Hu0 Hu1].
  assert (0 < t)%Q as Ht by lra.
  assert (1 <= t * 1000)%Q as Hx by lra.
  destruct (round64_ms_near (t * 1000) Hx) as [Hm1 Hm2].
  pose proof (round64_ms_ge_1 t Hms) as Hm.
  set (m := long (round64 (t * 1000))) in *.
  exists (b * 1000 / m). split.
  - unfold Float.delta_to_speed. cbn [Float.le0].
    assert (Qle_bool t 0 = false) as ->.
    { destruct (Qle_bool t 0) eqn:E; [|reflexivity].
      apply Qle_bool_iff in E. lra. }
    rewrite long_times1000_float by lra. fold m. rewrite bind_Return.
    destruct (Z.eqb_spec m 0); [lia|]. reflexivity.
  - assert (0 < inject_Z m)%Q as Hmq
      by (change 0%Q with (inject_Z 0); rewrite <- Zlt_Qlt; lia).
    assert (0 <= inject_Z b)%Q as Hbq
      by (change 0%Q with (inject_Z 0); rewrite <- Zle_Qle; lia).
    set (rho := (inject_Z b / t)%Q).
    assert (0 <= rho)%Q as Hrho by (apply Qle_shift_div_l; lra).
    assert (inject_Z (b * 1000) == rho * (t * 1000))%Q as Hb1000
      by (unfold rho; rewrite inject_Z_mult; change (inject_Z 1000) with 1000%Q;
          field; lra).
    rewrite (Zdiv_Qdiv (b * 1000) m).
    split; apply Qfloor_resp_le.
    + apply Qle_shift_div_l; [exact Hmq|]. rewrite Hb1000.
      assert (0 <= rho * (1 - ulp))%Q as E0
        by (apply Qmult_le_0_compat; lra).
      assert (inject_Z m * (rho * (1 - ulp))
              <= t * 1000 * (1 + ulp) * (rho * (1 - ulp)))%Q as E1
        by (apply Qmult_le_compat_r; [exact Hm1 | exact E0]).
      assert (t * 1000 * (1 + ulp) * (rho * (1 - ulp)) ==
              rho * (t * 1000) - rho * (t * 1000) * (ulp * ulp))%Q as E2 by ring.
      assert (0 <= rho * (t * 1000) * (ulp * ulp))%Q as E3.
      { apply Qmult_le_0_compat; [apply Qmult_le_0_compat; lra|].
        apply Qmult_le_0_compat; lra. }
      lra.
    + apply Qle_shift_div_r; [exact Hmq|]. rewrite Hb1000.
      assert (t * 1000 * rho <= 2 * inject_Z m * rho)%Q as E1
        by (apply Qmult_le_compat_r; [exact Hm2 | exact Hrho]).
      lra.
Qed.

Lemma delta_to_speed_overestimates_witness :
  exists v,
    Float.delta_to_speed
      (Float.Flt (Finite (5188146770730811 # 576460752303423488)),
       Float.Int 9000000000000000) = Return v /\
    Qfloor (inject_Z 9000000000000000 /
            (5188146770730811 # 576460752303423488) * (1 - ulp)) <= v <=
    Qfloor (2 * (inject_Z 9000000000000000 /
                 (5188146770730811 # 576460752303423488))).
Proof.
  apply delta_to_speed_overestimates.
  - unfold Qle; simpl; lia.
  - vm_compute. discriminate.
  - lia.
Defined.

(** X8.  Whenever the newest single-step delta is available and every
    available one of the six newest is a step of [2^-60] to [2^60] seconds
    and of [0 <= b < 2^50] bytes, at a rate [b / t] between [lo >= 0] and
    [hi <= 2^50], [curve] returns a rate between the whole parts of
    [lo * (1 - 8 * 2^-53)] and [hi * (1 + 9 * 2^-53)]: smoothing leaves the
    range of the rates it blends by no more than the rounding errors of its
    float operations. *)
Theorem curve_within_step_rates (spd : Speedometer) (lo hi : Q) :
  (0 <= lo)%Q -> (hi <= pow2 50)%Q ->
  (forall k a b, 0 <= k < 6 ->
     Float.delta spd 1 k = Return (Some (a, b)) ->
     exists t, a = Finite t /\ (pow2 (-60) <= t)%Q /\ (t <= pow2 60)%Q /\
               0 <= b < 2 ^ 50 /\
               (lo <= inject_Z b / t)%Q /\ (inject_Z b / t <= hi)%Q) ->
  (exists d, Float.delta spd 1 0 = Return (Some d)) ->
  exists v, Float.curve spd = Return v /\
            Qfloor (lo * (1 - 8 * ulp)) <= v <= Qfloor (hi * (1 + 9 * ulp)).
Proof.
  intros Hlo Hhi Hsteps Hnew.
  apply curve_between_rates; try assumption.
  destruct Hnew as [d Hd]. unfold Float.delta, assert in Hd.
  destruct (Z.leb_spec 1 (maxlog spd)) as [H|H]; [exact H | discriminate].
Qed.

Lemma curve_within_step_rates_witness :
  exists v, Float.curve scenario = Return v /\ 999 <= v <= 2000.
Proof.
  apply (curve_within_step_rates scenario 1000%Q 2000%Q).
  - discriminate.
  - vm_compute. discriminate.
  - intros k a b Hk Hd.
    assert (k = 0 \/ k = 1 \/ k = 2 \/ 3 <= k) as [->|[->|[->|Hk2]]] by lia.
    + injection Hd as <- <-. exists 1%Q.
      repeat split; try (vm_compute; discriminate); try reflexivity; pow_arith.
    + injection Hd as <- <-. exists 1%Q.
      repeat split; try (vm_compute; discriminate); try reflexivity; pow_arith.
    + discriminate.
    + rewrite delta_rounds, (delta_short scenario 1 k) in Hd;
        [discriminate | simpl; lia | lia | lia |].
      change (Z.of_nat (length (log scenario))) with 3. lia.
  - eexists. reflexivity.
Defined.

(** The single-step deltas of a session whose readings are all [k / 8]
    seconds and [b] bytes apart. *)
Lemma uniform_session_steps (m : Z) (samples : list reading) (k b : Z) :
  1 <= m -> 0 < k < 2 ^ 40 ->
  (forall i r r', samples !! i = Some r -> samples !! S i = Some r' ->
     (r'.1 - r.1 == inject_Z k / 8)%Q /\ r'.2 - r.2 = b) ->
  uniform_steps (session m samples) (inject_Z k / 8) b 0
    ((length samples `min` Z.to_nat (m + 1) - 1) `min` 6)
    (length curve_val).
Proof.
  intros Hm Hk Hstep.
  set (retained := (length samples `min` Z.to_nat (m + 1))%nat).
  assert (0 < inject_Z k)%Q as Hkq
    by (change 0%Q with (inject_Z 0); rewrite <- Zlt_Qlt; lia).
  assert (0 < inject_Z k / 8)%Q as Ht8
    by (apply Qlt_shift_div_l; [reflexivity | lra]).
  split; [|split].
  - intros i Hi.
    assert (1 + i < Z.of_nat retained) as Hlt by lia.
    destruct (delta_session_window m samples 1 i) as (cur & tg & Hcur & Htg & Hd);
      [lia | lia | exact Hlt |].
    replace (length samples - Z.to_nat (i + 1))%nat
      with (S (length samples - Z.to_nat (1 + i + 1)))%nat in Hcur
      by (unfold retained in Hlt; lia).
    destruct (Hstep _ tg cur Htg Hcur) as [Et Eb].
    exists (Qred (cur.1 - tg.1)). split; [|rewrite Qred_correct; exact Et].
    rewrite (delta_float _ 1 i (cur.1 - tg.1)%Q b).
    + f_equal. f_equal. f_equal.
      apply (fl_exact _ k (-3)); [|rewrite Z.abs_eq by lia; pow_arith | lia].
      rewrite Et. change (pow2 (-3)) with (1 # 8)%Q. field.
    + rewrite Hd. unfold delta_of.
      assert (reading_eqb tg cur = false) as ->.
      { apply time_lt_reading_eqb. unfold time_lt.
        rewrite (Qlt_minus_iff tg.1 cur.1).
        change (0 < cur.1 - tg.1)%Q. rewrite Et. exact Ht8. }
      rewrite Eb. reflexivity.
  - intros Hlt. apply delta_float_None, delta_session_short; [lia | lia |].
    fold retained. simpl in Hlt. lia.
  - simpl. lia.
Qed.

(** X9.  In a session of two or more readings that are all [k / 8] seconds
    and [b] bytes apart, with [0 <= b < 2^39] and a rate below [2^38] bytes
    per second, and with any capacity [maxlog >= 1], [curve] returns the
    whole part [b * 8 / k] of the rate, however few steps the log holds
    yet. *)
Theorem curve_uniform_session (m : Z) (samples : list reading) (k b : Z) :
  1 <= m -> (2 <= length samples)%nat ->
  0 < k < 2 ^ 40 -> 0 <= b < 2 ^ 39 -> b * 8 < 2 ^ 38 * k ->
  (forall i r r', samples !! i = Some r -> samples !! S i = Some r' ->
     (r'.1 - r.1 == inject_Z k / 8)%Q /\ r'.2 - r.2 = b) ->
  Float.curve (session m samples) = Return (b * 8 / k).
Proof.
  intros Hm Hn Hk Hb Hrate Hstep.
  rewrite (curve_uniform_rate (session m samples) (inject_Z k / 8) b (125 * k)
             ltac:(rewrite inject_Z_mult; field) ltac:(pow_arith) Hb ltac:(pow_arith)
             ((length samples `min` Z.to_nat (m + 1) - 1) `min` 6)).
  - f_equal. replace (b * 1000) with (b * 8 * 125) by ring.
    rewrite (Z.mul_comm 125 k). apply Z.div_mul_cancel_r; lia.
  - lia.
  - apply uniform_session_steps; assumption.
Qed.

Lemma curve_uniform_session_witness :
  Float.curve (session 3 [(0%Q, 0); ((3 # 2)%Q, 1000); (3%Q, 2000)])
  = Return 666.
Proof.
  rewrite (curve_uniform_session 3 _ 12 1000).
  - reflexivity.
  - lia.
  - simpl. lia.
  - pow_arith.
  - pow_arith.
  - pow_arith.
  - intros [|[|[|i]]] r r' Hr Hr'; try discriminate;
      injection Hr as <-; injection Hr' as <-; split; reflexivity.
Defined.

(** X10.  Before the second reading is recorded there is nothing to measure:
    [speed(1)] and [speed()] return [None], while [curve] returns the
    rate 0. *)
Theorem first_reading_speeds (m : Z) (samples : list reading) :
  1 <= m -> (length samples <= 1)%nat ->
  speed (session m samples) 1 0 = Return None /\
  curve (session m samples) = Return 0 /\
  (length samples = 1%nat -> speed (session m samples) 0 0 = Return None).
Proof.
  intros Hm Hn.
  assert (delta (session m samples) 1 0 = Return None) as Hd
    by (apply delta_session_short; lia).
  split; [|split].
  - unfold speed. rewrite Hd. reflexivity.
  - unfold curve, curve_val. cbn [curve_loop]. rewrite Hd. reflexivity.
  - intros H1. destruct samples as [|r [|? ?]]; try discriminate.
    unfold speed.
    rewrite (delta_from_start m [r] r r ltac:(lia) eq_refl eq_refl).
    unfold delta_of. rewrite reading_eqb_refl. reflexivity.
Qed.

Lemma first_reading_speeds_witness :
  speed (session 6 [(5%Q, 700)]) 1 0 = Return None /\
  curve (session 6 [(5%Q, 700)]) = Return 0 /\
  speed (session 6 [(5%Q, 700)]) 0 0 = Return None.
Proof.
  destruct (first_reading_speeds 6 [(5%Q, 700)]) as (H1 & H2 & H3).
  - lia.
  - simpl. lia.
  - split; [exact H1|]. split; [exact H2|]. apply H3. reflexivity.
Defined.

(** ** The width of [readable_speed] *)

Lemma append_assoc (s1 s2 s3 : string) :
  (s1 +:+ s2) +:+ s3 = s1 +:+ (s2 +:+ s3).
Proof.
  induction s1 as [|c s1 IH]; [reflexivity|].
  change (String c ((s1 +:+ s2) +:+ s3) = String c (s1 +:+ (s2 +:+ s3))).
  f_equal. exact IH.
Qed.

Lemma length_pretty_N_go_lt (k : nat) :
  forall (x : N) (s : string),
    (x < 10 ^ N.of_nat k)%N ->
    (String.length (pretty_N_go x s) <= String.length s + k)%nat.
Proof.
  induction k as [|k IH]; intros x s Hx.
  - assert (x = 0%N) as -> by (change (10 ^ N.of_nat 0)%N with 1%N in Hx; lia).
    rewrite pretty_N_go_0. lia.
  - destruct (decide (x = 0)%N) as [->|Hnz]; [rewrite pretty_N_go_0; lia|].
    rewrite pretty_N_go_step by lia.
    etrans; [apply IH|simpl; lia].
    apply N.Div0.div_lt_upper_bound.
    replace (N.of_nat (S k)) with (N.succ (N.of_nat k)) in Hx by lia.
    rewrite N.pow_succ_r' in Hx. exact Hx.
Qed.

(** A number below 10000 prints with at most four digits. *)
Lemma length_pretty_4 (n : Z) :
  0 <= n < 10000 -> (String.length (pretty n) <= 4)%nat.
Proof.
  intros Hn. destruct n as [|p|p]; try lia.
  - simpl. lia.
  - change (pretty (Z.pos p)) with (pretty (N.pos p)).
    unfold pretty, pretty_N. destruct (decide (N.pos p = 0)%N); [lia|].
    apply (length_pretty_N_go_lt 4 (N.pos p) "").
    change (10 ^ N.of_nat 4)%N with 10000%N. lia.
Qed.

Lemma length_fmt_d_4 (n : Z) :
  0 <= n < 10000 -> String.length (fmt_d 4 n +:+ " ") = 5%nat.
Proof.
  intros Hn. unfold fmt_d. rewrite length_append, length_pad_left.
  pose proof (length_pretty_4 n Hn). simpl. lia.
Qed.

Lemma length_fmt_f_4 (prec : nat) (x : Q) :
  (5 <= String.length (fmt_f 4 prec x +:+ " "))%nat.
Proof.
  unfold fmt_f. rewrite length_append, length_pad_left. simpl. lia.
Qed.

(** The iteration of the loop at which [readable_speed] returns. *)
Lemma readable_loop_return (u : string) (us : list string) (v step : Z) :
  0 < step -> 0 <= v < 1024 * step ->
  exists field,
    readable_loop (u :: us) v step = field +:+ u /\
    String.length field = 5%nat.
Proof.
  intros Hstep Hv. cbn [readable_loop].
  set (x := (inject_Z v / inject_Z step)%Q).
  pose proof (length_fmt_f_4 2 x) as H2.
  pose proof (length_fmt_f_4 1 x) as H1.
  destruct ((1 <? step) && (String.length (fmt_f 4 2 x +:+ " ") <=? 5)%nat)
    eqn:E2.
  { apply andb_true_iff in E2 as [_ E2]. apply Nat.leb_le in E2.
    eexists. split; [reflexivity | lia]. }
  destruct ((1 <? step) && (String.length (fmt_f 4 1 x +:+ " ") <=? 5)%nat)
    eqn:E1.
  { apply andb_true_iff in E1 as [_ E1]. apply Nat.leb_le in E1.
    eexists. split; [reflexivity | lia]. }
  assert (0 <= v / step < 1024) as Hq.
  { split; [apply Z.div_pos; lia | apply Z.div_lt_upper_bound; lia]. }
  destruct (Z.ltb_spec (v / step) 1024); [|lia].
  exists (fmt_d 4 (v / step) +:+ " "). split.
  - symmetry. apply append_assoc.
  - apply length_fmt_d_4. lia.
Qed.

(** X11.  [readable_speed] picks the unit by the binary magnitude of the
    rate and prints a number field of exactly five characters before it:
    B/s below 1024, KiB/s below [1024^2], MiB/s below [1024^3], GiB/s below
    [1024^4], and TiB/s from there up to [10000 * 1024^4], where the field
    starts to overflow. *)
Theorem readable_speed_unit_and_width (k : nat) (u : string) (v : Z) :
  units !! k = Some u ->
  (if decide (k = 0%nat) then 0 else 1024 ^ Z.of_nat k) <= v ->
  v < (if decide (k = 4%nat) then 10000 * 1024 ^ 4
       else 1024 ^ Z.of_nat (S k)) ->
  exists field,
    readable_speed (Some v) = field +:+ u /\ String.length field = 5%nat.
Proof.
  intros Hu Hlo Hhi. unfold readable_speed.
  assert (0 <= v) as Hv0 by (destruct (decide (k = 0%nat)); lia).
  destruct (Z.ltb_spec v 0); [lia|].
  unfold units in *.
  destruct k as [|[|[|[|[|k]]]]]; try discriminate;
    injection Hu as <-; cbn [decide_rel decide Nat.eq_dec] in Hlo, Hhi;
    simpl in Hlo, Hhi.
  - apply readable_loop_return; lia.
  - rewrite readable_loop_next by lia. apply readable_loop_return; lia.
  - rewrite 2!readable_loop_next by lia. apply readable_loop_return; lia.
  - rewrite 3!readable_loop_next by lia. apply readable_loop_return; lia.
  - rewrite 4!readable_loop_next by lia.
    destruct (decide (v < 1024 ^ 5)) as [Hlt|Hge].
    + apply readable_loop_return; [lia|].
      change (1024 ^ 5) with 1125899906842624 in Hlt. lia.
    + change (1024 ^ 5) with 1125899906842624 in Hge.
      rewrite readable_loop_next by lia.
      exists (fmt_d 4 (v / 1099511627776) +:+ " "). split.
      * symmetry. apply append_assoc.
      * apply length_fmt_d_4. split; [apply Z.div_pos; lia|].
        apply Z.div_lt_upper_bound; lia.
Qed.

Lemma readable_speed_unit_and_width_witness :
  exists field,
    readable_speed (Some 5000000) = field +:+ "MiB/s" /\
    String.length field = 5%nat.
Proof.
  apply (readable_speed_unit_and_width 2 "MiB/s" 5000000).
  - reflexivity.
  - simpl. lia.
  - simpl. lia.
Defined.

(** ** The scale of [graphic_speed] *)

Lemma graphic_index_mono (s1 s2 : Z) :
  s1 <= s2 -> (graphic_index (Some s1) <= graphic_index (Some s2))%nat.
Proof.
  intros Hs.
  destruct (graphic_index_closest (Some s1)) as (v1 & Hk1 & Hc1).
  destruct (graphic_index_closest (Some s2)) as (v2 & Hk2 & Hc2).
  cbn [from_option id] in Hc1, Hc2.
  destruct (decide (graphic_index (Some s1) <= graphic_index (Some s2))%nat)
    as [H|H]; [exact H|].
  assert (graphic_index (Some s2) < graphic_index (Some s1))%nat as Hlt by lia.
  pose proof (Sorted_lookup_lt Z.lt speed_val _ _ v2 v1 speed_val_sorted
                Hlt Hk2 Hk1) as Hv.
  destruct (Hc1 _ v2 Hk2) as [H1 _].
  destruct (Hc2 _ v1 Hk1) as [H2 H2e].
  assert (Z.abs (s2 - v2) <> Z.abs (s2 - v1)) by (intros E; apply H2e in E; lia).
  lia.
Qed.

Lemma graphic_index_lt (speed : option Z) : (graphic_index speed < 21)%nat.
Proof.
  destruct (graphic_index_closest speed) as (vk & Hk & _).
  apply lookup_lt_Some in Hk. exact Hk.
Qed.

(** X12.  The glyph never goes down when the rate goes up:
    [graphic_speed] is monotone in the rate, through the index of the glyph
    it returns. *)
Theorem graphic_speed_monotone (s1 s2 : Z) :
  s1 <= s2 ->
  (graphic_index (Some s1) <= graphic_index (Some s2))%nat /\
  speed_gfx !! graphic_index (Some s1) = Some (graphic_speed (Some s1)) /\
  speed_gfx !! graphic_index (Some s2) = Some (graphic_speed (Some s2)).
Proof.
  intros Hs. split; [apply graphic_index_mono, Hs|].
  unfold graphic_speed.
  split.
  - destruct (lookup_lt_is_Some_2 speed_gfx (graphic_index (Some s1)))
      as [g ->]; [apply graphic_index_lt | reflexivity].
  - destruct (lookup_lt_is_Some_2 speed_gfx (graphic_index (Some s2)))
      as [g ->]; [apply graphic_index_lt | reflexivity].
Qed.

Lemma graphic_speed_monotone_witness :
  (graphic_index (Some 500%Z) <= graphic_index (Some 70000%Z))%nat.
Proof.
  destruct (graphic_speed_monotone 500 70000) as [H _]; [lia | exact H].
Defined.

Lemma speed_gfx_NoDup : NoDup speed_gfx.
Proof. apply (bool_decide_unpack _). vm_compute. exact I. Qed.

Lemma graphic_index_ends (speed : option Z) :
  (graphic_index speed = 0%nat <-> default 0 speed <= 0) /\
  (graphic_index speed = 20%nat <-> 2241329813 <= default 0 speed).
Proof.
  assert (graphic_index speed = graphic_index (Some (default 0 speed))) as ->
    by (destruct speed; reflexivity).
  set (v := default 0 speed). split; split.
  - intros H0. destruct (decide (v <= 0)) as [H|H]; [exact H|].
    pose proof (graphic_index_mono 1 v ltac:(lia)) as Hm.
    change (graphic_index (Some 1)) with 1%nat in Hm. lia.
  - intros Hv. pose proof (graphic_index_mono v 0 Hv) as Hm.
    change (graphic_index (Some 0)) with 0%nat in Hm. lia.
  - intros H20. destruct (decide (2241329813 <= v)) as [H|H]; [exact H|].
    pose proof (graphic_index_mono v 2241329812 ltac:(lia)) as Hm.
    change (graphic_index (Some 2241329812)) with 19%nat in Hm. lia.
  - intros Hv. pose proof (graphic_index_mono 2241329813 v Hv) as Hm.
    change (graphic_index (Some 2241329813)) with 20%nat in Hm.
    pose proof (graphic_index_lt (Some v)). lia.
Qed.

(** X13.  [graphic_speed] always returns one of the 21 glyphs, the one at
    [graphic_index], a string of 21 characters; no two glyphs of the table
    are equal; the empty bar is returned exactly for the rates [<= 0] (and
    [None]), the full bar exactly for the rates of 2241329813 B/s and
    more. *)
Theorem graphic_speed_range (speed : option Z) :
  speed_gfx !! graphic_index speed = Some (graphic_speed speed) /\
  (graphic_index speed < 21)%nat /\
  String.length (graphic_speed speed) = 21%nat /\
  NoDup speed_gfx /\
  (graphic_speed speed = "\                    " <-> default 0 speed <= 0) /\
  (graphic_speed speed = "...:::+++###%%%//////"
   <-> 2241329813 <= default 0 speed).
Proof.
  pose proof (graphic_index_lt speed) as Hlt.
  pose proof speed_gfx_NoDup as Hnd.
  destruct (graphic_index_ends speed) as [H0 H20].
  assert (speed_gfx !! graphic_index speed = Some (graphic_speed speed)) as Hg.
  { unfold graphic_speed.
    destruct (lookup_lt_is_Some_2 speed_gfx (graphic_index speed)) as [g ->];
      [exact Hlt | reflexivity]. }
  split; [exact Hg|]. split; [exact Hlt|]. split; [|split; [exact Hnd|]].
  - assert (Forall (fun g => String.length g = 21%nat) speed_gfx) as Hall
      by (unfold speed_gfx; repeat constructor).
    rewrite Forall_lookup in Hall. apply (Hall _ _ Hg).
  - split.
    + rewrite <- H0. split.
      * intros E. rewrite E in Hg.
        apply (NoDup_lookup _ _ _ _ Hnd Hg). reflexivity.
      * intros E. rewrite E in Hg. simpl in Hg. congruence.
    + rewrite <- H20. split.
      * intros E. rewrite E in Hg.
        apply (NoDup_lookup _ _ _ _ Hnd Hg). reflexivity.
      * intros E. rewrite E in Hg. simpl in Hg. congruence.
Qed.

Lemma graphic_speed_range_witness :
  graphic_speed (Some (-3)) = "\                    " /\
  graphic_speed (Some 3000000000) = "...:::+++###%%%//////".
Proof.
  split.
  - apply (graphic_speed_range (Some (-3))). simpl. lia.
  - apply (graphic_speed_range (Some 3000000000)). simpl. lia.
Defined.

(** ** The polling loop *)

Lemma Sorted_app_l {A : Type} (R : relation A) (l1 l2 : list A) :
  Sorted R (l1 ++ l2) -> Sorted R l1.
Proof.
  induction l1 as [|a l1 IH]; intros Hs; [constructor|].
  simpl in Hs. apply Sorted_inv in Hs as [Hs Hhd].
  constructor; [apply IH, Hs|].
  destruct l1; [constructor|]. simpl in Hhd. apply HdRel_inv in Hhd.
  constructor. exact Hhd.
Qed.

Lemma session_snoc (m : Z) (pre : list reading) (r : reading) :
  update (session m pre) r.1 r.2 = session m (pre ++ [r]).
Proof. unfold session. rewrite record_all_snoc. reflexivity. Qed.

#[local] Instance tick_lt_trans : Transitive tick_lt.
Proof.
  intros a b c. unfold tick_lt. pose proof (pow2_pos (-20)). lra.
Qed.

Lemma ticking_app_l (l1 l2 : list reading) : ticking (l1 ++ l2) -> ticking l1.
Proof.
  intros (H1 & H2 & H3). split; [|split].
  - apply (Sorted_app_l _ _ _ H1).
  - apply (Sorted_app_l _ _ _ H2).
  - apply Forall_app in H3. tauto.
Qed.

(** A delta of a run: a time between [2^-20] and [2^40] seconds, a byte
    increase below [2^64]. *)
Lemma delta_float_ticking (m : Z) (samples : list reading)
    (readings skip : Z) (a : float) (b : Z) :
  ticking samples ->
  Float.delta (session m samples) readings skip = Return (Some (a, b)) ->
  exists tt, a = Finite tt /\ (pow2 (-20) <= tt)%Q /\ (tt <= pow2 40)%Q /\
             0 <= b < 2 ^ 64.
Proof.
  intros (Ht & Hc & Hr) Hd.
  apply delta_float_inv in Hd as (t & Hd & ->).
  apply delta_session_inv in Hd
    as (i & j & tg & cur & Hij & Hi & Hj & _ & -> & ->).
  pose proof (Sorted_lookup_lt tick_lt samples i j tg cur Ht Hij Hi Hj) as Hlt.
  pose proof (Sorted_lookup_lt counter_le samples i j tg cur Hc Hij Hi Hj) as Hle.
  rewrite Forall_lookup in Hr.
  destruct (Hr _ _ Hi) as (Hg0 & Hg1 & Hg2).
  destruct (Hr _ _ Hj) as (Hc0 & Hc1 & Hc2).
  unfold tick_lt in Hlt. unfold counter_le in Hle.
  assert (pow2 (-20) <= cur.1 - tg.1)%Q as Hlo by lra.
  assert (cur.1 - tg.1 <= pow2 40)%Q as Hhi by lra.
  pose proof (pow2_pos (-20)) as Hp.
  exists (round64 (cur.1 - tg.1)). split; [|split; [|split]].
  - apply (fl_finite _ 40); [lra | exact Hhi | lia].
  - apply round64_ge_pow2; [exact Hlo | lia].
  - apply round64_le_pow2; [lra | exact Hhi | lia].
  - lia.
Qed.

Lemma delta_to_speed_ticking (tt : Q) (b : Z) :
  (pow2 (-20) <= tt)%Q -> (tt <= pow2 40)%Q -> 0 <= b < 2 ^ 64 ->
  exists v, Float.delta_to_speed (Float.Flt (Finite tt), Float.Int b) = Return v /\
            0 <= v < 2 ^ 80.
Proof.
  intros Hlo Hhi Hb. pose proof (pow2_pos (-20)) as Hp.
  unfold Float.delta_to_speed. cbn [Float.le0 Float.times1000 Float.long fmul].
  assert (Qle_bool tt 0 = false) as ->.
  { destruct (Qle_bool tt 0) eqn:E; [|reflexivity].
    apply Qle_bool_iff in E. lra. }
  assert (0 <= tt * 1000)%Q as H0 by lra.
  assert (tt * 1000 <= pow2 50)%Q as H1.
  { assert (pow2 40 * 1000 <= pow2 50)%Q by (vm_compute; discriminate). lra. }
  rewrite (fl_finite _ 50 H0 H1) by lia. rewrite bind_Return.
  pose proof (long_ge_0 _ (round64_nonneg _ H0)) as Hms.
  set (ms := long (round64 (tt * 1000))) in *.
  destruct (Z.eqb_spec ms 0) as [|Hnz].
  - exists 0. split; [reflexivity | pow_arith].
  - exists (b * 1000 / ms). split; [reflexivity|]. split.
    + apply Z.div_pos; lia.
    + apply Z.div_lt_upper_bound; [lia|].
      change (2 ^ 64) with 18446744073709551616 in Hb.
      change (2 ^ 80) with 1208925819614629174706176. nia.
Qed.

Lemma speed_float_ticking (m : Z) (samples : list reading) (readings skip : Z) :
  ticking samples ->
  0 <= readings <= m -> 0 <= skip -> (0 < skip -> 0 < readings) ->
  exists o, Float.speed (session m samples) readings skip = Return o /\
            forall v, o = Some v -> 0 <= v < 2 ^ 80.
Proof.
  intros Ht Hr Hk Hkr. unfold Float.speed.
  assert (maxlog (session m samples) = m) as Hmax
    by (unfold session; rewrite maxlog_record_all; reflexivity).
  destruct (Float.delta (session m samples) readings skip) as [[[a b]|]|e] eqn:Hd.
  - destruct (delta_float_ticking _ _ _ _ _ _ Ht Hd) as (tt & -> & H1 & H2 & H3).
    destruct (delta_to_speed_ticking tt b H1 H2 H3) as (v & Hv & Hvr).
    rewrite bind_Return, Hv, bind_Return.
    exists (Some v). split; [reflexivity|]. intros v' [= <-]. exact Hvr.
  - exists None. split; [reflexivity|]. discriminate.
  - exfalso. rewrite delta_rounds in Hd.
    destruct (delta_cases (session m samples) readings skip)
      as [[_ Hbad]|[[H _]|(cur & _ & _ & _ & _ & H)]]; [lia|..];
      rewrite H in Hd; [discriminate|].
    destruct (delta_of _ cur) as [[t b]|]; discriminate.
Qed.

(** The loop of [curve] in a run: every float stays finite. *)
Lemma curve_loop_ticking (m : Z) (samples : list reading) :
  ticking samples -> 1 <= m ->
  forall (val : list Z) (i wtot : Z) (ws : Q),
    Forall (fun v => 0 < v <= 6) val -> (length val <= 6)%nat ->
    0 <= i -> 0 <= wtot ->
    (0 <= ws)%Q -> (ws <= pow2 (93 - Z.of_nat (length val)))%Q ->
    exists wtot' ws',
      Float.curve_loop (session m samples) val i wtot (Finite ws) =
      Return (wtot', Finite ws') /\
      0 <= wtot' /\ (0 <= ws')%Q /\ (ws' <= pow2 93)%Q.
Proof.
  intros Ht Hm.
  assert (maxlog (session m samples) = m) as Hmax
    by (unfold session; rewrite maxlog_record_all; reflexivity).
  induction val as [|v val IH]; intros i wtot ws Hval Hlen Hi Hw Hws0 Hws.
  - exists wtot, ws. cbn [length] in Hws. simpl in Hws. auto.
  - apply Forall_cons in Hval as [Hv Hval]. cbn [length] in Hlen, Hws.
    cbn [Float.curve_loop].
    destruct (Float.delta (session m samples) 1 i) as [[[a b]|]|e] eqn:Hd.
    + destruct (delta_float_ticking _ _ _ _ _ _ Ht Hd) as (tt & -> & H1 & H2 & H3).
      rewrite bind_Return.
      assert (0 <= b < 2 ^ 1023) as Hb.
      { split; [lia|]. apply Z.lt_trans with (2 ^ 64); [lia|].
        apply Z.pow_lt_mono_r; lia. }
      assert (0 <= inject_Z b)%Q as Hb0
        by (change 0%Q with (inject_Z 0); rewrite <- Zle_Qle; lia).
      assert (inject_Z b <= pow2 64)%Q as Hb64
        by (rewrite pow2_Z by lia; rewrite <- Zle_Qle; lia).
      unfold of_Z. rewrite (fl_finite _ 64 Hb0 Hb64) by lia.
      rewrite bind_Return. cbn [fmul].
      pose proof (round64_nonneg _ Hb0) as Hf0.
      pose proof (round64_le_pow2 _ 64 Hb0 Hb64 ltac:(lia)) as Hf1.
      set (fb := round64 (inject_Z b)) in *.
      assert (1 <= inject_Z v)%Q as Hv1
        by (change 1%Q with (inject_Z 1); rewrite <- Zle_Qle; lia).
      assert (inject_Z v <= 8)%Q as Hv8
        by (change 8%Q with (inject_Z 8); rewrite <- Zle_Qle; lia).
      assert (0 <= fb * inject_Z v)%Q as Hp0 by nra.
      assert (fb * inject_Z v <= pow2 67)%Q as Hp1.
      { assert (pow2 64 * 8 == pow2 67)%Q as <- by reflexivity.
        pose proof (pow2_pos 64). nra. }
      rewrite (fl_finite _ 67 Hp0 Hp1) by lia.
      pose proof (round64_nonneg _ Hp0) as Hq0.
      pose proof (round64_le_pow2 _ 67 Hp0 Hp1 ltac:(lia)) as Hq1.
      set (p := round64 (fb * inject_Z v)) in *.
      cbn [fdiv]. pose proof (pow2_pos (-20)) as Hp20.
      assert (Qeq_bool tt 0 = false) as ->.
      { destruct (Qeq_bool tt 0) eqn:E; [|reflexivity].
        apply Qeq_bool_iff in E. lra. }
      assert (0 <= p / tt)%Q as Hd0
        by (apply Qle_shift_div_l; lra).
      assert (p / tt <= pow2 87)%Q as Hd1.
      { apply Qle_shift_div_r; [lra|].
        assert (pow2 67 <= pow2 87 * pow2 (-20))%Q
          by (rewrite <- pow2_add; apply pow2_le; lia).
        pose proof (pow2_pos 87). nra. }
      rewrite (fl_finite _ 87 Hd0 Hd1) by lia.
      pose proof (round64_nonneg _ Hd0) as Hr0.
      pose proof (round64_le_pow2 _ 87 Hd0 Hd1 ltac:(lia)) as Hr1.
      set (q := round64 (p / tt)) in *.
      rewrite bind_Return. cbn [fadd].
      set (k := 93 - Z.of_nat (S (length val))) in *.
      assert (87 <= k) as Hk by (unfold k; lia).
      pose proof (pow2_le 87 k Hk) as Hle.
      assert (0 <= ws + q)%Q as Hs0 by lra.
      assert (ws + q <= pow2 (k + 1))%Q as Hs1.
      { rewrite pow2_add. change (pow2 1) with 2%Q. lra. }
      rewrite (fl_finite _ (k + 1) Hs0 Hs1) by (unfold k; lia).
      apply IH; try assumption; try lia.
      * apply round64_nonneg, Hs0.
      * replace (93 - Z.of_nat (length val)) with (k + 1) by (unfold k; lia).
        apply round64_le_pow2; [exact Hs0 | exact Hs1 | unfold k; lia].
    + rewrite bind_Return. exists wtot, ws.
      split; [reflexivity|]. split; [exact Hw|]. split; [exact Hws0|].
      eapply Qle_trans; [exact Hws|]. apply pow2_le. lia.
    + exfalso. rewrite delta_rounds in Hd.
      destruct (delta_single_step_returns (session m samples) i) as [d Hd'];
        [lia | exact Hi |].
      rewrite Hd' in Hd. destruct d as [[t b]|]; discriminate.
Qed.

Lemma curve_float_ticking (m : Z) (samples : list reading) :
  ticking samples -> 1 <= m ->
  exists v, Float.curve (session m samples) = Return v /\ 0 <= v < 2 ^ 1023.
Proof.
  intros Ht Hm. unfold Float.curve.
  destruct (curve_loop_ticking m samples Ht Hm curve_val 0 0 0%Q)
    as (W & ws & -> & HW & Hws0 & Hws); try lia.
  { unfold curve_val. repeat constructor; lia. }
  { simpl. lia. }
  { lra. }
  { apply Qlt_le_weak, pow2_pos. }
  rewrite bind_Return.
  unfold Float.delta_to_speed. cbn [Float.le0 Float.times1000 Float.long fmul].
  destruct (Z.leb_spec W 0) as [|HWpos].
  { exists 0. split; [reflexivity|]. split; [lia|]. apply Z.pow_pos_nonneg; lia. }
  rewrite bind_Return.
  destruct (Z.eqb_spec (W * 1000) 0); [lia|].
  assert (0 <= ws * 1000)%Q as H0 by lra.
  assert (ws * 1000 <= pow2 103)%Q as H1.
  { assert (pow2 93 * 1000 <= pow2 103)%Q by (vm_compute; discriminate). lra. }
  rewrite (fl_finite _ 103 H0 H1) by lia. rewrite bind_Return.
  pose proof (round64_nonneg _ H0) as Hr0.
  pose proof (round64_le_pow2 _ 103 H0 H1 ltac:(lia)) as Hr1.
  set (p := round64 (ws * 1000)) in *.
  pose proof (long_ge_0 p Hr0) as Hl0.
  assert (long p <= 2 ^ 103) as Hl1.
  { rewrite long_nonneg by exact Hr0. rewrite <- (Qfloor_Z (2 ^ 103)).
    apply Qfloor_resp_le. rewrite <- pow2_Z by lia. exact Hr1. }
  exists (long p / (W * 1000)). split; [reflexivity|]. split.
  - apply Z.div_pos; lia.
  - apply Z.div_lt_upper_bound; [lia|].
    assert (2 ^ 103 < 2 ^ 1023) by (apply Z.pow_lt_mono_r; lia).
    nia.
Qed.

(** [readable_speed] of a rate in the range of the doubles returns. *)
Lemma readable_loop_returns (v : Z) :
  0 <= v < 2 ^ 1023 ->
  forall (us : list string) (step j : Z),
    step = 2 ^ j -> 0 <= j -> j + 10 * Z.of_nat (length us) <= 50 ->
    exists s, Float.readable_loop us v step = Return s.
Proof.
  intros Hv. induction us as [|u us IH]; intros step j -> Hj Hlen.
  - eexists. reflexivity.
  - cbn [length] in Hlen. cbn [Float.readable_loop].
    assert (exists s,
              (if v / 2 ^ j <? 1024
               then Return (fmt_d 4 (v / 2 ^ j) +:+ " " +:+ u)
               else Float.readable_loop us v (2 ^ j * 1024)) = Return s)
      as [s Hrest].
    { destruct (v / 2 ^ j <? 1024); [eexists; reflexivity|].
      apply (IH _ (j + 10)); [|lia|lia].
      rewrite Z.pow_add_r by lia. reflexivity. }
    destruct (1 <? 2 ^ j); [|eauto].
    destruct (float_div_step v j Hv ltac:(lia)) as (r & x & Hr & Hst & Hdv & _).
    rewrite Hr, bind_Return, Hst, bind_Return, Hdv, bind_Return.
    repeat match goal with
           | |- context [if ?c then _ else _] => destruct c
           end; eauto.
Qed.

Lemma readable_speed_returns (o : option Z) :
  (forall v, o = Some v -> v < 2 ^ 1023) ->
  exists s, Float.readable_speed o = Return s.
Proof.
  intros Ho. unfold Float.readable_speed.
  assert (0 < 2 ^ 1023) as Hp by (apply Z.pow_pos_nonneg; lia).
  apply (readable_loop_returns _) with (j := 0);
    [|reflexivity | lia | simpl; lia].
  destruct o as [v|]; [|lia]. specialize (Ho v eq_refl).
  destruct (Z.ltb_spec v 0); lia.
Qed.

Lemma show_returns (s c a : option Z) :
  (forall v, s = Some v -> v < 2 ^ 1023) ->
  (forall v, c = Some v -> v < 2 ^ 1023) ->
  (forall v, a = Some v -> v < 2 ^ 1023) ->
  exists lines, Float.show s c a = Return lines /\ length lines = 5%nat.
Proof.
  intros Hs Hc Ha. unfold Float.show.
  destruct (readable_speed_returns s Hs) as [rs ->].
  destruct (readable_speed_returns c Hc) as [rc ->].
  destruct (readable_speed_returns a Ha) as [ra ->].
  rewrite !bind_Return. eexists. split; reflexivity.
Qed.

(** The loop over polls that all deliver a reading, then over [tail]. *)
Lemma do_simple_loop_ticking (rest : list reading) :
  forall pre : list reading,
    ticking (pre ++ rest) ->
    exists lines,
      length lines = (5 * length rest)%nat /\
      forall (tail : list poll) (out : list string),
        Float.do_simple_loop (session 6 pre) (map reading_poll rest ++ tail) out =
        Float.do_simple_loop (session 6 (pre ++ rest)) tail (out ++ lines).
Proof.
  assert (2 ^ 80 < 2 ^ 1023) as Hpow by (apply Z.pow_lt_mono_r; lia).
  induction rest as [|r rest IH]; intros pre Ht.
  - exists []. split; [reflexivity|]. intros tail out.
    rewrite !app_nil_r. reflexivity.
  - assert (ticking (pre ++ [r])) as Ht1.
    { apply (ticking_app_l (pre ++ [r]) rest). rewrite <- app_assoc. exact Ht. }
    destruct (speed_float_ticking 6 (pre ++ [r]) 1 0 Ht1) as (s & Hspeed & Hs);
      [lia..|].
    destruct (curve_float_ticking 6 (pre ++ [r]) Ht1) as (c & Hcurve & Hc); [lia|].
    destruct (speed_float_ticking 6 (pre ++ [r]) 0 0 Ht1) as (a & Havg & Ha);
      [lia..|].
    destruct (show_returns s (Some c) a) as (l1 & Hshow & Hl1).
    { intros v Hv. specialize (Hs v Hv). lia. }
    { intros v [= <-]. lia. }
    { intros v Hv. specialize (Ha v Hv). lia. }
    destruct (IH (pre ++ [r])) as (lines & Hlen & Hloop).
    { rewrite <- app_assoc. exact Ht. }
    exists (l1 ++ lines). split.
    + rewrite length_app, Hlen, Hl1. simpl. lia.
    + intros tail out.
      cbn [map app Float.do_simple_loop reading_poll fed clock].
      rewrite (session_snoc 6 pre r), Hspeed, bind_Return, Hcurve, bind_Return,
        Havg, bind_Return, Hshow, bind_Return.
      rewrite Hloop, <- !app_assoc. reflexivity.
Qed.

(** X14.  In a run whose clock advances by at least [2^-20] seconds from one
    reading to the next and stays below [2^40] seconds, and whose counter
    never goes down and stays below [2^64], [do_simple] raises nothing: over
    polls that all deliver a reading it makes five writes (one line) for each
    reading after the first and goes on polling; at the first poll where
    [feed()] returns [None] it returns with the same output, whatever would
    come after. *)
Theorem do_simple_runs (r : reading) (rest : list reading)
    (p : poll) (later : list poll) :
  ticking (r :: rest) -> fed p = None ->
  exists lines,
    length lines = (5 * length rest)%nat /\
    Float.do_simple (map reading_poll (r :: rest)) = Return (Polling, lines) /\
    Float.do_simple (map reading_poll (r :: rest) ++ p :: later)
    = Return (Stopped, lines).
Proof.
  intros Ht Hp.
  destruct (do_simple_loop_ticking rest [r] Ht) as (lines & Hlen & Hloop).
  assert (update (init 6) r.1 r.2 = session 6 [r]) as Hinit by reflexivity.
  exists lines. split; [exact Hlen|]. split.
  - unfold Float.do_simple. cbn [map reading_poll fed clock].
    rewrite Hinit. rewrite <- (app_nil_r (map reading_poll rest)), Hloop.
    reflexivity.
  - unfold Float.do_simple. cbn [map app reading_poll fed clock].
    rewrite Hinit, Hloop. cbn [Float.do_simple_loop]. rewrite Hp. reflexivity.
Qed.

Lemma do_simple_runs_witness :
  exists lines,
    length lines = 10%nat /\
    Float.do_simple
      [mkPoll (Some 0) 0; mkPoll (Some 1000) 1; mkPoll (Some 3000) 2]
    = Return (Polling, lines) /\
    Float.do_simple
      [mkPoll (Some 0) 0; mkPoll (Some 1000) 1; mkPoll (Some 3000) 2;
       mkPoll None 3; mkPoll (Some 9000) 4]
    = Return (Stopped, lines).
Proof.
  apply (do_simple_runs (0%Q, 0) [(1%Q, 1000); (2%Q, 3000)]
           (mkPoll None 3) [mkPoll (Some 9000) 4]).
  - split; [|split].
    + repeat constructor; unfold tick_lt; vm_compute; discriminate.
    + repeat constructor; unfold counter_le; simpl; lia.
    + repeat constructor; try (vm_compute; discriminate); simpl; pow_arith.
  - reflexivity.
Defined.

(** ** The arguments *)

(** The loop reads [args] from index [i] on only. *)
Lemma parse_loop_drop (n : nat) :
  forall (args : list string) (i : nat) tap taps,
    parse_loop n args i tap taps = parse_loop n (drop i args) 0 tap taps.
Proof.
  induction n as [|n IH]; intros args i tap taps; [reflexivity|].
  cbn [parse_loop]. rewrite !lookup_drop.
  replace (i + 0)%nat with i by lia.
  replace (i + (0 + 1))%nat with (i + 1)%nat by lia.
  destruct (args !! i) as [op|]; [|reflexivity].
  assert (forall tap' taps',
            parse_loop n args (i + 1) tap' taps' =
            parse_loop n (drop i args) (0 + 1) tap' taps') as Hnext.
  { intros tap' taps'. rewrite (IH args), (IH (drop i args)), drop_drop.
    reflexivity. }
  rewrite !Hnext.
  destruct (args !! (i + 1)%nat) as [next|]; [|reflexivity].
  rewrite (IH (<[(i + 1)%nat := op +:+ next]> args)),
    (IH (<[(0 + 1)%nat := op +:+ next]> (drop i args))).
  rewrite !drop_insert_ge, drop_drop by lia.
  replace (i + 1 - (i + 1))%nat with (0 + 1 - (0 + 1))%nat by lia.
  reflexivity.
Qed.

Lemma parse_from_nil tap taps : parse_from [] tap taps = Parsed [push_tap tap taps].
Proof. reflexivity. Qed.

(** One iteration, on the first argument still to read. *)
Lemma parse_from_cons (op : string) (rest : list string) tap taps :
  parse_from (op :: rest) tap taps =
  if in_tuple op help_options then Failed ArgumentError
  else if in_tuple op two_part_options then
    if negb (String.eqb op "-f") then
      match rest with
      | [] => Failed ArgumentError
      | next :: rest' =>
          parse_from ((op +:+ next) :: rest') None (push_tap tap taps)
      end
    else parse_from rest None (push_tap tap taps)
  else match network_option op with
       | Some t => parse_from rest (Some t) (push_tap tap taps)
       | None => match tap with
                 | None => Failed NameError
                 | Some _ => Failed ArgumentError
                 end
       end.
Proof.
  unfold parse_from. cbn [length parse_loop lookup list_lookup].
  assert (forall tap' taps',
            parse_loop (length rest) (op :: rest) (0 + 1) tap' taps' =
            parse_loop (length rest) rest 0 tap' taps') as Hnext.
  { intros tap' taps'. rewrite parse_loop_drop. reflexivity. }
  rewrite !Hnext.
  destruct (in_tuple op help_options); [reflexivity|].
  destruct (in_tuple op two_part_options).
  - destruct (negb (String.eqb op "-f")); [|reflexivity].
    destruct rest as [|next rest']; [reflexivity|].
    cbn [Nat.add lookup list_lookup]. rewrite parse_loop_drop. reflexivity.
  - unfold network_option.
    repeat match goal with
           | |- context [if String.prefix ?p op then _ else _] =>
               destruct (String.prefix p op)
           end; reflexivity.
Qed.

Lemma in_tuple_false (op : string) (t : list string) :
  op ∉ t -> in_tuple op t = false.
Proof.
  intros Hnot. unfold in_tuple.
  destruct (existsb (String.eqb op) t) eqn:E; [|reflexivity].
  apply existsb_exists in E as (x & Hin & Heq).
  apply String.eqb_eq in Heq. subst x.
  destruct Hnot. apply list_elem_of_In, Hin.
Qed.

Lemma prefix_cons (a b : ascii) (s1 s2 : string) :
  String.prefix (String a s1) (String b s2) =
  if ascii_dec a b then String.prefix s1 s2 else false.
Proof. reflexivity. Qed.

(** An argument that starts with a longer option starts with the shorter. *)
Lemma prefix_longer (c1 c2 c3 : ascii) (a : string) :
  String.prefix (String c1 (String c2 "")) a = false ->
  String.prefix (String c1 (String c2 (String c3 ""))) a = false.
Proof.
  intros H.
  destruct a as [|d1 a]; [reflexivity|]. rewrite prefix_cons in *.
  destruct (ascii_dec c1 d1); [|reflexivity].
  destruct a as [|d2 a]; [reflexivity|]. rewrite prefix_cons in *.
  destruct (ascii_dec c2 d2); [|reflexivity].
  destruct a; discriminate H.
Qed.

Lemma network_option_None (a : string) :
  String.prefix "-r" a = false -> String.prefix "-t" a = false ->
  network_option a = None.
Proof.
  intros Hr Ht. unfold network_option.
  rewrite (prefix_longer "-" "r" "x" a Hr), Hr.
  rewrite (prefix_longer "-" "t" "x" a Ht), Ht.
  reflexivity.
Qed.

Lemma network_option_Some (a : string) :
  String.prefix "-r" a = true \/ String.prefix "-t" a = true ->
  exists t, network_option a = Some t.
Proof.
  intros H. unfold network_option.
  destruct (String.prefix "-rx" a); [eauto|].
  destruct (String.prefix "-r" a); [eauto|].
  destruct (String.prefix "-tx" a); [eauto|].
  destruct (String.prefix "-t" a); [eauto|].
  destruct H; discriminate.
Qed.

Lemma parse_from_tap_argument (t : NetworkTap) (rest : list string) tap taps :
  tap_ok t ->
  parse_from (tap_argument t :: rest) tap taps =
  parse_from rest (Some t) (push_tap tap taps).
Proof.
  intros [Hf Hi]. destruct t as [f i]. simpl in Hf, Hi.
  destruct i as [|c d]; [congruence|].
  rewrite parse_from_cons.
  destruct Hf as [-> | ->]; reflexivity.
Qed.

Lemma parse_from_tap_arguments (ts : list NetworkTap) :
  forall tap taps,
    Forall tap_ok ts ->
    exists tap' taps',
      push_tap tap' taps' = push_tap tap taps ++ ts /\
      forall l : list string,
        parse_from (map tap_argument ts ++ l) tap taps =
        parse_from l tap' taps'.
Proof.
  induction ts as [|t ts IH]; intros tap taps Hok.
  - exists tap, taps. rewrite app_nil_r. split; reflexivity.
  - apply Forall_cons in Hok as [Ht Hok].
    destruct (IH (Some t) (push_tap tap taps) Hok) as (tap' & taps' & Hp & Hl).
    exists tap', taps'. split.
    + rewrite Hp. cbn [push_tap]. rewrite <- app_assoc. reflexivity.
    + intros l. cbn [map app].
      rewrite (parse_from_tap_argument t _ tap taps Ht). apply Hl.
Qed.

(** X15.  [parse_args] reads back any list of taps written as [-rx<name>]
    and [-tx<name>] arguments, the names being non-empty: it returns them, in
    their order, as the one column. *)
Theorem parse_args_round_trip (ts : list NetworkTap) :
  Forall tap_ok ts -> parse_args (map tap_argument ts) = Parsed [ts].
Proof.
  intros Hok.
  destruct (parse_from_tap_arguments ts None [] Hok)
    as (tap' & taps' & Hp & Hparse).
  specialize (Hparse []). rewrite app_nil_r in Hparse.
  unfold parse_args. fold (parse_from (map tap_argument ts) None []).
  rewrite Hparse, parse_from_nil, Hp. reflexivity.
Qed.

Lemma parse_args_round_trip_witness :
  parse_args ["-rxeth0"; "-txxenbr0"] =
  Parsed [[mkNetworkTap "RX" "eth0"; mkNetworkTap "TX" "xenbr0"]].
Proof.
  apply (parse_args_round_trip
           [mkNetworkTap "RX" "eth0"; mkNetworkTap "TX" "xenbr0"]).
  repeat constructor; simpl; auto; discriminate.
Defined.

Lemma parse_from_joined (op a : string) (rest : list string) tap taps :
  op ∈ ["-r"; "-rx"; "-t"; "-tx"] ->
  parse_from (op :: a :: rest) tap taps =
  parse_from ((op +:+ a) :: rest) tap taps.
Proof.
  intros Hop.
  assert (in_tuple op help_options = false /\
          in_tuple op two_part_options = true /\
          negb (String.eqb op "-f") = true /\
          in_tuple (op +:+ a) help_options = false /\
          negb (String.eqb (op +:+ a) "-f") = true /\
          exists t, network_option (op +:+ a) = Some t)
    as (H1 & H2 & H3 & H4 & H5 & t & Ht).
  { repeat (apply elem_of_cons in Hop as [->|Hop]);
      [..|apply elem_of_nil in Hop; destruct Hop];
      (do 5 (split; [reflexivity|]));
      apply network_option_Some; [left|left|right|right];
      destruct a; reflexivity. }
  rewrite (parse_from_cons op), H1, H2, H3.
  rewrite !(parse_from_cons (op +:+ a) rest), H4, H5, Ht.
  destruct (in_tuple (op +:+ a) two_part_options); [|reflexivity].
  destruct rest; reflexivity.
Qed.

(** X16.  After any taps given in the unambiguous form, an option [-r],
    [-rx], [-t] or [-tx] followed by its value as the next argument is parsed
    exactly as the option and the value joined in one argument. *)
Theorem parse_args_two_part (ts : list NetworkTap) (op a : string)
    (rest : list string) :
  Forall tap_ok ts -> op ∈ ["-r"; "-rx"; "-t"; "-tx"] ->
  parse_args (map tap_argument ts ++ op :: a :: rest) =
  parse_args (map tap_argument ts ++ (op +:+ a) :: rest).
Proof.
  intros Hok Hop.
  destruct (parse_from_tap_arguments ts None [] Hok)
    as (tap' & taps' & _ & Hparse).
  unfold parse_args.
  fold (parse_from (map tap_argument ts ++ op :: a :: rest) None []).
  fold (parse_from (map tap_argument ts ++ (op +:+ a) :: rest) None []).
  rewrite !Hparse. apply parse_from_joined, Hop.
Qed.

Lemma parse_args_two_part_witness :
  parse_args ["-rxeth0"; "-t"; "wlan0"] = parse_args ["-rxeth0"; "-twlan0"].
Proof.
  apply (parse_args_two_part [mkNetworkTap "RX" "eth0"] "-t" "wlan0" []).
  - repeat constructor; simpl; auto; discriminate.
  - apply list_elem_of_In. simpl. auto.
Defined.

Lemma prefix_x_false (c : ascii) (d : string) :
  String.prefix "x" (String c d) = false -> "x"%char <> c.
Proof.
  rewrite prefix_cons. destruct (ascii_dec "x" c) as [E|E]; [|intros _; exact E].
  destruct d; discriminate.
Qed.

(** The short option [-r] or [-t] joined to a name that does not start with
    [x]. *)
Lemma parse_from_short (o : ascii) (f : string) (c : ascii) (d : string)
    (rest : list string) tap taps :
  (o = "r"%char /\ f = "RX" \/ o = "t"%char /\ f = "TX") ->
  "x"%char <> c ->
  parse_from (String "-" (String o (String c d)) :: rest) tap taps =
  parse_from rest (Some (mkNetworkTap f (String c d))) (push_tap tap taps).
Proof.
  intros Ho Hc. set (w := String "-" (String o (String c d))).
  rewrite parse_from_cons.
  assert (in_tuple w help_options = false) as ->.
  { apply in_tuple_false. unfold help_options, w. intros Hin.
    destruct Ho as [[-> _]|[-> _]];
      repeat (apply elem_of_cons in Hin as [Hin|Hin]; [discriminate|]);
      apply elem_of_nil in Hin; exact Hin. }
  assert (in_tuple w two_part_options = false) as ->.
  { apply in_tuple_false. unfold two_part_options, w. intros Hin.
    destruct Ho as [[-> _]|[-> _]];
      repeat (apply elem_of_cons in Hin as [Hin|Hin];
              [first [discriminate | injection Hin as E _; congruence]|]);
      apply elem_of_nil in Hin; exact Hin. }
  unfold network_option, w. rewrite !prefix_cons.
  destruct Ho as [[-> ->]|[-> ->]];
    repeat match goal with
           | |- context [ascii_dec "x" c] =>
               destruct (ascii_dec "x" c); [congruence|]
           | |- context [ascii_dec ?a ?b] =>
               destruct (ascii_dec a b); try congruence; try discriminate
           end;
    reflexivity.
Qed.

(** X17.  With the short options the interface is the value unless the value
    starts with [x]: [-r name] and [-t name] name the interface [name] when
    [name] is not empty and does not start with [x], but [-r x<name>] and
    [-t x<name>] are read as [-rx<name>] and [-tx<name>] and name the
    interface [name] without its [x]. *)
Theorem parse_args_short_options (name : string) :
  name <> "" ->
  (String.prefix "x" name = false ->
   parse_args ["-r"; name] = Parsed [[mkNetworkTap "RX" name]] /\
   parse_args ["-t"; name] = Parsed [[mkNetworkTap "TX" name]]) /\
  parse_args ["-r"; "x" +:+ name] = Parsed [[mkNetworkTap "RX" name]] /\
  parse_args ["-t"; "x" +:+ name] = Parsed [[mkNetworkTap "TX" name]].
Proof.
  intros Hne. destruct name as [|c d]; [congruence|].
  split; [|split; reflexivity].
  intros Hx. apply prefix_x_false in Hx.
  unfold parse_args.
  fold (parse_from ["-r"; String c d] None []).
  fold (parse_from ["-t"; String c d] None []).
  rewrite !parse_from_joined by (apply list_elem_of_In; simpl; auto).
  split.
  - apply (parse_from_short "r" "RX" c d [] None []); [left; split|];
      [reflexivity | reflexivity | exact Hx].
  - apply (parse_from_short "t" "TX" c d [] None []); [right; split|];
      [reflexivity | reflexivity | exact Hx].
Qed.

Lemma parse_args_short_options_witness :
  parse_args ["-r"; "eth0"] = Parsed [[mkNetworkTap "RX" "eth0"]] /\
  parse_args ["-r"; "xenbr0"] = Parsed [[mkNetworkTap "RX" "enbr0"]].
Proof.
  split.
  - destruct (parse_args_short_options "eth0") as [H _]; [discriminate|].
    destruct H as [H _]; [reflexivity | exact H].
  - destruct (parse_args_short_options "enbr0") as (_ & H & _);
      [discriminate | exact H].
Defined.

(** X18.  [parse_args] accepts nothing but help and network options: an
    argument that is no listed option and does not start with [-r] or [-t]
    (a file name, say) raises [NameError] when no tap is pending, since the
    module has no [FileTap], and [ArgumentError] after a tap; so the listed
    options [-i], [-k], [-m] and [-n] raise [NameError] on any non-empty
    value. *)
Theorem parse_args_plain_argument (a : string) (rest : list string) :
  a ∉ help_options -> a ∉ two_part_options ->
  String.prefix "-r" a = false -> String.prefix "-t" a = false ->
  parse_args (a :: rest) = Failed NameError /\
  (forall t, tap_ok t ->
     parse_args (tap_argument t :: a :: rest) = Failed ArgumentError) /\
  (forall op value,
     op ∈ ["-i"; "-k"; "-m"; "-n"] -> value <> "" ->
     parse_args (op :: value :: rest) = Failed NameError).
Proof.
  intros Hh H2 Hr Ht.
  assert (forall tap taps,
            parse_from (a :: rest) tap taps =
            match tap with
            | None => Failed NameError
            | Some _ => Failed ArgumentError
            end) as Hplain.
  { intros tap taps.
    rewrite parse_from_cons, (in_tuple_false _ _ Hh), (in_tuple_false _ _ H2).
    rewrite (network_option_None a Hr Ht). reflexivity. }
  split; [apply (Hplain None [])|]. split.
  - intros t Hok. unfold parse_args.
    fold (parse_from (tap_argument t :: a :: rest) None []).
    rewrite (parse_from_tap_argument t _ None [] Hok). apply Hplain.
  - intros op value Hop Hv. destruct value as [|c d]; [congruence|].
    unfold parse_args. fold (parse_from (op :: String c d :: rest) None []).
    repeat (apply elem_of_cons in Hop as [->|Hop]);
      [..|apply elem_of_nil in Hop; destruct Hop];
      rewrite parse_from_cons; reflexivity.
Qed.

Lemma parse_args_plain_argument_witness :
  parse_args ["notes.txt"] = Failed NameError /\
  parse_args ["-rxeth0"; "notes.txt"] = Failed ArgumentError /\
  parse_args ["-i"; "eth0"; "notes.txt"] = Failed NameError.
Proof.
  assert ("notes.txt" ∉ help_options) as Hh.
  { intros H. apply list_elem_of_In in H. simpl in H.
    repeat destruct H as [H|H]; try discriminate; exact H. }
  assert ("notes.txt" ∉ two_part_options) as H2.
  { intros H. apply list_elem_of_In in H. simpl in H.
    repeat destruct H as [H|H]; try discriminate; exact H. }
  split; [|split].
  - apply (parse_args_plain_argument "notes.txt" [] Hh H2); reflexivity.
  - destruct (parse_args_plain_argument "notes.txt" [] Hh H2) as (_ & H & _);
      [reflexivity | reflexivity |].
    apply (H (mkNetworkTap "RX" "eth0")).
    split; simpl; [left; reflexivity | discriminate].
  - destruct (parse_args_plain_argument "notes.txt" ["notes.txt"] Hh H2)
      as (_ & _ & H); [reflexivity | reflexivity |].
    apply (H "-i" "eth0"); [apply list_elem_of_In; simpl; auto | discriminate].
Defined.
